(** * Authelia UserAdmin ([useradmin/app.mjs]): a model of the service and
      the properties of its user and invitation management.

    The service is an Express application.  Every request handler reloads
    the users file (YAML) or the invites file (JSON) from disk, changes the
    loaded object and writes it back, so the state that survives a request
    is the content of the two files.  The model follows that: a [World]
    holds the two files, the handlers are computations in a small
    state-and-exception monad, and JavaScript values are an inductive type.

    Scope of the model.
    - Strings are sequences of code units below 256 (Rocq's [string]).
    - Numbers are integers with exact arithmetic; an arithmetic result
      outside the safe-integer range of a double is [OutOfModel].
    - A file is represented by what its parser yields on it ([Doc v]), and
      [yaml.load (yaml.dump v)] and [JSON.parse (JSON.stringify v)] are
      taken to give [v] back.  Documents are trees: no two records of a
      file share one object.
    - A property whose value is [undefined] is not written by [yaml.dump]
      nor by [JSON.stringify], and reads back as [undefined] like an absent
      one: object literals ([obj_lit]) leave such properties out.
    - Objects read from the files are plain objects: a property that is not
      an own property is looked up on [Object.prototype].
    - The clock, [uuidv4], the hash command and the mail transport are the
      surroundings of the process ([Env]); a delivery is recorded when the
      mail is handed over, although its outcome is known only later.
    - The built-in functions that a plain object inherits carry their
      standard properties only.  The one step of the code that could give
      them another, assigning a field of an inherited member
      ([users["constructor"].email = ...]), is [OutOfModel].
    - Whatever JavaScript does outside this fragment (members of strings,
      arrays and functions other than the absent record fields, conversion
      of strings to numbers, keys that are not strings, the key
      [__proto__]) is [OutOfModel], never a guess. *)

From Stdlib Require Import ZArith String Ascii List Lia.
From stdpp Require Import base gmap strings list.

Set Warnings "-register-all".
Local Open Scope string_scope.
Local Open Scope Z_scope.

(** ** JavaScript values *)

Inductive val : Type :=
| Undef
| Null
| Bool (b : bool)
| Num (n : Z)
| Str (s : string)
| Arr (l : list val)
| Obj (m : gmap string val)
| Fun (name : string).  (* a built-in function, reached through a prototype *)

(** [!!v] *)
Definition truthy (v : val) : bool :=
  match v with
  | Undef | Null => false
  | Bool b => b
  | Num n => negb (n =? 0)
  | Str s => negb (String.eqb s "")
  | Arr _ | Obj _ | Fun _ => true
  end.

(** [a || b] *)
Definition js_or (a b : val) : val := if truthy a then a else b.

(** [Array.isArray(v)] *)
Definition isArray (v : val) : bool :=
  match v with Arr _ => true | _ => false end.

(** [v !== undefined] *)
Definition defined (v : val) : bool :=
  match v with Undef => false | _ => true end.

(** An object literal [{k1: v1, ..., kn: vn}] as it is seen after
    serialisation: properties holding [undefined] are left out. *)
Definition obj_fields (fields : list (string * val)) : gmap string val :=
  list_to_map (filter (λ kv, defined kv.2 = true) fields).

Definition obj_lit (fields : list (string * val)) : val := Obj (obj_fields fields).

(** The members every plain object inherits from [Object.prototype]. *)
Definition object_prototype : list string :=
  [ "constructor"; "__defineGetter__"; "__defineSetter__"; "hasOwnProperty";
    "__lookupGetter__"; "__lookupSetter__"; "isPrototypeOf";
    "propertyIsEnumerable"; "toString"; "valueOf"; "__proto__";
    "toLocaleString" ].

Definition inherited (k : string) : bool :=
  existsb (String.eqb k) object_prototype.

(** ** Results: a value, a JavaScript exception, or a step the model does
    not cover. *)

Inductive result (A : Type) : Type :=
| Ret (a : A)
| Throw (message : string)
| OutOfModel.
Arguments Ret {A} a.
Arguments Throw {A} message.
Arguments OutOfModel {A}.

(** The property names the code reads with a literal key ([parsed.users],
    [invite.expiresAt], ...).  No string, number, boolean, array or
    built-in function has a property of such a name, own or inherited. *)
Definition record_fields : list string :=
  [ "users"; "displayname"; "email"; "password"; "groups"; "expiresAt" ].

Definition record_field (k : string) : bool :=
  existsb (String.eqb k) record_fields.

(** [o[k]] read.  On a value that is not a plain object (a primitive, an
    array, a built-in function reached through [Object.prototype]) the
    names of [record_fields] read as [undefined]; other keys may name a
    member of the value (an index, [length], a method) and are not
    followed. *)
Definition get (o : val) (k : string) : result val :=
  match o with
  | Undef | Null => Throw "Cannot read properties of undefined"
  | Obj m =>
      if String.eqb k "__proto__" then OutOfModel
      else match m !! k with
           | Some v => Ret v
           | None => Ret (if inherited k then Fun k else Undef)
           end
  | Bool _ | Num _ | Str _ | Arr _ | Fun _ =>
      if record_field k then Ret Undef else OutOfModel
  end.

(** [o[k] = v] (the module is strict-mode code: assigning a property of a
    primitive throws). *)
Definition set (o : val) (k : string) (v : val) : result val :=
  match o with
  | Undef | Null => Throw "Cannot set properties of undefined"
  | Bool _ | Num _ | Str _ => Throw "Cannot create property"
  | Obj m => if String.eqb k "__proto__" then OutOfModel else Ret (Obj (<[k := v]> m))
  | _ => OutOfModel
  end.

(** [delete o[k]] on a loaded store. *)
Definition del (o : val) (k : string) : result val :=
  match o with
  | Undef | Null => Throw "Cannot convert undefined or null to object"
  | Obj m => if String.eqb k "__proto__" then OutOfModel else Ret (Obj (delete k m))
  | _ => OutOfModel
  end.

(** [o[k].f = v]: the record is changed in place, and [o] still refers to it. *)
Definition set_in (o : val) (k f : string) (v : val) : result val :=
  match o with
  | Obj m =>
      if String.eqb k "__proto__" then OutOfModel
      else match m !! k with
           | Some (Obj r) =>
               if String.eqb f "__proto__" then OutOfModel
               else Ret (Obj (<[k := Obj (<[f := v]> r)]> m))
           | Some (Bool _) | Some (Num _) | Some (Str _) => Throw "Cannot create property"
           | Some Undef | Some Null => Throw "Cannot set properties of undefined"
           | Some _ => OutOfModel
           | None => if inherited k then OutOfModel
                     else Throw "Cannot set properties of undefined"
           end
  | Undef | Null => Throw "Cannot read properties of undefined"
  | _ => OutOfModel
  end.

(** A property key: only string keys are modelled. *)
Definition to_key (v : val) : result string :=
  match v with
  | Str s => Ret s
  | _ => OutOfModel
  end.

(** Numbers: exact while they stay in the safe-integer range. *)
Definition max_safe_integer : Z := 2 ^ 53 - 1.

Definition safe_integer (n : Z) : bool :=
  (- max_safe_integer <=? n) && (n <=? max_safe_integer).

Definition number (n : Z) : result Z :=
  if safe_integer n then Ret n else OutOfModel.

(** [ToNumber v] where it is an integer. *)
Definition to_number (v : val) : result Z :=
  match v with
  | Num n => number n
  | Null => Ret 0
  | Bool b => Ret (if b then 1 else 0)
  | _ => OutOfModel
  end.

(** [now > v] for a number [now]; a comparison with [NaN] is false. *)
Definition js_gt (now : Z) (v : val) : result bool :=
  match v with
  | Undef => Ret false
  | Str _ | Arr _ | Obj _ | Fun _ => OutOfModel
  | _ => match to_number v with
         | Ret n => Ret (n <? now)
         | Throw e => Throw e
         | OutOfModel => OutOfModel
         end
  end.

(** ** Strings *)

(** The characters of [\s] (and of [String.prototype.trim]) below 256. *)
Definition is_space (c : ascii) : bool :=
  let n := nat_of_ascii c in
  ((9 <=? n) && (n <=? 13) || (n =? 32) || (n =? 160))%nat.

(** The characters of the class [[,\s]]. *)
Definition is_sep (c : ascii) : bool :=
  Ascii.eqb c "," || is_space c.

Fixpoint trim_start (s : string) : string :=
  match s with
  | String c t => if is_space c then trim_start t else s
  | EmptyString => EmptyString
  end.

Definition string_rev (s : string) : string :=
  string_of_list_ascii (rev (list_ascii_of_string s)).

(** [s.trim()] *)
Definition trim (s : string) : string :=
  string_rev (trim_start (string_rev (trim_start s))).

Fixpoint string_drop (n : nat) (s : string) : string :=
  match n, s with
  | S n', String _ t => string_drop n' t
  | _, _ => s
  end.

(** The text before and after the first occurrence of [sep] in [s]. *)
Fixpoint cut (sep s : string) : option (string * string) :=
  if String.prefix sep s then Some (EmptyString, string_drop (String.length sep) s)
  else match s with
       | EmptyString => None
       | String c t =>
           match cut sep t with
           | Some (before, after) => Some (String c before, after)
           | None => None
           end
       end.

(** [s.includes(sep)] *)
Definition includes (sep s : string) : bool :=
  match cut sep s with Some _ => true | None => false end.

(** [s.split(sep)[1]], for a non-empty [sep] that occurs in [s]. *)
Definition split_second (sep s : string) : string :=
  match cut sep s with
  | Some (_, after) =>
      match cut sep after with
      | Some (piece, _) => piece
      | None => after
      end
  | None => EmptyString
  end.

(** [s.split(/[,\s]+/)]: the pieces of [s] between maximal runs of
    separators; a run at either end leaves an empty piece there. *)
Fixpoint split_sep (s : string) : list string :=
  match s with
  | EmptyString => [EmptyString]
  | String c t =>
      if is_sep c then
        EmptyString :: match t with
                       | String d _ => if is_sep d then tl (split_sep t) else split_sep t
                       | EmptyString => split_sep t
                       end
      else match split_sep t with
           | p :: ps => String c p :: ps
           | [] => [String c EmptyString]
           end
  end.

(** [!!g] for a string, as [filter(Boolean)] uses it. *)
Definition nonempty (s : string) : bool := negb (String.eqb s "").

(** [groupsRaw.split(/[,\s]+/).map(g => g.trim()).filter(Boolean)] *)
Definition parse_groups (groupsRaw : string) : list string :=
  filter (λ g, nonempty g = true) (map trim (split_sep groupsRaw)).

(** [groups.includes(name)] *)
Definition list_includes (name : string) (groups : list string) : bool :=
  existsb (String.eqb name) groups.

(** ** The world of the service *)

(** A file on disk, as its parser sees it. [Doc Undef] is a file that parses
    to no document at all (an empty file, or only comments for YAML). *)
Inductive file : Type :=
| Missing                 (* [fs.existsSync] is false *)
| Unreadable              (* [fs.readFileSync] throws *)
| Malformed               (* the parser throws *)
| Doc (v : val).

(** A mail handed to the transporter. *)
Record Mail : Type := mkMail { mail_to : val; mail_link : string }.

Record World : Type := mkWorld {
  users_yml : file;            (* USERS_FILE *)
  users_yml_writable : bool;   (* does [fs.writeFileSync] on it succeed *)
  invites_json : file;         (* INVITES_FILE *)
  invites_json_writable : bool;
  clock_reads : nat;           (* calls of [Date.now()] so far *)
  uuid_calls : nat;            (* calls of [uuidv4()] so far *)
  outbox : list Mail;          (* mails passed to [transporter.sendMail] *)
  log : list string            (* lines given to the logger, newest first *)
}.

(** What surrounds the process and does not change while it runs. *)
Record Env : Type := mkEnv {
  clock : nat -> Z;                   (* the n-th reading of [Date.now()] *)
  uuid : nat -> string;               (* the n-th result of [uuidv4()] *)
  authelia_cli : val -> option string;(* output of the hash command, [None]
                                         when [execSync] throws *)
  smtp : option (Mail -> bool);       (* the transporter, when SMTP_HOST and
                                         SMTP_PORT are set, with the outcome
                                         of each delivery *)
  base_url : string                   (* BASE_URL, or the empty string *)
}.

Definition with_users_yml (f : file) (w : World) : World :=
  mkWorld f (users_yml_writable w) (invites_json w) (invites_json_writable w)
          (clock_reads w) (uuid_calls w) (outbox w) (log w).

Definition with_invites_json (f : file) (w : World) : World :=
  mkWorld (users_yml w) (users_yml_writable w) f (invites_json_writable w)
          (clock_reads w) (uuid_calls w) (outbox w) (log w).

Definition with_clock_reads (n : nat) (w : World) : World :=
  mkWorld (users_yml w) (users_yml_writable w) (invites_json w) (invites_json_writable w)
          n (uuid_calls w) (outbox w) (log w).

Definition with_uuid_calls (n : nat) (w : World) : World :=
  mkWorld (users_yml w) (users_yml_writable w) (invites_json w) (invites_json_writable w)
          (clock_reads w) n (outbox w) (log w).

Definition with_outbox (o : list Mail) (w : World) : World :=
  mkWorld (users_yml w) (users_yml_writable w) (invites_json w) (invites_json_writable w)
          (clock_reads w) (uuid_calls w) o (log w).

Definition with_log (l : list string) (w : World) : World :=
  mkWorld (users_yml w) (users_yml_writable w) (invites_json w) (invites_json_writable w)
          (clock_reads w) (uuid_calls w) (outbox w) l.

(** ** The monad of handlers: the world is threaded through, and survives
    an exception (a file written before a [throw] stays written). *)

Definition M (A : Type) : Type := World -> World * result A.

Definition ret {A} (a : A) : M A := λ w, (w, Ret a).

Definition throw {A} (message : string) : M A := λ w, (w, Throw message).

Definition lift {A} (r : result A) : M A := λ w, (w, r).

Definition bind {A B} (c : M A) (k : A -> M B) : M B :=
  λ w, match c w with
       | (w', Ret a) => k a w'
       | (w', Throw e) => (w', Throw e)
       | (w', OutOfModel) => (w', OutOfModel)
       end.

Declare Scope js_scope.
Delimit Scope js_scope with js.
Notation "x <- c ;; k" := (bind c (λ x, k))
  (at level 100, c at next level, right associativity) : js_scope.
Notation "c ;;; k" := (bind c (λ _, k))
  (at level 100, right associativity) : js_scope.
Local Open Scope js_scope.

(** [logger.info / warn / error] *)
Definition logger (line : string) : M unit :=
  λ w, (with_log (line :: log w) w, Ret tt).

(** ** HTTP *)

Record Request : Type := mkRequest {
  headers : gmap string string;  (* [req.headers], names in lower case *)
  param_username : string;       (* [req.params.username] *)
  body : gmap string val         (* [req.body], the parsed JSON object *)
}.

Record Response : Type := mkResponse { status : Z; payload : val }.

(** [res.status(s).json(v)] *)
Definition json (s : Z) (v : val) : Response := mkResponse s v.

(** [{ error: message }] *)
Definition error (message : string) : val := obj_lit [("error", Str message)].

(** [{ ok: true }] *)
Definition ok : val := obj_lit [("ok", Bool true)].

(** A field of [req.body] picked by destructuring. *)
Definition field (b : gmap string val) (k : string) : val :=
  default Undef (b !! k).

(** [try { ... } catch (e) { logger.error(ctx + e.message);
    res.status(500).json({ error: e.message }) }] *)
Definition try_500 (ctx : string) (handler : M Response) : M Response :=
  λ w, match handler w with
       | (w', Throw e) => (with_log ((ctx +:+ e) :: log w') w', Ret (json 500 (error e)))
       | r => r
       end.

(** ** The file system *)

(** [fs.existsSync(path)] *)
Definition existsSync (f : file) : bool :=
  match f with
  | Missing => false
  | _ => true
  end.

(** [yaml.load(fs.readFileSync(path, "utf8"))] *)
Definition parse_file (f : file) : result val :=
  match f with
  | Missing => Throw "ENOENT: no such file or directory"
  | Unreadable => Throw "EACCES: permission denied"
  | Malformed => Throw "cannot parse the document"
  | Doc v => Ret v
  end.

(** [JSON.parse(t || "{}")] for [t = fs.readFileSync(path, "utf8")]: the
    empty text is read as the empty object. *)
Definition parse_json_file (f : file) : result val :=
  match f with
  | Doc Undef => Ret (Obj ∅)
  | _ => parse_file f
  end.

Definition users_file : M file := λ w, (w, Ret (users_yml w)).

Definition invites_file : M file := λ w, (w, Ret (invites_json w)).

(** [fs.writeFileSync(USERS_FILE, yaml.dump(doc), "utf8")] *)
Definition write_users_file (doc : val) : M unit :=
  λ w, if users_yml_writable w
       then (with_users_yml (Doc doc) w, Ret tt)
       else (w, Throw "EACCES: permission denied").

(** [fs.writeFileSync(INVITES_FILE, JSON.stringify(doc, null, 2), "utf8")] *)
Definition write_invites_file (doc : val) : M unit :=
  λ w, if invites_json_writable w
       then (with_invites_json (Doc doc) w, Ret tt)
       else (w, Throw "EACCES: permission denied").

Section Service.

Variable E : Env.

(** [Date.now()] *)
Definition date_now : M Z :=
  λ w, (with_clock_reads (S (clock_reads w)) w, Ret (clock E (clock_reads w))).

(** [uuidv4()] *)
Definition uuidv4 : M string :=
  λ w, (with_uuid_calls (S (uuid_calls w)) w, Ret (uuid E (uuid_calls w))).

(** *** Credential store adapter *)

Definition loadUsers : M val :=
  f <- users_file ;;
  (if negb (existsSync f)
   then logger "users file missing, creating empty skeleton" ;;;
        write_users_file (obj_lit [("users", Obj ∅)])
   else ret tt) ;;;
  f <- users_file ;;
  loaded <- lift (parse_file f) ;;
  let parsed := js_or loaded (Obj ∅) in
  users <- lift (get parsed "users") ;;
  ret (js_or users (Obj ∅)).

Definition saveUsers (usersObj : val) : M unit :=
  write_users_file (obj_lit [("users", usersObj)]) ;;;
  logger "users.yml saved".

(** *** Invite store adapter *)

Definition loadInvites : M val :=
  f <- invites_file ;;
  if negb (existsSync f) then ret (Obj ∅) else
  match parse_json_file f with
  | Throw e => logger "Failed to parse invites file, resetting" ;;; ret (Obj ∅)
  | parsed => lift parsed
  end.

Definition saveInvites (invites : val) : M unit :=
  write_invites_file invites.

(** *** Hash provider *)

Definition generateHash (password : val) : M string :=
  match authelia_cli E password with
  | Some out =>
      let hash := trim out in
      if includes "Digest:" hash
      then ret (trim (split_second "Digest:" hash))
      else ret hash
  | None => throw "Password hash generation failed"
  end.

(** *** Access guard *)

Definition candidates : list string :=
  [ "x-forwarded-groups"; "remote-groups"; "x-authentik-groups";
    "x-authelia-groups"; "x-forwarded-user"; "x-remote-groups" ].

(** The loop of [getGroupsFromHeaders] over a list of header names. *)
Fixpoint first_header (req : Request) (names : list string) : option string :=
  match names with
  | [] => None
  | h :: rest =>
      match headers req !! h with
      | Some value => if nonempty value then Some value else first_header req rest
      | None => first_header req rest
      end
  end.

Definition getGroupsFromHeaders (req : Request) : option string :=
  first_header req candidates.

Inductive verdict : Type :=
| Authorized                (* [next()] *)
| Denied (reason : string). (* 403 with this error *)

Definition no_groups : string := "forbidden (no groups)".
Definition not_admin : string := "forbidden (not admin)".

Definition checkAdmin (req : Request) : verdict :=
  match getGroupsFromHeaders req with
  | None => Denied no_groups
  | Some groupsRaw =>
      let groups := parse_groups groupsRaw in
      if list_includes "admins" groups then Authorized else Denied not_admin
  end.

(** A route registered with [checkAdmin] before its handler. *)
Definition admin_only (req : Request) (handler : M Response) : M Response :=
  match checkAdmin req with
  | Authorized => handler
  | Denied reason => logger ("Admin check failed: " +:+ reason) ;;; ret (json 403 (error reason))
  end.

(** *** User management *)

(** [Array.isArray(groups) ? groups : (groups ? [groups] : ["users"])] *)
Definition groups_or_default (groups : val) : val :=
  if isArray groups then groups
  else if truthy groups then Arr [groups] else Arr [Str "users"].

(** [{ ...v }] followed by [if (copy.password) delete copy.password]. *)
Definition spreadable (v : val) : bool :=
  match v with
  | Str _ | Arr _ | Fun _ => false
  | _ => true
  end.

Definition spread (v : val) : gmap string val :=
  match v with
  | Obj r => r
  | _ => ∅
  end.

Definition without_password (v : val) : val :=
  let copy := spread v in
  if truthy (default Undef (copy !! "password"))
  then Obj (delete "password" copy)
  else Obj copy.

(** The loop over [Object.entries(users)] that fills [safe]. *)
Definition safe_users (users : val) : result val :=
  match users with
  | Obj m =>
      if bool_decide (m !! "__proto__" = None) && forallb spreadable (map snd (map_to_list m))
      then Ret (Obj (without_password <$> m))
      else OutOfModel
  | _ => OutOfModel
  end.

(** GET /api/users *)
Definition get_api_users (req : Request) : M Response :=
  try_500 "GET /api/users error: "
    (users <- loadUsers ;;
     safe <- lift (safe_users users) ;;
     ret (json 200 safe)).

(** POST /api/users *)
Definition post_api_users (req : Request) : M Response :=
  try_500 "POST /api/users error: "
    (let username := field (body req) "username" in
     let email := field (body req) "email" in
     let groups := field (body req) "groups" in
     let password := field (body req) "password" in
     let displayname := field (body req) "displayname" in
     if negb (truthy username) then ret (json 400 (error "username fehlt")) else
     if negb (truthy password) then ret (json 400 (error "password fehlt")) else
     users <- loadUsers ;;
     key <- lift (to_key username) ;;
     existing <- lift (get users key) ;;
     if truthy existing then ret (json 400 (error "User exists")) else
     hash <- generateHash password ;;
     users' <- lift (set users key
                 (obj_lit [ ("displayname", js_or displayname username);
                            ("email", email);
                            ("password", Str hash);
                            ("groups", groups_or_default groups) ])) ;;
     saveUsers users' ;;;
     logger "User created by admin" ;;;
     ret (json 200 ok)).

(** [if (v !== undefined) users[username].f = v'] *)
Definition assign_if_defined (users : val) (username f : string) (v v' : val) : M val :=
  if defined v then lift (set_in users username f v') else ret users.

(** PUT /api/users/:username *)
Definition put_api_users (req : Request) : M Response :=
  try_500 "PUT /api/users/:username error: "
    (let username := param_username req in
     users <- loadUsers ;;
     existing <- lift (get users username) ;;
     if negb (truthy existing) then ret (json 404 (error "User not found")) else
     let email := field (body req) "email" in
     let groups := field (body req) "groups" in
     let displayname := field (body req) "displayname" in
     users1 <- assign_if_defined users username "email" email email ;;
     users2 <- assign_if_defined users1 username "displayname" displayname displayname ;;
     users3 <- assign_if_defined users2 username "groups" groups
                 (if isArray groups then groups else Arr [groups]) ;;
     saveUsers users3 ;;;
     logger "User updated" ;;;
     ret (json 200 ok)).

(** POST /api/users/:username/password *)
Definition post_api_users_password (req : Request) : M Response :=
  try_500 "POST /api/users/:username/password error: "
    (let username := param_username req in
     let password := field (body req) "password" in
     if negb (truthy password) then ret (json 400 (error "password fehlt")) else
     users <- loadUsers ;;
     existing <- lift (get users username) ;;
     if negb (truthy existing) then ret (json 404 (error "User not found")) else
     hash <- generateHash password ;;
     users' <- lift (set_in users username "password" (Str hash)) ;;
     saveUsers users' ;;;
     logger "Password changed" ;;;
     ret (json 200 ok)).

(** DELETE /api/users/:username *)
Definition delete_api_users (req : Request) : M Response :=
  try_500 "DELETE /api/users/:username error: "
    (users <- loadUsers ;;
     let username := param_username req in
     existing <- lift (get users username) ;;
     if negb (truthy existing) then ret (json 404 (error "User not found")) else
     users' <- lift (del users username) ;;
     saveUsers users' ;;;
     logger "User deleted" ;;;
     ret (json 200 ok)).

(** *** Invitation workflow *)

(** [transporter.sendMail(...).then(...).catch(...)], or the log line of
    the branch without a transporter. *)
Definition send_invite_mail (email : val) (link : string) : M unit :=
  match smtp E with
  | Some deliver =>
      let mail := mkMail email link in
      λ w, (with_log ((if deliver mail then "Invite mail sent"
                       else "Failed to send invite mail") :: log w)
              (with_outbox (mail :: outbox w) w), Ret tt)
  | None => logger ("Invite created (no SMTP configured). Link: " +:+ link)
  end.

(** POST /api/invite *)
Definition post_api_invite (req : Request) : M Response :=
  try_500 "POST /api/invite error: "
    (let email := field (body req) "email" in
     let groups := field (body req) "groups" in
     let displayname := field (body req) "displayname" in
     let expiresMinutes :=
       if defined (field (body req) "expiresMinutes")
       then field (body req) "expiresMinutes" else Num 60 in
     if negb (truthy email) then ret (json 400 (error "email fehlt")) else
     token <- uuidv4 ;;
     invites <- loadInvites ;;
     createdAt <- date_now ;;
     now <- date_now ;;
     minutes <- lift (to_number expiresMinutes) ;;
     seconds <- lift (number (minutes * 60)) ;;
     ttl <- lift (number (seconds * 1000)) ;;
     expiresAt <- lift (number (now + ttl)) ;;
     invites' <- lift (set invites token
                   (obj_lit [ ("email", email);
                              ("groups", groups_or_default groups);
                              ("displayname", js_or displayname (Str ""));
                              ("createdAt", Num createdAt);
                              ("expiresAt", Num expiresAt) ])) ;;
     saveInvites invites' ;;;
     let link := base_url E +:+ "/admin/invite/accept.html?token=" +:+ token in
     send_invite_mail email link ;;;
     ret (json 200 (obj_lit [ ("ok", Bool true); ("token", Str token); ("link", Str link) ]))).

(** POST /api/invite/accept *)
Definition post_api_invite_accept (req : Request) : M Response :=
  try_500 "POST /api/invite/accept error: "
    (let token := field (body req) "token" in
     let username := field (body req) "username" in
     let password := field (body req) "password" in
     if negb (truthy token) || negb (truthy username) || negb (truthy password)
     then ret (json 400 (error "token/username/password required")) else
     invites <- loadInvites ;;
     tkey <- lift (to_key token) ;;
     invite <- lift (get invites tkey) ;;
     if negb (truthy invite) then ret (json 400 (error "invalid token")) else
     now <- date_now ;;
     expiresAt <- lift (get invite "expiresAt") ;;
     expired <- lift (js_gt now expiresAt) ;;
     if (expired : bool) then
       invites' <- lift (del invites tkey) ;;
       saveInvites invites' ;;;
       ret (json 400 (error "token expired"))
     else
     users <- loadUsers ;;
     ukey <- lift (to_key username) ;;
     existing <- lift (get users ukey) ;;
     if truthy existing then ret (json 400 (error "username exists")) else
     hash <- generateHash password ;;
     displayname <- lift (get invite "displayname") ;;
     email <- lift (get invite "email") ;;
     groups <- lift (get invite "groups") ;;
     users' <- lift (set users ukey
                 (obj_lit [ ("displayname", js_or displayname username);
                            ("email", email);
                            ("password", Str hash);
                            ("groups", groups) ])) ;;
     saveUsers users' ;;;
     invites' <- lift (del invites tkey) ;;
     saveInvites invites' ;;;
     logger "Invite accepted -> created user" ;;;
     ret (json 200 ok)).

(** *** The routes of the application *)

Inductive Route : Type :=
| GET_api_users
| POST_api_users
| PUT_api_users
| POST_api_users_password
| DELETE_api_users
| POST_api_invite
| POST_api_invite_accept
| GET_health.

Definition app (r : Route) (req : Request) : M Response :=
  match r with
  | GET_api_users => admin_only req (get_api_users req)
  | POST_api_users => admin_only req (post_api_users req)
  | PUT_api_users => admin_only req (put_api_users req)
  | POST_api_users_password => admin_only req (post_api_users_password req)
  | DELETE_api_users => admin_only req (delete_api_users req)
  | POST_api_invite => admin_only req (post_api_invite req)
  | POST_api_invite_accept => post_api_invite_accept req
  | GET_health => ret (json 200 ok)
  end.

End Service.

(** ** What a world stores *)

(** The users file holds a document whose [users] entry is the mapping [m]. *)
Definition holds_users (w : World) (m : gmap string val) : Prop :=
  ∃ top, users_yml w = Doc (Obj top) ∧ top !! "users" = Some (Obj m).

(** The invites file holds the mapping [m]. *)
Definition holds_invites (w : World) (m : gmap string val) : Prop :=
  invites_json w = Doc (Obj m).

(** The record stored for [username], if the users file holds one. *)
Definition stored_user (w : World) (username : string) : option val :=
  match users_yml w with
  | Doc (Obj top) =>
      match top !! "users" with
      | Some (Obj m) => m !! username
      | _ => None
      end
  | _ => None
  end.

(** The invitation stored for [token], if the invites file holds one. *)
Definition stored_invite (w : World) (token : string) : option val :=
  match invites_json w with
  | Doc (Obj m) => m !! token
  | _ => None
  end.

(** A field of a stored record. *)
Definition prop (record : val) (f : string) : option val :=
  match record with
  | Obj r => r !! f
  | _ => None
  end.

(** Reading a property of an object literal. *)
Fixpoint literal_lookup (fields : list (string * val)) (k : string) : option val :=
  match fields with
  | [] => None
  | (k', v) :: rest =>
      if String.eqb k' k && defined v then Some v else literal_lookup rest k
  end.

(** What [loadInvites] returns for an invites file: the stored mapping, or
    the empty one when the file is absent, unreadable or malformed. *)
Definition loaded_invites (f : file) : option (gmap string val) :=
  match f with
  | Missing | Unreadable | Malformed => Some ∅
  | Doc Undef => Some ∅
  | Doc (Obj im) => Some im
  | Doc _ => None
  end.

(** What [generateHash] returns when the command succeeds. *)
Definition hash_of (E : Env) (p : val) : option string :=
  match authelia_cli E p with
  | Some out =>
      let hash := trim out in
      Some (if includes "Digest:" hash then trim (split_second "Digest:" hash) else hash)
  | None => None
  end.

(** A store the listing can copy: no own [__proto__] key, and no record
    that is a string or an array. *)
Definition listable (m : gmap string val) : Prop :=
  m !! "__proto__" = None ∧ map_Forall (λ _ v, spreadable v = true) m.

(** A non-empty array. *)
Definition nonempty_array (v : val) : Prop := ∃ x l, v = Arr (x :: l).

(** ** The records the handlers write *)

(** The record [POST /api/users] writes. *)
Definition new_user_record (username displayname email groups : val) (hash : string) : val :=
  obj_lit [ ("displayname", js_or displayname username);
            ("email", email);
            ("password", Str hash);
            ("groups", groups_or_default groups) ].

(** The record [PUT /api/users/:username] leaves for a stored record [r]. *)
Definition updated_record (b : gmap string val) (r : gmap string val) : gmap string val :=
  let r1 := if defined (field b "email") then <["email" := field b "email"]> r else r in
  let r2 := if defined (field b "displayname")
            then <["displayname" := field b "displayname"]> r1 else r1 in
  if defined (field b "groups")
  then <["groups" := if isArray (field b "groups") then field b "groups"
                     else Arr [field b "groups"]]> r2
  else r2.

(** The record [POST /api/invite/accept] writes for an invitation [inv]. *)
Definition accepted_record (inv : gmap string val) (username : string) (hash : string) : val :=
  obj_lit [ ("displayname", js_or (default Undef (inv !! "displayname")) (Str username));
            ("email", default Undef (inv !! "email"));
            ("password", Str hash);
            ("groups", default Undef (inv !! "groups")) ].

(** [expiresMinutes = 60] in the destructuring of the body. *)
Definition requested_minutes (b : gmap string val) : val :=
  if defined (field b "expiresMinutes") then field b "expiresMinutes" else Num 60.

(** The invitation [POST /api/invite] writes. *)
Definition invitation_record (b : gmap string val) (createdAt expiresAt : Z) : val :=
  obj_lit [ ("email", field b "email");
            ("groups", groups_or_default (field b "groups"));
            ("displayname", js_or (field b "displayname") (Str ""));
            ("createdAt", Num createdAt);
            ("expiresAt", Num expiresAt) ].

(** The answer of [POST /api/invite]. *)
Definition invite_response (E : Env) (token : string) : Response :=
  json 200 (obj_lit [ ("ok", Bool true); ("token", Str token);
                      ("link", Str (base_url E +:+ "/admin/invite/accept.html?token=" +:+ token)) ]).

(** ** Group names of a header value, stated without the code's helpers *)

Definition first_is_sep (s : string) : bool :=
  match s with
  | String c _ => is_sep c
  | EmptyString => false
  end.

Fixpoint last_is_sep (s : string) : bool :=
  match s with
  | EmptyString => false
  | String c EmptyString => is_sep c
  | String _ t => last_is_sep t
  end.

Fixpoint sep_free (s : string) : bool :=
  match s with
  | EmptyString => true
  | String c t => negb (is_sep c) && sep_free t
  end.

(** [g] is a group name of [raw]: a non-empty stretch of [raw] without a
    comma or white space that cannot be extended on either side. *)
Definition group_in (g raw : string) : Prop :=
  g ≠ "" ∧ sep_free g = true ∧
  ∃ pre post, raw = pre +:+ g +:+ post ∧
    (pre = "" ∨ last_is_sep pre = true) ∧
    (post = "" ∨ first_is_sep post = true).

(** The candidate header [h] has no value, or an empty one. *)
Definition silent (req : Request) (h : string) : Prop :=
  headers req !! h = None ∨ headers req !! h = Some "".

(** [v] is the non-empty value of the first candidate header that has one. *)
Definition resolves_to (req : Request) (v : string) : Prop :=
  ∃ before h after,
    candidates = (before ++ h :: after)%list ∧
    Forall (silent req) before ∧
    headers req !! h = Some v ∧ v ≠ "".

(** ** Claims as the spec words them *)

(** The document the spec expects in the users file: a mapping whose
    [users] entry is a mapping keyed by username. *)
Definition expected_document (f : file) : Prop :=
  ∃ top m, f = Doc (Obj top) ∧ top !! "users" = Some (Obj m).

(** The users-store claim as the spec words it: a file that is there but
    is not the expected document must make [load] fail. *)
Definition load_rejects_corrupt_store : Prop :=
  ∀ w : World,
    users_yml w ≠ Missing → ¬ expected_document (users_yml w) →
    ∃ w' e, loadUsers w = (w', Throw e).

(** The Access Guard as the spec words it: the first candidate header that
    is present decides. *)
Fixpoint first_present (req : Request) (names : list string) : option string :=
  match names with
  | [] => None
  | h :: rest =>
      match headers req !! h with
      | Some value => Some value
      | None => first_present req rest
      end
  end.

Definition access_guard_spec (req : Request) : verdict :=
  match first_present req candidates with
  | None => Denied no_groups
  | Some raw =>
      if list_includes "admins" (parse_groups raw) then Authorized else Denied not_admin
  end.

(** The invitation claim as the spec words it: the stored expiry is the
    stored creation time plus the requested minutes. *)
Definition expiry_is_creation_plus_ttl (invitation : val) (minutes : Z) : Prop :=
  ∃ createdAt expiresAt,
    prop invitation "createdAt" = Some (Num createdAt) ∧
    prop invitation "expiresAt" = Some (Num expiresAt) ∧
    expiresAt = createdAt + minutes * 60 * 1000.

(** ** Invariants of the world across requests *)

(** [c] keeps the invariant [I] of the world on every way out (a value, an
    exception, a step outside the model), and the values it returns
    satisfy [Q]. *)
Definition keeps {A} (I : World → Prop) (c : M A) (Q : A → Prop) : Prop :=
  ∀ w w' r, I w → c w = (w', r) → I w' ∧ ∀ a, r = Ret a → Q a.

(** The token [t] is not in the invites file, and [uuidv4] will not make
    it again. *)
Definition token_spent (E : Env) (t : string) (w : World) : Prop :=
  (∃ im, invites_json w = Doc (Obj im) ∧ im !! t = None) ∧
  (∀ n, (uuid_calls w ≤ n)%nat → uuid E n ≠ t).

(** The world after the service has handled the requests in turn. *)
Fixpoint serve (E : Env) (requests : list (Route * Request)) (w : World) : World :=
  match requests with
  | [] => w
  | (r, req) :: rest => serve E rest (fst (app E r req w))
  end.

(** ** Sample surroundings, worlds and requests, used to run the model *)

(** The first token [sample_env] hands out. *)
Definition sample_token : string := "3b241101-e2bb-4255-8caf-4136c566a962".

Definition sample_env : Env :=
  mkEnv (λ n, 1700000000000 + Z.of_nat n)
        (λ n, match n with
              | O => sample_token
              | S _ => "7c9e6679-7425-40de-944b-e07fc1f90ae7"
              end)
        (λ p, Some "Digest: $argon2id$v=19$m=65536,t=3,p=4$c2FsdA$aGFzaA")
        None
        "https://auth.example.com".

Definition world_with (users invites : file) : World :=
  mkWorld users true invites true 0 0 [] [].

Definition request_with (hs : list (string * string)) (username : string)
    (fields : list (string * val)) : Request :=
  mkRequest (list_to_map hs) username (list_to_map fields).

(** [POST /api/users] with a username and a password only. *)
Definition create_request (username password : string) : Request :=
  request_with [] "" [("username", Str username); ("password", Str password)].

(** [PUT /api/users/:username] with the given body. *)
Definition update_request (username : string) (fields : list (string * val)) : Request :=
  request_with [] username fields.

(** [POST /api/invite/accept] with the given token, username and password. *)
Definition accept_request (token username password : string) : Request :=
  request_with [] ""
    [("token", Str token); ("username", Str username); ("password", Str password)].

(** [POST /api/invite] for the given address, nothing else given. *)
Definition invite_request (email : string) : Request :=
  request_with [] "" [("email", Str email)].

(** A users file with one administrator. *)
Definition alice_record : val :=
  obj_lit [ ("displayname", Str "Alice"); ("email", Str "alice@example.com");
            ("password", Str "$argon2id$v=19$m=65536,t=3,p=4$c2FsdA$b2xk");
            ("groups", Arr [Str "admins"]) ].

Definition world_alice : World :=
  world_with (Doc (obj_lit [("users", obj_lit [("alice", alice_record)])])) Missing.

(** A users file with a record whose password is the empty string. *)
Definition world_bob_empty_password : World :=
  world_with
    (Doc (obj_lit [("users", obj_lit [("bob",
       obj_lit [ ("displayname", Str "Bob"); ("email", Str "bob@example.com");
                 ("password", Str ""); ("groups", Arr [Str "users"]) ])])]))
    Missing.

(** A users file whose top-level key is misspelt: [user:] for [users:]. *)
Definition world_misspelt_key : World :=
  world_with
    (Doc (obj_lit [("user", obj_lit [("admin", obj_lit [("password", Str "$argon2id$x")])])]))
    Missing.

(** A request of a user without groups (the proxy forwards an empty
    [Remote-Groups]) that also carries an alias header. *)
Definition request_empty_groups_and_alias : Request :=
  request_with [("remote-groups", ""); ("x-authentik-groups", "admins")] "" [].


(** The world after [POST /api/invite] for bob@example.com, with no
    groups, display name or expiry given, in [world_alice]. *)
Definition world_bob_invited : World :=
  fst (post_api_invite sample_env
         (request_with [] "" [("email", Str "bob@example.com")]) world_alice).

(** The world after bob has accepted the invitation of [world_bob_invited]. *)
Definition world_bob_accepted : World :=
  fst (post_api_invite_accept sample_env (accept_request sample_token "bob" "secret1")
         world_bob_invited).

(** The world after an [accept] in [world_alice] that names the token
    [constructor], for which no invitation exists, and the world after a
    second [accept] with the same token. *)
Definition world_mallory : World :=
  fst (post_api_invite_accept sample_env (accept_request "constructor" "mallory" "secret1")
         world_alice).

Definition world_eve : World :=
  fst (post_api_invite_accept sample_env (accept_request "constructor" "eve" "secret2")
         world_mallory).

(** Requests of an administrator that follow bob's acceptance: an
    invitation for carol, then the deletion of alice. *)
Definition later_requests : list (Route * Request) :=
  [ (POST_api_invite,
     request_with [("remote-groups", "admins")] "" [("email", Str "carol@example.com")]);
    (DELETE_api_users, request_with [("remote-groups", "admins")] "alice" []) ].

(** ** Reduction: object literals and property access stay folded in proofs *)

Arguments obj_fields : simpl never.
Arguments obj_lit : simpl never.
Arguments error : simpl never.
Arguments ok : simpl never.
Arguments get : simpl never.
Arguments set : simpl never.
Arguments del : simpl never.
Arguments set_in : simpl never.
Arguments truthy : simpl nomatch.

(** ** Helpers of the further properties *)

(** [groups.join(",")], as [checkAdmin] writes the groups to the log. *)
Definition join_comma (groups : list string) : string := String.concat "," groups.

(** A string that does not start with white space. *)
Definition starts_clean (s : string) : bool :=
  match s with
  | EmptyString => true
  | String c _ => negb (is_space c)
  end.

(** The link [POST /api/invite] makes for a token. *)
Definition invite_link (E : Env) (token : string) : string :=
  base_url E +:+ "/admin/invite/accept.html?token=" +:+ token.

(** The sample surroundings with a mail transport. *)
Definition sample_env_smtp (deliver : Mail → bool) : Env :=
  mkEnv (clock sample_env) (uuid sample_env) (authelia_cli sample_env)
        (Some deliver) (base_url sample_env).


(** The world [w] with an invites file that cannot be written. *)
Definition invites_read_only (w : World) : World :=
  mkWorld (users_yml w) (users_yml_writable w) (invites_json w) false
          (clock_reads w) (uuid_calls w) (outbox w) (log w).

(** An invites file that holds no document: absent, unreadable,
    unparsable or empty. *)
Definition no_invites (f : file) : Prop :=
  f = Missing ∨ f = Unreadable ∨ f = Malformed ∨ f = Doc Undef.

(** * Properties *)

(** ** The string helpers on examples *)

Example split_sep_ex1 : split_sep "admins, users" = ["admins"; "users"].
Proof. reflexivity. Qed.
Example split_sep_ex2 : split_sep ",a,,b," = [""; "a"; "b"; ""].
Proof. reflexivity. Qed.
Example parse_groups_ex : parse_groups " dev,admins  ops," = ["dev"; "admins"; "ops"].
Proof. reflexivity. Qed.
Example split_second_ex :
  trim (split_second "Digest:" "Digest: $argon2id$v=19$abc") = "$argon2id$v=19$abc".
Proof. reflexivity. Qed.

(** ** Credential store adapter *)

(** [loadUsers] by the state of the file. *)
Lemma loadUsers_run (w : World) :
  loadUsers w =
    match users_yml w with
    | Missing =>
        if users_yml_writable w
        then (with_users_yml (Doc (obj_lit [("users", Obj ∅)]))
                (with_log ("users file missing, creating empty skeleton" :: log w) w),
              Ret (Obj ∅))
        else (with_log ("users file missing, creating empty skeleton" :: log w) w,
              Throw "EACCES: permission denied")
    | Unreadable => (w, Throw "EACCES: permission denied")
    | Malformed => (w, Throw "cannot parse the document")
    | Doc v =>
        (w, match get (js_or v (Obj ∅)) "users" with
            | Ret users => Ret (js_or users (Obj ∅))
            | Throw e => Throw e
            | OutOfModel => OutOfModel
            end)
    end.
Proof.
  unfold loadUsers, bind, users_file, lift, ret, logger, write_users_file.
  destruct (users_yml w) as [| | |v] eqn:Hf; cbn; rewrite ?Hf; cbn; try reflexivity.
  - destruct (users_yml_writable w); reflexivity.
  - destruct (get (js_or v (Obj ∅)) "users"); reflexivity.
Qed.

Lemma saveUsers_run (users : val) (w : World) :
  saveUsers users w =
    if users_yml_writable w
    then (with_users_yml (Doc (obj_lit [("users", users)]))
            (with_log ("users.yml saved" :: log w) w), Ret tt)
    else (w, Throw "EACCES: permission denied").
Proof.
  unfold saveUsers, bind, write_users_file, logger.
  destruct (users_yml_writable w); reflexivity.
Qed.

Lemma loadInvites_run (w : World) :
  loadInvites w =
    match invites_json w with
    | Missing => (w, Ret (Obj ∅))
    | Unreadable | Malformed =>
        (with_log ("Failed to parse invites file, resetting" :: log w) w, Ret (Obj ∅))
    | Doc Undef => (w, Ret (Obj ∅))
    | Doc t => (w, Ret t)
    end.
Proof.
  unfold loadInvites, bind, invites_file, lift, ret, logger.
  destruct (invites_json w) as [| | |[]]; reflexivity.
Qed.

Lemma saveInvites_run (invites : val) (w : World) :
  saveInvites invites w =
    if invites_json_writable w
    then (with_invites_json (Doc invites) w, Ret tt)
    else (w, Throw "EACCES: permission denied").
Proof. reflexivity. Qed.

Lemma loadUsers_holds (w : World) (m : gmap string val) :
  holds_users w m → loadUsers w = (w, Ret (Obj m)).
Proof.
  intros (top & Hf & Hu). rewrite loadUsers_run, Hf.
  unfold get. simpl. rewrite Hu. reflexivity.
Qed.

Lemma loadUsers_missing (w : World) :
  users_yml w = Missing → users_yml_writable w = true →
  loadUsers w =
    (with_users_yml (Doc (obj_lit [("users", Obj ∅)]))
       (with_log ("users file missing, creating empty skeleton" :: log w) w),
     Ret (Obj ∅)).
Proof.
  intros Hf Hw. now rewrite loadUsers_run, Hf, Hw.
Qed.

Lemma js_or_falsy (a b : val) : truthy a = false → js_or a b = b.
Proof. intros H. unfold js_or. now rewrite H. Qed.

Lemma js_or_truthy (a b : val) : truthy a = true → js_or a b = a.
Proof. intros H. unfold js_or. now rewrite H. Qed.

Lemma get_users_never_throws (v : val) (e : string) :
  get (js_or v (Obj ∅)) "users" ≠ Throw e.
Proof.
  unfold js_or, truthy, get. destruct v; simpl; try discriminate.
  - destruct b; simpl; discriminate.
  - destruct (negb (n =? 0)); simpl; discriminate.
  - destruct (negb (String.eqb s "")); simpl; discriminate.
  - destruct (m !! "users"); discriminate.
Qed.

Lemma saveUsers_writable (users : val) (w : World) :
  users_yml_writable w = true →
  saveUsers users w =
    (with_users_yml (Doc (obj_lit [("users", users)]))
       (with_log ("users.yml saved" :: log w) w), Ret tt).
Proof. intros H. now rewrite saveUsers_run, H. Qed.

Lemma holds_users_saved (users : gmap string val) (w : World) :
  holds_users (with_users_yml (Doc (obj_lit [("users", Obj users)])) w) users.
Proof. exists (obj_fields [("users", Obj users)]). split; reflexivity. Qed.

(** A failing load of the users file is answered with 500 by the routes
    that start with it. *)
Lemma load_failure_is_500 (w w1 : World) (e : string) (req : Request) :
  loadUsers w = (w1, Throw e) →
  (∃ w', get_api_users req w = (w', Ret (json 500 (error e)))) ∧
  (∃ w', put_api_users req w = (w', Ret (json 500 (error e)))) ∧
  (∃ w', delete_api_users req w = (w', Ret (json 500 (error e)))).
Proof.
  intros H.
  unfold get_api_users, put_api_users, delete_api_users, try_500, bind.
  rewrite H. repeat split; eexists; reflexivity.
Qed.

(** C1, as the spec states it, fails: a users file that is a mapping with a
    misspelt top-level key ([user:] for [users:]) is not the expected
    document, yet [loadUsers] returns the empty mapping and no error. *)
Lemma load_masks_store_without_users_entry :
  users_yml world_misspelt_key ≠ Missing ∧
  ¬ expected_document (users_yml world_misspelt_key) ∧
  loadUsers world_misspelt_key = (world_misspelt_key, Ret (Obj ∅)) ∧
  ¬ load_rejects_corrupt_store.
Proof.
  assert (Hne : users_yml world_misspelt_key ≠ Missing) by discriminate.
  assert (Hexp : ¬ expected_document (users_yml world_misspelt_key)).
  { intros (top & m & Hd & Hu). simpl in Hd. injection Hd as <-.
    vm_compute in Hu. discriminate. }
  assert (Hload : loadUsers world_misspelt_key = (world_misspelt_key, Ret (Obj ∅)))
    by (vm_compute; reflexivity).
  repeat split; try assumption.
  intros Hclaim. destruct (Hclaim _ Hne Hexp) as (w' & e & He).
  rewrite Hload in He. discriminate.
Qed.

(** C1 (amended). [loadUsers] fails exactly when the users file cannot be
    read, when the YAML parser throws, or when the file is absent and the
    skeleton cannot be written; such a failure is answered with 500.  An
    absent file is replaced by the skeleton and gives the empty mapping.
    A file that parses to nothing or to a falsy document, or to a mapping
    whose [users] entry is missing or falsy, gives the empty mapping
    without an error; a truthy [users] entry is returned as it is. *)
Theorem loadUsers_outcomes (w : World) :
  ((∃ w' e, loadUsers w = (w', Throw e)) ↔
     (users_yml w = Unreadable ∨ users_yml w = Malformed ∨
      (users_yml w = Missing ∧ users_yml_writable w = false)))
  ∧ (∀ w' e req, loadUsers w = (w', Throw e) →
       ∃ w'', get_api_users req w = (w'', Ret (json 500 (error e))))
  ∧ (users_yml w = Missing → users_yml_writable w = true →
       ∃ w', loadUsers w = (w', Ret (Obj ∅)) ∧
             users_yml w' = Doc (obj_lit [("users", Obj ∅)]))
  ∧ (∀ v, users_yml w = Doc v → truthy v = false → loadUsers w = (w, Ret (Obj ∅)))
  ∧ (∀ top, users_yml w = Doc (Obj top) →
       truthy (default Undef (top !! "users")) = false →
       loadUsers w = (w, Ret (Obj ∅)))
  ∧ (∀ top users, users_yml w = Doc (Obj top) → top !! "users" = Some users →
       truthy users = true → loadUsers w = (w, Ret users)).
Proof.
  split; [|split; [|split; [|split; [|split]]]].
  - split.
    + intros (w' & e & H). rewrite loadUsers_run in H.
      destruct (users_yml w) eqn:Hf.
      * destruct (users_yml_writable w) eqn:Hw; [discriminate H | tauto].
      * tauto.
      * tauto.
      * destruct (get (js_or v (Obj ∅)) "users") eqn:Hg; try discriminate H.
        exfalso. exact (get_users_never_throws _ _ Hg).
    + intros [H | [H | [H Hw]]]; rewrite loadUsers_run, H; [eauto | eauto |].
      rewrite Hw. eauto.
  - intros w' e req H. exact (proj1 (load_failure_is_500 _ _ _ req H)).
  - intros Hf Hw. rewrite (loadUsers_missing _ Hf Hw). eexists; split; reflexivity.
  - intros v Hf Hv. rewrite loadUsers_run, Hf.
    rewrite (js_or_falsy _ _ Hv). reflexivity.
  - intros top Hf Hu. rewrite loadUsers_run, Hf.
    unfold get. simpl.
    destruct (top !! "users") as [u|]; simpl in *.
    + now rewrite (js_or_falsy _ _ Hu).
    + reflexivity.
  - intros top users Hf Hu Ht. rewrite loadUsers_run, Hf.
    unfold get. simpl.
    rewrite Hu. now rewrite (js_or_truthy _ _ Ht).
Qed.

Lemma loadUsers_outcomes_witness :
  ∃ w' e, loadUsers (world_with Malformed Missing) = (w', Throw e).
Proof.
  apply (proj1 (loadUsers_outcomes (world_with Malformed Missing))).
  right; left; reflexivity.
Defined.

(** ** Splitting a header value into group names *)

Lemma app_String (c : ascii) (a b : string) : String c a +:+ b = String c (a +:+ b).
Proof. reflexivity. Qed.

Lemma app_empty (b : string) : "" +:+ b = b.
Proof. reflexivity. Qed.

Lemma split_sep_not_nil (s : string) : split_sep s ≠ [].
Proof.
  induction s as [|c t IH]; simpl; [discriminate|].
  destruct (is_sep c); [discriminate|].
  destruct (split_sep t); discriminate.
Qed.

Lemma split_sep_head_sep (c : ascii) (t : string) :
  is_sep c = true → ∃ ps, split_sep (String c t) = "" :: ps.
Proof. intros H. simpl. rewrite H. eauto. Qed.

(** Every piece is free of separators. *)
Lemma split_sep_pieces_sep_free (s : string) :
  Forall (λ p, sep_free p = true) (split_sep s).
Proof.
  induction s as [|c t IH]; simpl.
  - repeat constructor.
  - destruct (is_sep c) eqn:Hc.
    + constructor; [reflexivity|].
      destruct t as [|d t']; [exact IH|].
      destruct (is_sep d); [|exact IH].
      destruct (split_sep (String d t')); [constructor|].
      now inversion IH.
    + destruct (split_sep t) as [|p ps].
      * repeat constructor. simpl. now rewrite Hc.
      * inversion IH; subst. constructor; [|assumption].
        simpl. now rewrite Hc.
Qed.

(** The first piece is the longest separator-free prefix. *)
Lemma split_sep_head (s : string) :
  ∃ p ps rest, split_sep s = p :: ps ∧ s = p +:+ rest ∧
               (rest = "" ∨ first_is_sep rest = true).
Proof.
  induction s as [|c t (p & ps & rest & Hs & Ht & Hr)]; simpl.
  - exists "", [], "". auto.
  - destruct (is_sep c) eqn:Hc.
    + eexists "", _, (String c t). repeat split. right. exact Hc.
    + rewrite Hs. exists (String c p), ps, rest. repeat split; [|assumption].
      rewrite app_String. f_equal. exact Ht.
Qed.

Lemma in_tl {A} (x : A) (l : list A) : In x (tl l) → In x l.
Proof. destruct l; simpl; auto. Qed.

Lemma string_app_assoc (a b c : string) : (a +:+ b) +:+ c = a +:+ (b +:+ c).
Proof.
  induction a as [|x a IH]; [reflexivity|].
  rewrite !app_String. now rewrite IH.
Qed.

Lemma last_is_sep_cons (c : ascii) (pre : string) :
  last_is_sep pre = true → last_is_sep (String c pre) = true.
Proof. destruct pre; simpl; [discriminate|auto]. Qed.

(** A non-empty piece after the first one sits in the string behind a
    separator and in front of a separator or the end. *)
Lemma split_sep_tail (s g : string) :
  In g (tl (split_sep s)) → g ≠ "" →
  ∃ pre post, s = pre +:+ g +:+ post ∧ last_is_sep pre = true ∧
              (post = "" ∨ first_is_sep post = true).
Proof.
  induction s as [|c t IH]; simpl; [tauto|].
  intros Hin Hg.
  assert (Hcons : ∀ pre post, t = pre +:+ g +:+ post → last_is_sep pre = true →
            (post = "" ∨ first_is_sep post = true) →
            ∃ pre' post', String c t = pre' +:+ g +:+ post' ∧ last_is_sep pre' = true ∧
              (post' = "" ∨ first_is_sep post' = true)).
  { intros pre post -> Hpre Hpost. exists (String c pre), post.
    repeat split; [now apply last_is_sep_cons | assumption]. }
  destruct (is_sep c) eqn:Hc.
  - simpl in Hin.
    assert (Hcase : In g (tl (split_sep t)) ∨
                    (first_is_sep t = false ∧ In g (split_sep t))).
    { destruct t as [|d t']; [right; auto|].
      destruct (is_sep d) eqn:Hd; [left; exact Hin | right; simpl; auto]. }
    destruct Hcase as [Htl | [Hfirst Hall]].
    + destruct (IH Htl Hg) as (pre & post & Ht & Hpre & Hpost). eauto.
    + destruct (split_sep_head t) as (p & ps & rest & Hs & Ht & Hr).
      rewrite Hs in Hall. destruct Hall as [<- | Hps].
      * exists (String c ""), rest. repeat split; [|exact Hc|exact Hr].
        rewrite app_String. f_equal. exact Ht.
      * assert (Htl : In g (tl (split_sep t))) by now rewrite Hs.
        destruct (IH Htl Hg) as (pre & post & Ht' & Hpre & Hpost). eauto.
  - destruct (split_sep t) as [|p ps] eqn:Hs; simpl in Hin; [tauto|].
    destruct (IH Hin Hg) as (pre & post & Ht & Hpre & Hpost). eauto.
Qed.

(** A separator-free stretch in front of a separator or the end is the
    first piece. *)
Lemma split_sep_starts_with (g post : string) :
  sep_free g = true → (post = "" ∨ first_is_sep post = true) →
  ∃ ps, split_sep (g +:+ post) = g :: ps.
Proof.
  intros Hg Hpost. induction g as [|c g IH]; simpl in *.
  - destruct Hpost as [-> | Hfirst]; [eexists; reflexivity|].
    destruct post as [|d post']; [discriminate|]. simpl in Hfirst.
    now apply split_sep_head_sep.
  - apply andb_prop in Hg as [Hc Hg]. apply negb_true_iff in Hc. rewrite Hc.
    destruct (IH Hg) as (ps & ->). eauto.
Qed.

Lemma split_sep_at_sep (c : ascii) (t : string) :
  is_sep c = true →
  split_sep (String c t) = "" :: (if first_is_sep t then tl (split_sep t) else split_sep t).
Proof. intros H. simpl. rewrite H. destruct t; reflexivity. Qed.

Lemma split_sep_at_char (c : ascii) (t : string) :
  is_sep c = false →
  split_sep (String c t) =
    match split_sep t with
    | p :: ps => String c p :: ps
    | [] => [String c ""]
    end.
Proof. intros H. simpl. now rewrite H. Qed.

(** Pieces survive a prefix that ends with a separator. *)
Lemma split_sep_after_prefix (pre rest x : string) :
  last_is_sep pre = true → first_is_sep rest = false →
  In x (split_sep rest) → In x (tl (split_sep (pre +:+ rest))).
Proof.
  intros Hpre Hrest Hx. induction pre as [|c pre IH]; [discriminate|].
  rewrite app_String.
  destruct pre as [|d pre'].
  - simpl in Hpre. rewrite app_empty, (split_sep_at_sep _ _ Hpre), Hrest.
    exact Hx.
  - assert (Hpre' : last_is_sep (String d pre') = true) by exact Hpre.
    specialize (IH Hpre').
    destruct (is_sep c) eqn:Hc.
    + rewrite (split_sep_at_sep _ _ Hc). cbn [tail].
      destruct (first_is_sep (String d pre' +:+ rest)); [exact IH | now apply in_tl].
    + rewrite (split_sep_at_char _ _ Hc).
      destruct (split_sep (String d pre' +:+ rest)) as [|p ps]; [destruct IH | exact IH].
Qed.

Lemma sep_free_first (g : string) :
  sep_free g = true → first_is_sep g = false.
Proof.
  destruct g as [|c g]; simpl; [reflexivity|].
  intros H. apply andb_prop in H as [H _]. now apply negb_true_iff in H.
Qed.

Lemma first_is_sep_app (g post : string) :
  g ≠ "" → first_is_sep (g +:+ post) = first_is_sep g.
Proof. destruct g; [congruence | reflexivity]. Qed.

(** The non-empty pieces of [split_sep] are the group names. *)
Lemma split_sep_group_in (g raw : string) :
  In g (split_sep raw) ∧ g ≠ "" ↔ group_in g raw.
Proof.
  split.
  - intros [Hin Hg].
    assert (Hfree : sep_free g = true).
    { pose proof (split_sep_pieces_sep_free raw) as HF.
      rewrite Forall_forall in HF. apply HF. now apply list_elem_of_In. }
    destruct (split_sep_head raw) as (p & ps & rest & Hs & Hraw & Hr).
    rewrite Hs in Hin. destruct Hin as [<- | Hps].
    + repeat split; try assumption. exists "", rest. simpl. auto.
    + assert (Htl : In g (tl (split_sep raw))) by now rewrite Hs.
      destruct (split_sep_tail _ _ Htl Hg) as (pre & post & Heq & Hpre & Hpost).
      repeat split; try assumption. exists pre, post. auto.
  - intros (Hg & Hfree & pre & post & -> & Hpre & Hpost).
    split; [|assumption].
    destruct (split_sep_starts_with g post Hfree Hpost) as (ps & Hs).
    destruct Hpre as [-> | Hpre].
    + rewrite app_empty, Hs. now left.
    + apply in_tl. apply split_sep_after_prefix; try assumption.
      * rewrite first_is_sep_app by assumption. now apply sep_free_first.
      * rewrite Hs. now left.
Qed.

Lemma is_sep_false_space (c : ascii) : is_sep c = false → is_space c = false.
Proof. unfold is_sep. intros H. now apply orb_false_elim in H as [_ H]. Qed.

Lemma trim_start_sep_free (s : string) : sep_free s = true → trim_start s = s.
Proof.
  destruct s as [|c s]; simpl; [reflexivity|].
  intros H. apply andb_prop in H as [H _]. apply negb_true_iff in H.
  now rewrite (is_sep_false_space _ H).
Qed.

Lemma sep_free_forallb (s : string) :
  sep_free s = forallb (λ c, negb (is_sep c)) (list_ascii_of_string s).
Proof. induction s as [|c s IH]; simpl; [reflexivity|]. now rewrite IH. Qed.

Lemma sep_free_rev (s : string) : sep_free s = true → sep_free (string_rev s) = true.
Proof.
  unfold string_rev. rewrite !sep_free_forallb, list_ascii_of_string_of_list_ascii.
  rewrite !forallb_forall. intros H c Hc. apply H. now apply in_rev.
Qed.

Lemma string_rev_involutive (s : string) : string_rev (string_rev s) = s.
Proof.
  unfold string_rev.
  now rewrite list_ascii_of_string_of_list_ascii, rev_involutive,
    string_of_list_ascii_of_string.
Qed.

(** A piece without separators has no white space to trim. *)
Lemma trim_sep_free (s : string) : sep_free s = true → trim s = s.
Proof.
  intros H. unfold trim.
  rewrite (trim_start_sep_free _ H).
  rewrite (trim_start_sep_free _ (sep_free_rev _ H)).
  apply string_rev_involutive.
Qed.

Lemma map_trim_split_sep (raw : string) : map trim (split_sep raw) = split_sep raw.
Proof.
  pose proof (split_sep_pieces_sep_free raw) as HF.
  induction HF as [|p ps Hp _ IH]; simpl; [reflexivity|].
  now rewrite (trim_sep_free _ Hp), IH.
Qed.

Lemma nonempty_true (s : string) : nonempty s = true ↔ s ≠ "".
Proof.
  unfold nonempty. rewrite negb_true_iff. split.
  - intros H ->. discriminate.
  - intros H. destruct (String.eqb s "") eqn:E; [|reflexivity].
    apply String.eqb_eq in E. contradiction.
Qed.

(** [parse_groups] yields exactly the group names of the header value. *)
Lemma parse_groups_group_in (g raw : string) :
  In g (parse_groups raw) ↔ group_in g raw.
Proof.
  unfold parse_groups. rewrite map_trim_split_sep.
  rewrite <- split_sep_group_in, <- !list_elem_of_In, list_elem_of_filter.
  rewrite nonempty_true. tauto.
Qed.

Lemma list_includes_In (name : string) (groups : list string) :
  list_includes name groups = true ↔ In name groups.
Proof.
  unfold list_includes. rewrite existsb_exists. split.
  - intros (x & Hx & E). apply String.eqb_eq in E. now subst.
  - intros H. exists name. split; [assumption | apply String.eqb_refl].
Qed.

(** ** Access guard *)

Lemma nonempty_false (s : string) : nonempty s = false ↔ s = "".
Proof.
  unfold nonempty. rewrite negb_false_iff. apply String.eqb_eq.
Qed.

Lemma silent_lookup (req : Request) (h : string) :
  silent req h ↔
  match headers req !! h with
  | Some v => nonempty v = false
  | None => True
  end.
Proof.
  unfold silent. destruct (headers req !! h) as [v|].
  - rewrite nonempty_false. split.
    + intros [H | H]; [discriminate | congruence].
    + intros ->. now right.
  - tauto.
Qed.

Lemma first_header_None (req : Request) (names : list string) :
  first_header req names = None ↔ Forall (silent req) names.
Proof.
  induction names as [|h rest IH]; simpl.
  - split; [constructor | reflexivity].
  - rewrite Forall_cons, silent_lookup.
    destruct (headers req !! h) as [v|].
    + destruct (nonempty v).
      * split; [discriminate|]. intros [H _]. discriminate.
      * rewrite IH. tauto.
    + rewrite IH. tauto.
Qed.

Lemma first_header_Some (req : Request) (names : list string) (v : string) :
  first_header req names = Some v ↔
  ∃ before h after, names = (before ++ h :: after)%list ∧ Forall (silent req) before ∧
                    headers req !! h = Some v ∧ v ≠ "".
Proof.
  induction names as [|h rest IH]; simpl.
  - split; [discriminate|]. intros (before & h & after & H & _).
    destruct before; discriminate.
  - assert (Hskip : silent req h →
      ((∃ before h' after, rest = (before ++ h' :: after)%list ∧
          Forall (silent req) before ∧ headers req !! h' = Some v ∧ v ≠ "") ↔
       (∃ before h' after, h :: rest = (before ++ h' :: after)%list ∧
          Forall (silent req) before ∧ headers req !! h' = Some v ∧ v ≠ ""))).
    { intros Hsil. split.
      - intros (before & h' & after & -> & Hb & Hv & Hne).
        exists (h :: before), h', after. repeat split; try assumption.
        now constructor.
      - intros (before & h' & after & Heq & Hb & Hv & Hne).
        destruct before as [|b before]; simpl in Heq; injection Heq as <- ->.
        + exfalso. apply silent_lookup in Hsil. rewrite Hv in Hsil.
          apply nonempty_false in Hsil. contradiction.
        + inversion Hb; subst. eauto 10. }
    pose proof (silent_lookup req h) as Hsl.
    destruct (headers req !! h) as [x|] eqn:Hh.
    + destruct (nonempty x) eqn:Hx.
      * split.
        -- intros [= ->]. exists [], h, rest. apply nonempty_true in Hx. auto.
        -- intros (before & h' & after & Heq & Hb & Hv & Hne).
           destruct before as [|b before]; simpl in Heq; injection Heq as <- ->.
           ++ congruence.
           ++ inversion Hb as [|? ? Hb1 _]; subst. apply Hsl in Hb1. discriminate.
      * rewrite IH. apply Hskip. now apply Hsl.
    + rewrite IH. apply Hskip. now apply Hsl.
Qed.

Lemma getGroupsFromHeaders_resolves (req : Request) (v : string) :
  getGroupsFromHeaders req = Some v ↔ resolves_to req v.
Proof. apply first_header_Some. Qed.

Lemma admins_dec (raw : string) :
  list_includes "admins" (parse_groups raw) = true ↔ group_in "admins" raw.
Proof. now rewrite list_includes_In, parse_groups_group_in. Qed.

(** C3, as the spec states it, fails: here the first candidate header that
    is present is [remote-groups], its value is empty and so holds no
    group, and the request must be denied whatever other headers it has;
    the code skips the empty value and authorizes on the next header. *)
Lemma empty_header_is_skipped :
  access_guard_spec request_empty_groups_and_alias = Denied not_admin ∧
  checkAdmin request_empty_groups_and_alias = Authorized.
Proof. split; vm_compute; reflexivity. Qed.

(** C3 (amended). The guard takes the value of the first candidate header
    that has a non-empty value and reads its group names (the stretches
    between commas and white space).  The request is authorized exactly
    when [admins] is one of them, denied for want of a groups header
    exactly when every candidate is absent or empty, and denied as not
    admin exactly when the value taken does not name [admins]. *)
Theorem checkAdmin_decision (req : Request) :
  (checkAdmin req = Authorized ↔ ∃ v, resolves_to req v ∧ group_in "admins" v) ∧
  (checkAdmin req = Denied no_groups ↔ Forall (silent req) candidates) ∧
  (checkAdmin req = Denied not_admin ↔ ∃ v, resolves_to req v ∧ ¬ group_in "admins" v).
Proof.
  unfold checkAdmin.
  destruct (getGroupsFromHeaders req) as [raw|] eqn:Hraw.
  - assert (Hres : resolves_to req raw) by now apply getGroupsFromHeaders_resolves.
    assert (Huniq : ∀ v, resolves_to req v → v = raw).
    { intros v Hv. apply getGroupsFromHeaders_resolves in Hv. congruence. }
    assert (Hsome : ¬ Forall (silent req) candidates).
    { intros H. apply first_header_None in H. unfold getGroupsFromHeaders in Hraw.
      congruence. }
    destruct (list_includes "admins" (parse_groups raw)) eqn:Hadm.
    + apply admins_dec in Hadm. repeat split; try discriminate; try tauto.
      * eauto.
      * intros (v & Hv & Hn). apply Huniq in Hv. subst. contradiction.
    + assert (Hn : ¬ group_in "admins" raw).
      { intros H. apply admins_dec in H. congruence. }
      repeat split; try discriminate; try tauto.
      * intros (v & Hv & Hg). apply Huniq in Hv. subst. contradiction.
      * eauto.
  - assert (Hall : Forall (silent req) candidates) by now apply first_header_None.
    assert (Hnone : ∀ v, ¬ resolves_to req v).
    { intros v Hv. apply getGroupsFromHeaders_resolves in Hv. congruence. }
    repeat split; try discriminate; try tauto.
    + intros (v & Hv & _). now apply Hnone in Hv.
    + intros (v & Hv & _). now apply Hnone in Hv.
Qed.



(** ** Running handlers *)

Lemma bind_Ret {A B} (c : M A) (k : A → M B) (w w' : World) (a : A) :
  c w = (w', Ret a) → bind c k w = k a w'.
Proof. intros H. unfold bind. now rewrite H. Qed.

Lemma bind_Throw {A B} (c : M A) (k : A → M B) (w w' : World) (e : string) :
  c w = (w', Throw e) → bind c k w = (w', Throw e).
Proof. intros H. unfold bind. now rewrite H. Qed.

Lemma try_500_Ret (ctx : string) (h : M Response) (w w' : World) (r : Response) :
  h w = (w', Ret r) → try_500 ctx h w = (w', Ret r).
Proof. intros H. unfold try_500. now rewrite H. Qed.

Lemma generateHash_world (E : Env) (p : val) (w : World) :
  ∃ r, generateHash E p w = (w, r) ∧ ∀ w', generateHash E p w' = (w', r).
Proof.
  unfold generateHash. destruct (authelia_cli E p) as [out|].
  - destruct (includes "Digest:" (trim out)); eexists; split; reflexivity.
  - eexists; split; reflexivity.
Qed.

Lemma generateHash_hash_of (E : Env) (p : val) (h : string) (w : World) :
  hash_of E p = Some h ↔ generateHash E p w = (w, Ret h).
Proof.
  unfold hash_of, generateHash. destruct (authelia_cli E p) as [out|].
  - destruct (includes "Digest:" (trim out)); unfold ret; split; congruence.
  - unfold throw. split; discriminate.
Qed.

Lemma get_own (m : gmap string val) (k : string) (v : val) :
  k ≠ "__proto__" → m !! k = Some v → get (Obj m) k = Ret v.
Proof.
  intros Hk Hm. unfold get. destruct (String.eqb_spec k "__proto__"); [contradiction|].
  now rewrite Hm.
Qed.

Lemma get_absent (m : gmap string val) (k : string) :
  inherited k = false → m !! k = None → get (Obj m) k = Ret Undef.
Proof.
  intros Hk Hm. unfold get.
  destruct (String.eqb_spec k "__proto__") as [->|]; [discriminate Hk|].
  now rewrite Hm, Hk.
Qed.

Lemma inherited_proto (k : string) : inherited k = false → k ≠ "__proto__".
Proof. intros H ->. discriminate. Qed.

Lemma set_plain (m : gmap string val) (k : string) (v : val) :
  k ≠ "__proto__" → set (Obj m) k v = Ret (Obj (<[k := v]> m)).
Proof.
  intros Hk. unfold set. now destruct (String.eqb_spec k "__proto__").
Qed.

Lemma del_plain (m : gmap string val) (k : string) :
  k ≠ "__proto__" → del (Obj m) k = Ret (Obj (delete k m)).
Proof.
  intros Hk. unfold del. now destruct (String.eqb_spec k "__proto__").
Qed.

Lemma set_Ret (o : val) (k : string) (v o' : val) :
  set o k v = Ret o' → ∃ m, o = Obj m ∧ k ≠ "__proto__" ∧ o' = Obj (<[k := v]> m).
Proof.
  unfold set. destruct o; try discriminate.
  destruct (String.eqb_spec k "__proto__"); [discriminate|].
  intros [= <-]. eauto.
Qed.

Lemma del_Ret (o : val) (k : string) (o' : val) :
  del o k = Ret o' → ∃ m, o = Obj m ∧ k ≠ "__proto__" ∧ o' = Obj (delete k m).
Proof.
  unfold del. destruct o; try discriminate.
  destruct (String.eqb_spec k "__proto__"); [discriminate|].
  intros [= <-]. eauto.
Qed.

Lemma get_Ret (m : gmap string val) (k : string) (x : val) :
  get (Obj m) k = Ret x →
  k ≠ "__proto__" ∧ x = match m !! k with
                        | Some v => v
                        | None => if inherited k then Fun k else Undef
                        end.
Proof.
  unfold get. destruct (String.eqb_spec k "__proto__"); [discriminate|].
  destruct (m !! k); intros [= <-]; auto.
Qed.

Lemma saveUsers_Ret (users : val) (w w' : World) :
  saveUsers users w = (w', Ret tt) →
  users_yml_writable w = true ∧
  w' = with_users_yml (Doc (obj_lit [("users", users)]))
         (with_log ("users.yml saved" :: log w) w).
Proof.
  rewrite saveUsers_run. destruct (users_yml_writable w); [|discriminate].
  intros [= <-]. auto.
Qed.

Lemma generateHash_Ret (E : Env) (p : val) (w w' : World) (h : string) :
  generateHash E p w = (w', Ret h) → w' = w ∧ hash_of E p = Some h.
Proof.
  intros H. destruct (generateHash_world E p w) as (r & Hr & _).
  rewrite Hr in H. injection H as <- ->. split; [reflexivity|].
  now apply (generateHash_hash_of E p h w).
Qed.


Lemma obj_fields_cons (k : string) (v : val) (rest : list (string * val)) :
  obj_fields ((k, v) :: rest) =
    if defined v then <[k := v]> (obj_fields rest) else obj_fields rest.
Proof.
  unfold obj_fields. rewrite filter_cons. simpl.
  destruct (defined v); case_decide; try congruence; reflexivity.
Qed.

Lemma obj_fields_lookup (fields : list (string * val)) (k : string) :
  obj_fields fields !! k = literal_lookup fields k.
Proof.
  induction fields as [|[k' v] rest IH]; simpl.
  - apply lookup_empty.
  - rewrite obj_fields_cons.
    destruct (String.eqb_spec k' k) as [->|Hne]; simpl.
    + destruct (defined v); [apply lookup_insert_eq | exact IH].
    + destruct (defined v); [rewrite lookup_insert_ne by assumption|]; exact IH.
Qed.

Lemma prop_obj_lit (fields : list (string * val)) (k : string) :
  prop (obj_lit fields) k = literal_lookup fields k.
Proof. apply obj_fields_lookup. Qed.

Lemma holds_users_doc (w : World) (m : gmap string val) :
  users_yml w = Doc (obj_lit [("users", Obj m)]) → holds_users w m.
Proof. intros H. exists (obj_fields [("users", Obj m)]). split; [exact H | reflexivity]. Qed.

Lemma listable_insert (m : gmap string val) (u : string) (fields : list (string * val)) :
  listable m → u ≠ "__proto__" → listable (<[u := obj_lit fields]> m).
Proof.
  intros [Hp Hall] Hu. split.
  - rewrite lookup_insert_ne by assumption. exact Hp.
  - apply map_Forall_insert_2; [reflexivity | exact Hall].
Qed.

Lemma listable_empty : listable ∅.
Proof. split; [apply lookup_empty | apply map_Forall_empty]. Qed.

Lemma listable_singleton (u : string) (fields : list (string * val)) :
  u ≠ "__proto__" → listable (obj_fields [(u, obj_lit fields)]).
Proof.
  intros Hu. rewrite obj_fields_cons. change (defined (obj_lit fields)) with true.
  cbv iota. apply listable_insert; [exact listable_empty | exact Hu].
Qed.


(** *** POST /api/users *)

(** The handler on a username that is free (and not a member of
    [Object.prototype]), when hashing and saving work. *)
Lemma post_api_users_creates (E : Env) (req : Request) (w w1 : World)
    (m : gmap string val) (u h : string) :
  field (body req) "username" = Str u → u ≠ "" →
  truthy (field (body req) "password") = true →
  loadUsers w = (w1, Ret (Obj m)) →
  inherited u = false →
  truthy (default Undef (m !! u)) = false →
  hash_of E (field (body req) "password") = Some h →
  users_yml_writable w1 = true →
  ∃ w', post_api_users E req w = (w', Ret (json 200 ok)) ∧
        users_yml w' =
          Doc (obj_lit [("users",
            Obj (<[u := new_user_record (Str u) (field (body req) "displayname")
                          (field (body req) "email") (field (body req) "groups") h]> m))]) ∧
        invites_json w' = invites_json w1.
Proof.
  intros Hu Hne Hp Hload Hinh Hfree Hh Hw.
  assert (Htu : truthy (Str u) = true) by now apply nonempty_true.
  assert (Hget : ∃ x, get (Obj m) u = Ret x ∧ truthy x = false).
  { destruct (m !! u) as [x|] eqn:Hm.
    - exists x. split; [apply get_own; [now apply inherited_proto | assumption] | assumption].
    - exists Undef. split; [now apply get_absent | reflexivity]. }
  destruct Hget as (x & Hget & Hx).
  apply (generateHash_hash_of E _ h w1) in Hh.
  unfold post_api_users, try_500, bind, lift, ret, to_key.
  rewrite Hu, Htu, Hp. cbn [negb].
  rewrite Hload, Hget, Hx, Hh, (set_plain _ _ _ (inherited_proto _ Hinh)).
  rewrite (saveUsers_writable _ _ Hw). cbn.
  eexists. split; [reflexivity|]. split; reflexivity.
Qed.

(** Whenever the handler answers 200 it has written the new record under a
    username that was not taken. *)
Lemma post_api_users_200 (E : Env) (req : Request) (w w' : World) (resp : Response) :
  post_api_users E req w = (w', Ret resp) → status resp = 200 →
  ∃ u w1 m h,
    field (body req) "username" = Str u ∧
    loadUsers w = (w1, Ret (Obj m)) ∧
    hash_of E (field (body req) "password") = Some h ∧
    users_yml w' =
      Doc (obj_lit [("users",
        Obj (<[u := new_user_record (Str u) (field (body req) "displayname")
                      (field (body req) "email") (field (body req) "groups") h]> m))]).
Proof.
  intros H Hs. unfold post_api_users, try_500, bind, lift, ret in H.
  destruct (truthy (field (body req) "username")) eqn:Htu; cbn [negb] in H;
    [|injection H as <- <-; discriminate Hs].
  destruct (truthy (field (body req) "password")) eqn:Hp; cbn [negb] in H;
    [|injection H as <- <-; discriminate Hs].
  destruct (loadUsers w) as [w1 [users|e|]] eqn:Hload;
    [|injection H as <- <-; discriminate Hs|discriminate H].
  unfold to_key in H.
  destruct (field (body req) "username") as [| | | |u| | |] eqn:Hu; try discriminate H.
  destruct (get users u) as [x|e|] eqn:Hget;
    [|injection H as <- <-; discriminate Hs|discriminate H].
  destruct (truthy x) eqn:Hx; [injection H as <- <-; discriminate Hs|].
  destruct (generateHash E (field (body req) "password") w1) as [w2 [h|e|]] eqn:Hh;
    [|injection H as <- <-; discriminate Hs|discriminate H].
  apply generateHash_Ret in Hh as [-> Hh].
  match type of H with context [set users u ?r] => destruct (set users u r) as [users'|e|] eqn:Hset end;
    [|injection H as <- <-; discriminate Hs|discriminate H].
  apply set_Ret in Hset as (m & -> & Hproto & ->).
  match type of H with context [saveUsers ?a w1] =>
    destruct (saveUsers a w1) as [w3 [[]|e|]] eqn:Hsave end;
    [|injection H as <- <-; discriminate Hs|discriminate H].
  apply saveUsers_Ret in Hsave as [Hw ->].
  cbn in H. injection H as <- <-.
  exists u, w1, m, h. repeat split; assumption || reflexivity.
Qed.

(** On a username that names a member of [Object.prototype] and is not in
    the store, the handler still finds [users[username]] truthy: it answers
    "User exists" and writes nothing. *)
Lemma post_api_users_inherited (E : Env) (req : Request) (w : World)
    (m : gmap string val) (u : string) :
  holds_users w m → m !! u = None →
  inherited u = true → u ≠ "__proto__" →
  field (body req) "username" = Str u →
  truthy (field (body req) "password") = true →
  post_api_users E req w = (w, Ret (json 400 (error "User exists"))).
Proof.
  intros Hm Hu Hinh Hproto Hf Hp.
  assert (Htu : truthy (Str u) = true).
  { apply nonempty_true. intros ->. discriminate Hinh. }
  assert (Hget : get (Obj m) u = Ret (Fun u)).
  { unfold get. destruct (String.eqb_spec u "__proto__"); [contradiction|].
    now rewrite Hu, Hinh. }
  unfold post_api_users, try_500, bind, lift, ret, to_key.
  rewrite Hf, Htu, Hp. cbn [negb].
  rewrite (loadUsers_holds _ _ Hm), Hget. reflexivity.
Qed.

(** C5 (defect in the code). [create] must insert a record for every
    username that is not in the store.  For the username [constructor],
    absent from the store, the code answers 400 "User exists" and stores
    nothing: [users[username]] finds the member that every object inherits
    from [Object.prototype]. *)
Theorem create_refuses_absent_constructor :
  stored_user world_alice "constructor" = None ∧
  post_api_users sample_env (create_request "constructor" "secret1") world_alice
    = (world_alice, Ret (json 400 (error "User exists"))).
Proof.
  split; [vm_compute; reflexivity|].
  apply (post_api_users_inherited _ _ _ (obj_fields [("alice", alice_record)]) "constructor");
    try reflexivity; try discriminate.
  eexists. split; reflexivity.
Qed.


(** *** GET /api/users *)

Lemma safe_users_listable (m : gmap string val) :
  listable m → safe_users (Obj m) = Ret (Obj (without_password <$> m)).
Proof.
  intros [Hproto Hall]. unfold safe_users.
  rewrite bool_decide_eq_true_2 by assumption.
  replace (forallb spreadable (map snd (map_to_list m))) with true; [reflexivity|].
  symmetry. apply forallb_forall. intros v Hv.
  apply in_map_iff in Hv as ([k v'] & <- & Hin).
  apply list_elem_of_In, elem_of_map_to_list in Hin.
  exact (Hall k v' Hin).
Qed.

Lemma get_api_users_listable (req : Request) (w : World) (m : gmap string val) :
  holds_users w m → listable m →
  get_api_users req w = (w, Ret (json 200 (Obj (without_password <$> m)))).
Proof.
  intros Hm Hl. unfold get_api_users, try_500, bind, lift, ret.
  now rewrite (loadUsers_holds _ _ Hm), (safe_users_listable _ Hl).
Qed.

(** The copy of a record in the listing. *)
Lemma without_password_record (r : gmap string val) :
  ∃ r', without_password (Obj r) = Obj r' ∧
        (∀ f, f ≠ "password" → r' !! f = r !! f) ∧
        r' !! "password" =
          (if truthy (default Undef (r !! "password")) then None else r !! "password").
Proof.
  unfold without_password, spread.
  destruct (truthy (default Undef (r !! "password"))).
  - exists (delete "password" r). split; [reflexivity|]. split.
    + intros f Hf. now apply lookup_delete_ne.
    + apply lookup_delete_eq.
  - exists r. auto.
Qed.

(** C7, as the spec states it, fails: a stored record whose password is the
    empty string is listed with its password field. *)
Lemma list_keeps_empty_password :
  ∃ safe record,
    get_api_users (request_with [] "" []) world_bob_empty_password
      = (world_bob_empty_password, Ret (json 200 (Obj safe))) ∧
    safe !! "bob" = Some record ∧
    prop record "password" = Some (Str "").
Proof.
  eexists. eexists. split; [|split].
  - apply get_api_users_listable.
    + eexists. split; reflexivity.
    + apply listable_singleton. discriminate.
  - rewrite lookup_fmap. reflexivity.
  - vm_compute. reflexivity.
Qed.

(** C7 (amended). On a store of records the listing returns an entry for
    every stored username and for no other; the entry is the record
    without its password when that is truthy (a hash), with every other
    field unchanged; a password that is falsy (empty, null) stays in the
    entry.  For a username that is not in the store (and is not the name
    of a member of [Object.prototype]), [create] followed by the listing
    gives an entry for it without a password field, provided the hash
    written is not empty. *)
Theorem list_strips_truthy_passwords (req : Request) (w : World) (m : gmap string val) :
  holds_users w m → listable m →
  ∃ safe,
    get_api_users req w = (w, Ret (json 200 (Obj safe))) ∧
    (∀ u, safe !! u = None ↔ m !! u = None) ∧
    (∀ u r, m !! u = Some (Obj r) →
       ∃ r', safe !! u = Some (Obj r') ∧
             (∀ f, f ≠ "password" → r' !! f = r !! f) ∧
             r' !! "password" =
               (if truthy (default Undef (r !! "password")) then None
                else r !! "password")) ∧
    (∀ E creq u h,
       field (body creq) "username" = Str u → u ≠ "" →
       truthy (field (body creq) "password") = true →
       m !! u = None → inherited u = false →
       hash_of E (field (body creq) "password") = Some h → h ≠ "" →
       users_yml_writable w = true →
       ∃ w1 safe1 r1,
         post_api_users E creq w = (w1, Ret (json 200 ok)) ∧
         get_api_users req w1 = (w1, Ret (json 200 (Obj safe1))) ∧
         safe1 !! u = Some (Obj r1) ∧
         r1 !! "password" = None ∧
         r1 !! "groups" = Some (groups_or_default (field (body creq) "groups"))).
Proof.
  intros Hm Hl. exists (without_password <$> m).
  split; [now apply get_api_users_listable|]. split; [|split].
  - intros u. rewrite lookup_fmap. destruct (m !! u); simpl; split; congruence.
  - intros u r Hu. destruct (without_password_record r) as (r' & Hr' & Hother & Hpw).
    exists r'. rewrite lookup_fmap, Hu. simpl. rewrite Hr'. auto.
  - intros E creq u h Hf Hne Hp Hu Hinh Hh Hhne Hw.
    destruct (post_api_users_creates E creq w w m u h) as (w1 & Hrun & Hfile & _);
      try assumption.
    { now apply loadUsers_holds. }
    { now rewrite Hu. }
    set (fields := [ ("displayname", js_or (field (body creq) "displayname") (Str u));
                     ("email", field (body creq) "email");
                     ("password", Str h);
                     ("groups", groups_or_default (field (body creq) "groups")) ]) in *.
    change (new_user_record _ _ _ _ _) with (obj_lit fields) in Hfile.
    apply holds_users_doc in Hfile.
    assert (Hl1 : listable (<[u := obj_lit fields]> m)).
    { apply listable_insert; [assumption | now apply inherited_proto]. }
    destruct (without_password_record (obj_fields fields)) as (r1 & Hr1 & Hother & Hpw).
    exists w1, (without_password <$> <[u := obj_lit fields]> m), r1.
    split; [exact Hrun|]. split; [now apply get_api_users_listable|].
    split; [|split].
    + rewrite lookup_fmap, lookup_insert_eq. simpl. unfold obj_lit. now rewrite Hr1.
    + rewrite Hpw, obj_fields_lookup. simpl.
      apply nonempty_true in Hhne. unfold nonempty in Hhne. unfold truthy.
      now rewrite Hhne.
    + rewrite Hother by discriminate. rewrite obj_fields_lookup. simpl.
      unfold groups_or_default.
      destruct (isArray (field (body creq) "groups")) eqn:Harr.
      * destruct (field (body creq) "groups"); try discriminate Harr. reflexivity.
      * destruct (truthy (field (body creq) "groups")); reflexivity.
Qed.

Lemma list_strips_truthy_passwords_witness :
  ∃ safe,
    get_api_users (request_with [] "" []) world_alice = (world_alice, Ret (json 200 (Obj safe))) ∧
    (∀ r, prop alice_record "password" = Some r →
          ∃ r', safe !! "alice" = Some (Obj r') ∧ r' !! "password" = None).
Proof.
  assert (Hm : holds_users world_alice (obj_fields [("alice", alice_record)])).
  { eexists. split; reflexivity. }
  assert (Hl : listable (obj_fields [("alice", alice_record)])).
  { apply listable_singleton. discriminate. }
  destruct (list_strips_truthy_passwords (request_with [] "" []) world_alice _ Hm Hl)
    as (safe & Hrun & _ & Hrec & _).
  exists safe. split; [exact Hrun|].
  intros r _.
  destruct (Hrec "alice" _ eq_refl) as (r' & Hs & _ & Hpw).
  exists r'. split; [exact Hs|]. rewrite Hpw. reflexivity.
Defined.

(** *** PUT /api/users/:username *)

Lemma set_in_record (m r : gmap string val) (k f : string) (v : val) :
  k ≠ "__proto__" → f ≠ "__proto__" → m !! k = Some (Obj r) →
  set_in (Obj m) k f v = Ret (Obj (<[k := Obj (<[f := v]> r)]> m)).
Proof.
  intros Hk Hf Hm. unfold set_in.
  destruct (String.eqb_spec k "__proto__"); [contradiction|]. rewrite Hm.
  now destruct (String.eqb_spec f "__proto__").
Qed.

Lemma assign_if_defined_record (m r : gmap string val) (k f : string) (v v' : val) (w : World) :
  k ≠ "__proto__" → f ≠ "__proto__" → m !! k = Some (Obj r) →
  assign_if_defined (Obj m) k f v v' w =
    (w, Ret (Obj (<[k := Obj (if defined v then <[f := v']> r else r)]> m))).
Proof.
  intros Hk Hf Hm. unfold assign_if_defined. destruct (defined v).
  - unfold lift. now rewrite (set_in_record _ _ _ _ _ Hk Hf Hm).
  - unfold ret. now rewrite insert_id.
Qed.

(** The handler on a stored record: the fields given in the body are
    written, the file then holds the store with that one record changed. *)
Lemma put_api_users_updates (req : Request) (w : World) (m r : gmap string val) :
  holds_users w m → param_username req ≠ "__proto__" →
  m !! param_username req = Some (Obj r) →
  users_yml_writable w = true →
  ∃ w', put_api_users req w = (w', Ret (json 200 ok)) ∧
        users_yml w' =
          Doc (obj_lit [("users",
            Obj (<[param_username req := Obj (updated_record (body req) r)]> m))]) ∧
        invites_json w' = invites_json w.
Proof.
  intros Hm Hproto Hr Hw. set (u := param_username req) in *.
  unfold put_api_users, try_500, bind, lift, ret. fold u.
  rewrite (loadUsers_holds _ _ Hm), (get_own _ _ _ Hproto Hr). cbn [truthy negb].
  rewrite (assign_if_defined_record m r u "email" _ _ w Hproto) by (discriminate || assumption).
  match goal with |- context [<[u := Obj ?r1]> m] =>
    rewrite (assign_if_defined_record _ r1 u "displayname" _ _ w Hproto)
      by (discriminate || apply lookup_insert_eq) end.
  rewrite insert_insert_eq.
  match goal with |- context [<[u := Obj ?r2]> m] =>
    rewrite (assign_if_defined_record _ r2 u "groups" _ _ w Hproto)
      by (discriminate || apply lookup_insert_eq) end.
  rewrite insert_insert_eq.
  rewrite (saveUsers_writable _ _ Hw). cbn.
  eexists. split; [reflexivity|]. split; reflexivity.
Qed.

(** What the update leaves alone: every field that the body does not
    give, the password among them. *)
Lemma updated_record_frame (b r : gmap string val) (f : string) :
  (f = "email" → defined (field b "email") = false) →
  (f = "displayname" → defined (field b "displayname") = false) →
  (f = "groups" → defined (field b "groups") = false) →
  updated_record b r !! f = r !! f.
Proof.
  intros He Hd Hg. unfold updated_record.
  assert (Hstep : ∀ (k : string) (v : val) (c : bool) (r0 : gmap string val),
            (f = k → c = false) → (if c then <[k := v]> r0 else r0) !! f = r0 !! f).
  { intros k v c r0 Hk. destruct c; [|reflexivity].
    destruct (decide (k = f)) as [<-|Hne]; [now discriminate Hk|].
    now apply lookup_insert_ne. }
  rewrite Hstep by assumption. rewrite Hstep by assumption. now apply Hstep.
Qed.

Lemma updated_record_password (b r : gmap string val) :
  updated_record b r !! "password" = r !! "password".
Proof. apply updated_record_frame; discriminate. Qed.

(** What the update writes. *)
Lemma updated_record_written (b r : gmap string val) :
  (defined (field b "email") = true → updated_record b r !! "email" = Some (field b "email")) ∧
  (defined (field b "displayname") = true →
     updated_record b r !! "displayname" = Some (field b "displayname")) ∧
  (defined (field b "groups") = true →
     updated_record b r !! "groups" =
       Some (if isArray (field b "groups") then field b "groups"
             else Arr [field b "groups"])).
Proof.
  unfold updated_record. repeat split; intros H; rewrite ?H.
  - destruct (defined (field b "groups")), (defined (field b "displayname"));
      repeat (rewrite lookup_insert_ne by discriminate); apply lookup_insert_eq.
  - destruct (defined (field b "groups"));
      repeat (rewrite lookup_insert_ne by discriminate); apply lookup_insert_eq.
  - apply lookup_insert_eq.
Qed.


(** C8 (defect in the code). [update] must fail with 404 for every
    username that is not in the store.  For the username [constructor],
    absent from the store, the code answers 200: [users[username]] finds
    the member inherited from [Object.prototype], so the handler goes on,
    saves the store as it was and reports success. *)
Theorem update_accepts_absent_constructor :
  stored_user world_alice "constructor" = None ∧
  ∃ w', put_api_users (update_request "constructor" []) world_alice
          = (w', Ret (json 200 ok)) ∧
        stored_user w' "constructor" = None ∧
        stored_user w' "alice" = stored_user world_alice "alice".
Proof.
  split; [vm_compute; reflexivity|].
  eexists. split; [vm_compute; reflexivity|].
  split; vm_compute; reflexivity.
Qed.

(** *** POST /api/invite/accept *)

Lemma saveInvites_writable (invites : val) (w : World) :
  invites_json_writable w = true →
  saveInvites invites w = (with_invites_json (Doc invites) w, Ret tt).
Proof. intros H. now rewrite saveInvites_run, H. Qed.

Lemma loadInvites_holds (w : World) (im : gmap string val) :
  holds_invites w im → loadInvites w = (w, Ret (Obj im)).
Proof. intros H. rewrite loadInvites_run. unfold holds_invites in H. now rewrite H. Qed.

Lemma get_field_of_record (r : gmap string val) (f : string) :
  inherited f = false → get (Obj r) f = Ret (default Undef (r !! f)).
Proof.
  intros Hf. destruct (r !! f) as [v|] eqn:Hr; simpl.
  - apply get_own; [now apply inherited_proto | assumption].
  - now apply get_absent.
Qed.

Section Accept.

Variables (E : Env) (req : Request) (w : World).
Variables (t u : string) (im inv : gmap string val).

Hypothesis Htoken : field (body req) "token" = Str t.
Hypothesis Husername : field (body req) "username" = Str u.
Hypothesis Ht : t ≠ "".
Hypothesis Hu : u ≠ "".
Hypothesis Hpassword : truthy (field (body req) "password") = true.
Hypothesis Hinvites : holds_invites w im.
Hypothesis Hproto : t ≠ "__proto__".
Hypothesis Hinv : im !! t = Some (Obj inv).

Let now : Z := clock E (clock_reads w).

(** Past its expiry the invitation is deleted and the request refused. *)
Lemma accept_expired (e : Z) :
  inv !! "expiresAt" = Some (Num e) → safe_integer e = true → e < now →
  invites_json_writable w = true →
  ∃ w', post_api_invite_accept E req w = (w', Ret (json 400 (error "token expired"))) ∧
        invites_json w' = Doc (Obj (delete t im)) ∧
        users_yml w' = users_yml w.
Proof.
  intros He Hsafe Hlt Hw.
  assert (Htt : truthy (Str t) = true) by now apply nonempty_true.
  assert (Htu : truthy (Str u) = true) by now apply nonempty_true.
  assert (Hgt : js_gt now (Num e) = Ret true).
  { unfold js_gt, to_number, number. rewrite Hsafe. f_equal. now apply Z.ltb_lt. }
  unfold post_api_invite_accept, try_500, bind, lift, ret, to_key, date_now.
  rewrite Htoken, Husername, Htt, Htu, Hpassword. cbn [negb orb].
  rewrite (loadInvites_holds _ _ Hinvites), (get_own _ _ _ Hproto Hinv). cbn [truthy negb].
  cbv beta iota.
  rewrite (get_field_of_record inv "expiresAt" eq_refl), He. cbn [default from_option id].
  fold now. rewrite Hgt, (del_plain _ _ Hproto). cbv beta iota.
  rewrite saveInvites_writable by exact Hw.
  eexists. split; [reflexivity|]. split; reflexivity.
Qed.

Section NotExpired.

Variable e : Z.
Variable m : gmap string val.
Hypothesis Hexpires : inv !! "expiresAt" = Some (Num e).
Hypothesis Hsafe : safe_integer e = true.
Hypothesis Hfresh : now ≤ e.
Hypothesis Husers : holds_users w m.

(** The username is taken: 400, and neither file changes. *)
Lemma accept_conflict (r : val) :
  u ≠ "__proto__" → m !! u = Some r → truthy r = true →
  ∃ w', post_api_invite_accept E req w = (w', Ret (json 400 (error "username exists"))) ∧
        invites_json w' = invites_json w ∧ users_yml w' = users_yml w.
Proof.
  intros Hup Hr Htr.
  assert (Htt : truthy (Str t) = true) by now apply nonempty_true.
  assert (Htu : truthy (Str u) = true) by now apply nonempty_true.
  assert (Hgt : js_gt now (Num e) = Ret false).
  { unfold js_gt, to_number, number. rewrite Hsafe. f_equal. apply Z.ltb_ge. exact Hfresh. }
  unfold post_api_invite_accept, try_500, bind, lift, ret, to_key, date_now.
  rewrite Htoken, Husername, Htt, Htu, Hpassword. cbn [negb orb].
  rewrite (loadInvites_holds _ _ Hinvites), (get_own _ _ _ Hproto Hinv). cbn [truthy negb].
  cbv beta iota.
  rewrite (get_field_of_record inv "expiresAt" eq_refl), Hexpires. cbn [default from_option id].
  fold now. rewrite Hgt. cbv beta iota.
  rewrite (loadUsers_holds (with_clock_reads (S (clock_reads w)) w) m Husers).
  rewrite (get_own _ _ _ Hup Hr), Htr.
  eexists. split; [reflexivity|]. split; reflexivity.
Qed.

(** The username is free: the user is created from the invitation and the
    invitation is deleted. *)
Lemma accept_creates (h : string) :
  inherited u = false → truthy (default Undef (m !! u)) = false →
  hash_of E (field (body req) "password") = Some h →
  users_yml_writable w = true → invites_json_writable w = true →
  ∃ w', post_api_invite_accept E req w = (w', Ret (json 200 ok)) ∧
        users_yml w' = Doc (obj_lit [("users", Obj (<[u := accepted_record inv u h]> m))]) ∧
        invites_json w' = Doc (Obj (delete t im)).
Proof.
  intros Hinh Hfree Hh Hwu Hwi.
  assert (Htt : truthy (Str t) = true) by now apply nonempty_true.
  assert (Htu : truthy (Str u) = true) by now apply nonempty_true.
  assert (Hgt : js_gt now (Num e) = Ret false).
  { unfold js_gt, to_number, number. rewrite Hsafe. f_equal. apply Z.ltb_ge. exact Hfresh. }
  assert (Hget : ∃ x, get (Obj m) u = Ret x ∧ truthy x = false).
  { destruct (m !! u) as [x|] eqn:Hm.
    - exists x. split; [apply get_own; [now apply inherited_proto | assumption] | assumption].
    - exists Undef. split; [now apply get_absent | reflexivity]. }
  destruct Hget as (x & Hget & Hx).
  unfold post_api_invite_accept, try_500, bind, lift, ret, to_key, date_now, logger.
  rewrite Htoken, Husername, Htt, Htu, Hpassword. cbn [negb orb].
  rewrite (loadInvites_holds _ _ Hinvites), (get_own _ _ _ Hproto Hinv). cbn [truthy negb].
  cbv beta iota.
  rewrite (get_field_of_record inv "expiresAt" eq_refl), Hexpires. cbn [default from_option id].
  fold now. rewrite Hgt. cbv beta iota.
  rewrite (loadUsers_holds (with_clock_reads (S (clock_reads w)) w) m Husers).
  rewrite Hget, Hx.
  rewrite (proj1 (generateHash_hash_of E _ h _) Hh).
  rewrite !get_field_of_record by reflexivity.
  rewrite (set_plain _ _ _ (inherited_proto _ Hinh)).
  rewrite saveUsers_writable by exact Hwu.
  rewrite (del_plain _ _ Hproto).
  rewrite saveInvites_writable by exact Hwi.
  eexists. split; [reflexivity|]. split; reflexivity.
Qed.

End NotExpired.

End Accept.

Lemma error_inj (a b : string) : error a = error b → a = b.
Proof.
  intros H. assert (Hp : prop (error a) "error" = prop (error b) "error") by now rewrite H.
  unfold error in Hp. rewrite !prop_obj_lit in Hp. simpl in Hp. congruence.
Qed.

Lemma json_error_inj (s s' : Z) (a b : string) :
  json s (error a) = json s' (error b) → a = b.
Proof. intros H. apply (f_equal payload) in H. now apply error_inj. Qed.

Lemma saveInvites_Ret (invites : val) (w w' : World) :
  saveInvites invites w = (w', Ret tt) →
  invites_json_writable w = true ∧ w' = with_invites_json (Doc invites) w.
Proof.
  rewrite saveInvites_run. destruct (invites_json_writable w); [|discriminate].
  intros [= <-]. auto.
Qed.

(** A response that is neither of the two named ones. *)
Ltac differs Hr :=
  first [ discriminate Hr
        | exfalso; apply (f_equal status) in Hr; simpl in Hr; discriminate Hr
        | exfalso; apply json_error_inj in Hr; discriminate Hr ].

Ltac other_response H Hr :=
  solve [ discriminate H
        | injection H as <- <-; destruct Hr as [Hr | Hr]; differs Hr ].

(** Whenever the handler answers 200 or "token expired", it has deleted the
    token from the invites file. *)
Lemma accept_spends_token (E : Env) (req : Request) (w w' : World) (resp : Response) :
  post_api_invite_accept E req w = (w', Ret resp) →
  resp = json 200 ok ∨ resp = json 400 (error "token expired") →
  ∃ t im,
    field (body req) "token" = Str t ∧ t ≠ "" ∧ t ≠ "__proto__" ∧
    invites_json w' = Doc (Obj (delete t im)).
Proof.
  intros H Hr.
  unfold post_api_invite_accept, try_500, bind, lift, ret, to_key, date_now, logger in H.
  destruct (negb (truthy (field (body req) "token"))
            || negb (truthy (field (body req) "username"))
            || negb (truthy (field (body req) "password"))) eqn:Hv; [other_response H Hr|].
  apply orb_false_elim in Hv as [Hv _]. apply orb_false_elim in Hv as [Hv _].
  apply negb_false_iff in Hv.
  destruct (loadInvites w) as [w0 [invites|e|]] eqn:Hload; [|other_response H Hr ..].
  destruct (field (body req) "token") as [| | | |t| | |] eqn:Htoken; try other_response H Hr.
  destruct (get invites t) as [invite|e|] eqn:Hget; [|other_response H Hr ..].
  destruct (truthy invite); cbn [negb] in H; [|other_response H Hr].
  cbv beta iota in H.
  destruct (get invite "expiresAt") as [expiresAt|e|]; [|other_response H Hr ..].
  destruct (js_gt (clock E (clock_reads w0)) expiresAt) as [[|]|e|];
    [| |other_response H Hr ..].
  - (* expired *)
    destruct (del invites t) as [invites'|e|] eqn:Hdel; [|other_response H Hr ..].
    apply del_Ret in Hdel as (im & -> & Hproto & ->).
    match type of H with context [saveInvites ?a ?x] =>
      destruct (saveInvites a x) as [w1 [[]|e|]] eqn:Hsave end; [|other_response H Hr ..].
    apply saveInvites_Ret in Hsave as [_ ->].
    injection H as <- _. exists t, im. apply nonempty_true in Hv. auto.
  - (* not expired *)
    match type of H with context [loadUsers ?x] =>
      destruct (loadUsers x) as [w1 [users|e|]] end; [|other_response H Hr ..].
    destruct (field (body req) "username") as [| | | |u| | |]; try other_response H Hr.
    destruct (get users u) as [existing|e|]; [|other_response H Hr ..].
    destruct (truthy existing); [other_response H Hr|].
    destruct (generateHash E (field (body req) "password") w1) as [w2 [h|e|]];
      [|other_response H Hr ..].
    destruct (get invite "displayname") as [displayname|e|]; [|other_response H Hr ..].
    destruct (get invite "email") as [email|e|]; [|other_response H Hr ..].
    destruct (get invite "groups") as [groups|e|]; [|other_response H Hr ..].
    match type of H with context [set users u ?r] =>
      destruct (set users u r) as [users'|e|] end; [|other_response H Hr ..].
    destruct (saveUsers users' w2) as [w3 [[]|e|]]; [|other_response H Hr ..].
    destruct (del invites t) as [invites'|e|] eqn:Hdel; [|other_response H Hr ..].
    apply del_Ret in Hdel as (im & -> & Hproto & ->).
    destruct (saveInvites (Obj (delete t im)) w3) as [w4 [[]|e|]] eqn:Hsave;
      [|other_response H Hr ..].
    apply saveInvites_Ret in Hsave as [_ ->].
    injection H as <- _. exists t, im. apply nonempty_true in Hv. auto.
Qed.

(** A token that is not in the invites file is refused as invalid, and
    nothing changes. *)
Lemma accept_unknown_token (E : Env) (req : Request) (w : World)
    (t : string) (im : gmap string val) :
  holds_invites w im → im !! t = None → inherited t = false →
  field (body req) "token" = Str t → t ≠ "" →
  truthy (field (body req) "username") = true →
  truthy (field (body req) "password") = true →
  post_api_invite_accept E req w = (w, Ret (json 400 (error "invalid token"))).
Proof.
  intros Him Ht Hinh Htoken Hne Hu Hp.
  assert (Htt : truthy (Str t) = true) by now apply nonempty_true.
  unfold post_api_invite_accept, try_500, bind, lift, ret, to_key.
  rewrite Htoken, Htt, Hu, Hp. cbn [negb orb].
  now rewrite (loadInvites_holds _ _ Him), (get_absent _ _ Hinh Ht).
Qed.

(** The tokens [uuidv4] makes have 36 characters: none of them names a
    member of [Object.prototype]. *)
Lemma uuid_not_inherited (t : string) : String.length t = 36%nat → inherited t = false.
Proof.
  intros H. unfold inherited, object_prototype.
  apply not_true_is_false. intros Hin. apply existsb_exists in Hin as (x & Hx & Heq).
  apply String.eqb_eq in Heq. subst x.
  simpl in Hx. repeat (destruct Hx as [<- | Hx]; [discriminate H|]). exact Hx.
Qed.

Lemma stored_user_doc (w : World) (m : gmap string val) (u : string) :
  users_yml w = Doc (obj_lit [("users", Obj m)]) → stored_user w u = m !! u.
Proof. intros H. unfold stored_user. now rewrite H. Qed.

Lemma stored_invite_doc (w : World) (im : gmap string val) (t : string) :
  invites_json w = Doc (Obj im) → stored_invite w t = im !! t.
Proof. intros H. unfold stored_invite. now rewrite H. Qed.

Lemma accepted_record_fields (inv : gmap string val) (u h : string) :
  u ≠ "" →
  prop (accepted_record inv u h) "displayname"
    = Some (js_or (default Undef (inv !! "displayname")) (Str u)) ∧
  default Undef (prop (accepted_record inv u h) "email") = default Undef (inv !! "email") ∧
  default Undef (prop (accepted_record inv u h) "groups") = default Undef (inv !! "groups") ∧
  prop (accepted_record inv u h) "password" = Some (Str h).
Proof.
  intros Hu. unfold accepted_record. rewrite !prop_obj_lit. simpl.
  assert (Hd : defined (js_or (default Undef (inv !! "displayname")) (Str u)) = true).
  { unfold js_or. destruct (truthy (default Undef (inv !! "displayname"))) eqn:Ht.
    - destruct (default Undef (inv !! "displayname")); try reflexivity. discriminate Ht.
    - reflexivity. }
  rewrite Hd.
  repeat split;
    destruct (default Undef (inv !! "email"));
    destruct (default Undef (inv !! "groups")); reflexivity.
Qed.

(** C6, as the spec states it, fails: the invitation made for bob without a
    display name stores the empty display name, and the user created from
    it gets the username as display name. *)
Lemma accept_replaces_empty_displayname :
  ∃ inv record,
    stored_invite world_bob_invited sample_token = Some inv ∧
    prop inv "displayname" = Some (Str "") ∧
    post_api_invite_accept sample_env (accept_request sample_token "bob" "secret1")
      world_bob_invited = (world_bob_accepted, Ret (json 200 ok)) ∧
    stored_user world_bob_accepted "bob" = Some record ∧
    prop record "displayname" = Some (Str "bob").
Proof.
  eexists. eexists.
  split; [vm_compute; reflexivity|].
  split; [vm_compute; reflexivity|].
  split; [vm_compute; reflexivity|].
  split; vm_compute; reflexivity.
Qed.

(** The record and the two files after a successful [accept]. *)
Lemma accept_stores_record
    (E : Env) (req : Request) (w : World) (t u : string)
    (im inv m : gmap string val) (e : Z) (h : string) :
  field (body req) "token" = Str t → field (body req) "username" = Str u →
  t ≠ "" → u ≠ "" → truthy (field (body req) "password") = true →
  holds_invites w im → t ≠ "__proto__" → im !! t = Some (Obj inv) →
  inv !! "expiresAt" = Some (Num e) → safe_integer e = true →
  clock E (clock_reads w) ≤ e →
  holds_users w m →
  inherited u = false → m !! u = None →
  hash_of E (field (body req) "password") = Some h →
  users_yml_writable w = true → invites_json_writable w = true →
  ∃ w' record,
    post_api_invite_accept E req w = (w', Ret (json 200 ok)) ∧
    stored_user w' u = Some record ∧
    default Undef (prop record "email") = default Undef (inv !! "email") ∧
    default Undef (prop record "groups") = default Undef (inv !! "groups") ∧
    prop record "displayname"
      = Some (if truthy (default Undef (inv !! "displayname"))
              then default Undef (inv !! "displayname") else Str u) ∧
    prop record "password" = Some (Str h) ∧
    (∀ u', u' ≠ u → stored_user w' u' = m !! u') ∧
    stored_invite w' t = None ∧
    (∀ t', t' ≠ t → stored_invite w' t' = im !! t').
Proof.
  intros Htoken Hu Hne Hune Hp Him Hproto Hinv He Hsafe Hfresh Hm Hinh Hfree Hh Hwu Hwi.
  destruct (accept_creates E req w t u im inv Htoken Hu Hne Hune Hp Him Hproto Hinv
              e m He Hsafe Hfresh Hm h Hinh) as (w' & Hrun & Husers & Hinvites);
    try assumption.
  { now rewrite Hfree. }
  destruct (accepted_record_fields inv u h Hune) as (Hdn & Hem & Hgr & Hpw).
  exists w', (accepted_record inv u h).
  split; [exact Hrun|].
  split; [rewrite (stored_user_doc _ _ _ Husers); apply lookup_insert_eq|].
  repeat split; try assumption.
  - intros u' Hne'. rewrite (stored_user_doc _ _ _ Husers).
    now apply lookup_insert_ne.
  - rewrite (stored_invite_doc _ _ _ Hinvites). apply lookup_delete_eq.
  - intros t' Hne'. rewrite (stored_invite_doc _ _ _ Hinvites).
    now apply lookup_delete_ne.
Qed.

(** C6 (amended). With a stored, unexpired invitation and a username that
    is not in the Credential Store (and is not the name of a member of
    [Object.prototype]), [accept] answers success, stores for the username
    a record whose email and groups are the invitation's, whose display
    name is the invitation's when that is non-empty and the username
    otherwise, and whose password is the hash, leaves every other user as
    it was, and deletes the invitation (and no other) from the Invite
    Store.  When the username is in the store, it answers 400 "username
    exists" and changes neither file. *)
Theorem accept_creates_user_from_invitation
    (E : Env) (req : Request) (w : World) (t u : string)
    (im inv m : gmap string val) (e : Z) :
  field (body req) "token" = Str t → field (body req) "username" = Str u →
  t ≠ "" → u ≠ "" → truthy (field (body req) "password") = true →
  holds_invites w im → t ≠ "__proto__" → im !! t = Some (Obj inv) →
  inv !! "expiresAt" = Some (Num e) → safe_integer e = true →
  clock E (clock_reads w) ≤ e →
  holds_users w m →
  (∀ h, inherited u = false → m !! u = None →
        hash_of E (field (body req) "password") = Some h →
        users_yml_writable w = true → invites_json_writable w = true →
        ∃ w' record,
          post_api_invite_accept E req w = (w', Ret (json 200 ok)) ∧
          stored_user w' u = Some record ∧
          default Undef (prop record "email") = default Undef (inv !! "email") ∧
          default Undef (prop record "groups") = default Undef (inv !! "groups") ∧
          prop record "displayname"
            = Some (if truthy (default Undef (inv !! "displayname"))
                    then default Undef (inv !! "displayname") else Str u) ∧
          prop record "password" = Some (Str h) ∧
          (∀ u', u' ≠ u → stored_user w' u' = m !! u') ∧
          stored_invite w' t = None ∧
          (∀ t', t' ≠ t → stored_invite w' t' = im !! t'))
  ∧ (∀ r, u ≠ "__proto__" → m !! u = Some r → truthy r = true →
          ∃ w', post_api_invite_accept E req w
                  = (w', Ret (json 400 (error "username exists"))) ∧
                invites_json w' = invites_json w ∧ users_yml w' = users_yml w).
Proof.
  intros Htoken Hu Hne Hune Hp Him Hproto Hinv He Hsafe Hfresh Hm. split.
  - intros h Hinh Hfree Hh Hwu Hwi.
    now apply (accept_stores_record E req w t u im inv m e h).
  - intros r Hup Hr Htr.
    exact (accept_conflict E req w t u im inv Htoken Hu Hne Hune Hp Him Hproto Hinv
             e m He Hsafe Hfresh Hm r Hup Hr Htr).
Qed.

Lemma accept_creates_user_from_invitation_witness :
  ∃ w' record,
    post_api_invite_accept sample_env (accept_request sample_token "bob" "secret1")
      world_bob_invited = (w', Ret (json 200 ok)) ∧
    stored_user w' "bob" = Some record ∧
    default Undef (prop record "email") = Str "bob@example.com" ∧
    stored_invite w' sample_token = None.
Proof.
  set (inv := obj_fields [ ("email", Str "bob@example.com");
                           ("groups", Arr [Str "users"]);
                           ("displayname", Str "");
                           ("createdAt", Num 1700000000000);
                           ("expiresAt", Num 1700003600001) ]).
  pose proof (accept_creates_user_from_invitation sample_env
                (accept_request sample_token "bob" "secret1") world_bob_invited
                sample_token "bob" (obj_fields [(sample_token, Obj inv)]) inv
                (obj_fields [("alice", alice_record)]) 1700003600001
                eq_refl eq_refl ltac:(discriminate) ltac:(discriminate) eq_refl
                eq_refl ltac:(discriminate) eq_refl eq_refl eq_refl
                ltac:(vm_compute; discriminate)
                (ex_intro _ _ (conj eq_refl eq_refl))) as [Hcreate _].
  destruct (Hcreate "$argon2id$v=19$m=65536,t=3,p=4$c2FsdA$aGFzaA"
              eq_refl eq_refl eq_refl eq_refl eq_refl)
    as (w' & record & Hrun & Hstored & Hemail & _ & _ & _ & _ & Hgone & _).
  exists w', record. repeat split; assumption.
Defined.

(** *** POST /api/invite *)

Lemma loadInvites_loaded (w : World) (im : gmap string val) :
  loaded_invites (invites_json w) = Some im →
  ∃ l, loadInvites w = (with_log l w, Ret (Obj im)).
Proof.
  unfold loaded_invites. rewrite loadInvites_run. intros H.
  assert (Hw : with_log (log w) w = w) by now destruct w.
  destruct (invites_json w) as [| | |v].
  - injection H as <-. exists (log w). now rewrite Hw.
  - injection H as <-. eauto.
  - injection H as <-. eauto.
  - destruct v; try discriminate H; injection H as <-;
      exists (log w); now rewrite Hw.
Qed.

(** The handler when an address is given, the minutes are a number and the
    invites file can be written: whatever the mail transport does. *)
Lemma post_api_invite_stores (E : Env) (req : Request) (w : World)
    (im : gmap string val) (n : Z) :
  truthy (field (body req) "email") = true →
  loaded_invites (invites_json w) = Some im →
  to_number (requested_minutes (body req)) = Ret n →
  safe_integer (n * 60) = true →
  safe_integer (n * 60 * 1000) = true →
  safe_integer (clock E (S (clock_reads w)) + n * 60 * 1000) = true →
  uuid E (uuid_calls w) ≠ "__proto__" →
  invites_json_writable w = true →
  ∃ w', post_api_invite E req w = (w', Ret (invite_response E (uuid E (uuid_calls w)))) ∧
        invites_json w' =
          Doc (Obj (<[uuid E (uuid_calls w) :=
                        invitation_record (body req) (clock E (clock_reads w))
                          (clock E (S (clock_reads w)) + n * 60 * 1000)]> im)) ∧
        users_yml w' = users_yml w.
Proof.
  intros Hemail Hload Hmin Hs1 Hs2 Hs3 Hproto Hw.
  destruct (loadInvites_loaded (with_uuid_calls (S (uuid_calls w)) w) im Hload) as (l & Hl).
  unfold post_api_invite, try_500, bind, lift, ret, uuidv4, date_now.
  rewrite Hemail. cbn [negb]. rewrite Hl.
  fold (requested_minutes (body req)). rewrite Hmin.
  unfold number. rewrite Hs1, Hs2.
  cbn [clock_reads with_log with_uuid_calls with_clock_reads].
  rewrite Hs3, (set_plain _ _ _ Hproto).
  rewrite saveInvites_writable by exact Hw.
  unfold send_invite_mail, logger. destruct (smtp E) as [deliver|];
    (eexists; split; [reflexivity|]; split; reflexivity).
Qed.

Lemma invitation_record_times (b : gmap string val) (c e : Z) :
  prop (invitation_record b c e) "createdAt" = Some (Num c) ∧
  prop (invitation_record b c e) "expiresAt" = Some (Num e) ∧
  prop (invitation_record b c e) "groups" = Some (groups_or_default (field b "groups")).
Proof.
  unfold invitation_record. rewrite !prop_obj_lit. simpl.
  assert (Hg : defined (groups_or_default (field b "groups")) = true).
  { unfold groups_or_default. destruct (isArray (field b "groups")) eqn:Ha.
    - destruct (field b "groups"); try discriminate Ha. reflexivity.
    - destruct (truthy (field b "groups")); reflexivity. }
  rewrite Hg. repeat split;
    destruct (defined (field b "email"));
    destruct (defined (js_or (field b "displayname") (Str ""))); reflexivity.
Qed.

(** C9, as the spec states it, fails: [createdAt] and [expiresAt] come from
    two calls of [Date.now()]; with a clock that advances one millisecond
    between them the stored expiry is not the stored creation time plus 60
    minutes. *)
Lemma invite_expiry_counts_from_second_reading :
  ∃ invitation,
    stored_invite world_bob_invited sample_token = Some invitation ∧
    prop invitation "createdAt" = Some (Num 1700000000000) ∧
    prop invitation "expiresAt" = Some (Num 1700003600001) ∧
    ¬ expiry_is_creation_plus_ttl invitation 60.
Proof.
  eexists. split; [vm_compute; reflexivity|].
  split; [vm_compute; reflexivity|]. split; [vm_compute; reflexivity|].
  intros (c & e & Hc & He & Heq).
  vm_compute in Hc. vm_compute in He.
  injection Hc as <-. injection He as <-. discriminate Heq.
Qed.

(** C9 (amended). When an address is given, [POST /api/invite] stores an
    invitation whose [createdAt] is the first reading of the clock and
    whose [expiresAt] is the second reading plus [expiresMinutes * 60 *
    1000], with 60 minutes when none are given; so the expiry is the
    creation time plus the minutes whenever the two readings agree.  It
    answers [{ok, token, link}], and neither the answer nor the stored
    invitation depends on the mail transport: they are the same whether
    delivery succeeds, fails or is not configured. *)
Theorem invite_expiry_and_response (E : Env) (req : Request) (w : World)
    (im : gmap string val) (n : Z) :
  truthy (field (body req) "email") = true →
  loaded_invites (invites_json w) = Some im →
  to_number (requested_minutes (body req)) = Ret n →
  safe_integer (n * 60) = true →
  safe_integer (n * 60 * 1000) = true →
  safe_integer (clock E (S (clock_reads w)) + n * 60 * 1000) = true →
  uuid E (uuid_calls w) ≠ "__proto__" →
  invites_json_writable w = true →
  (defined (field (body req) "expiresMinutes") = false → n = 60) ∧
  (∀ k, field (body req) "expiresMinutes" = Num k → n = k) ∧
  ∃ w' invitation,
    post_api_invite E req w = (w', Ret (invite_response E (uuid E (uuid_calls w)))) ∧
    stored_invite w' (uuid E (uuid_calls w)) = Some invitation ∧
    prop invitation "createdAt" = Some (Num (clock E (clock_reads w))) ∧
    prop invitation "expiresAt"
      = Some (Num (clock E (S (clock_reads w)) + n * 60 * 1000)) ∧
    (clock E (S (clock_reads w)) = clock E (clock_reads w) →
     expiry_is_creation_plus_ttl invitation n) ∧
    (∀ E', clock E' = clock E → uuid E' = uuid E → base_url E' = base_url E →
           ∃ w'', post_api_invite E' req w
                    = (w'', Ret (invite_response E (uuid E (uuid_calls w)))) ∧
                  invites_json w'' = invites_json w').
Proof.
  intros Hemail Hload Hmin Hs1 Hs2 Hs3 Hproto Hw.
  split; [|split].
  - intros Hd. unfold requested_minutes in Hmin. rewrite Hd in Hmin.
    vm_compute in Hmin. congruence.
  - intros k Hk. unfold requested_minutes in Hmin. rewrite Hk in Hmin.
    simpl in Hmin. unfold number in Hmin.
    destruct (safe_integer k); congruence.
  - destruct (post_api_invite_stores E req w im n) as (w' & Hrun & Hfile & _);
      try assumption.
    destruct (invitation_record_times (body req) (clock E (clock_reads w))
                (clock E (S (clock_reads w)) + n * 60 * 1000)) as (Hc & He & _).
    eexists w', _. split; [exact Hrun|].
    split; [rewrite (stored_invite_doc _ _ _ Hfile); apply lookup_insert_eq|].
    split; [exact Hc|]. split; [exact He|]. split.
    + intros Hsame. eexists _, _. split; [exact Hc|]. split; [exact He|].
      now rewrite Hsame.
    + intros E' Hclock Huuid Hbase.
      destruct (post_api_invite_stores E' req w im n) as (w'' & Hrun' & Hfile' & _);
        try assumption; rewrite ?Hclock, ?Huuid; try assumption.
      exists w''. split.
      * rewrite Hrun'. unfold invite_response. now rewrite Hbase, Huuid.
      * now rewrite Hfile, Hfile', Hclock, Huuid.
Qed.

Lemma invite_expiry_and_response_witness :
  ∃ w' invitation,
    post_api_invite sample_env (invite_request "bob@example.com") world_alice
      = (w', Ret (invite_response sample_env sample_token)) ∧
    stored_invite w' sample_token = Some invitation ∧
    prop invitation "expiresAt" = Some (Num (1700000000001 + 60 * 60 * 1000)).
Proof.
  destruct (invite_expiry_and_response sample_env (invite_request "bob@example.com")
              world_alice ∅ 60 eq_refl eq_refl eq_refl eq_refl eq_refl eq_refl
              ltac:(discriminate) eq_refl)
    as (_ & _ & w' & invitation & Hrun & Hstored & _ & He & _).
  exists w', invitation. repeat split; assumption.
Defined.

(** ** The groups of the records that are written *)

Lemma groups_or_default_nonempty (g : val) :
  g ≠ Arr [] → nonempty_array (groups_or_default g).
Proof.
  intros Hg. unfold groups_or_default, nonempty_array.
  destruct (isArray g) eqn:Ha.
  - destruct g as [| | | | |l| |]; try discriminate Ha.
    destruct l as [|x l]; [congruence | eauto].
  - destruct (truthy g); eauto.
Qed.

Lemma wrapped_groups_nonempty (g : val) :
  g ≠ Arr [] → nonempty_array (if isArray g then g else Arr [g]).
Proof.
  intros Hg. unfold nonempty_array. destruct (isArray g) eqn:Ha; [|eauto].
  destruct g as [| | | | |l| |]; try discriminate Ha.
  destruct l as [|x l]; [congruence | eauto].
Qed.

Lemma new_user_record_groups (un dn em g : val) (h : string) :
  prop (new_user_record un dn em g h) "groups" = Some (groups_or_default g).
Proof.
  unfold new_user_record. rewrite prop_obj_lit. simpl.
  assert (Hg : defined (groups_or_default g) = true).
  { unfold groups_or_default. destruct (isArray g) eqn:Ha.
    - destruct g; try discriminate Ha. reflexivity.
    - destruct (truthy g); reflexivity. }
  rewrite Hg. destruct (defined (js_or dn un)), (defined em); reflexivity.
Qed.

(** C4, as the spec states it, fails: a user created with [groups: []] is
    stored with an empty groups list. *)
Lemma create_stores_empty_groups :
  ∃ w' record,
    post_api_users sample_env
      (request_with [] "" [("username", Str "carol"); ("password", Str "secret1");
                           ("groups", Arr [])])
      world_alice = (w', Ret (json 200 ok)) ∧
    stored_user w' "carol" = Some record ∧
    prop record "groups" = Some (Arr []).
Proof.
  eexists. eexists. split; [vm_compute; reflexivity|].
  split; vm_compute; reflexivity.
Qed.

(** C4 (amended). The groups of a written record are a non-empty list
    unless an empty list is supplied.  [create] and [invite] store the
    array they are given as it is, a one-element list for any other truthy
    value and [["users"]] when groups are absent or falsy; [update] stores
    the array it is given, or a one-element list for any other supplied
    value, and leaves the stored groups alone when none are supplied;
    [accept] copies the groups of the invitation. *)
Theorem written_groups :
  (∀ E req w w' resp,
     post_api_users E req w = (w', Ret resp) → status resp = 200 →
     ∃ u record,
       field (body req) "username" = Str u ∧ stored_user w' u = Some record ∧
       prop record "groups" = Some (groups_or_default (field (body req) "groups")) ∧
       (field (body req) "groups" ≠ Arr [] →
        nonempty_array (groups_or_default (field (body req) "groups"))))
  ∧ (∀ req w m r,
       holds_users w m → param_username req ≠ "__proto__" →
       m !! param_username req = Some (Obj r) → users_yml_writable w = true →
       ∃ w' r',
         put_api_users req w = (w', Ret (json 200 ok)) ∧
         stored_user w' (param_username req) = Some (Obj r') ∧
         (defined (field (body req) "groups") = false → r' !! "groups" = r !! "groups") ∧
         (defined (field (body req) "groups") = true →
          r' !! "groups" = Some (if isArray (field (body req) "groups")
                                 then field (body req) "groups"
                                 else Arr [field (body req) "groups"]) ∧
          (field (body req) "groups" ≠ Arr [] →
           nonempty_array (if isArray (field (body req) "groups")
                           then field (body req) "groups"
                           else Arr [field (body req) "groups"]))))
  ∧ (∀ E req w im n,
       truthy (field (body req) "email") = true →
       loaded_invites (invites_json w) = Some im →
       to_number (requested_minutes (body req)) = Ret n →
       safe_integer (n * 60) = true → safe_integer (n * 60 * 1000) = true →
       safe_integer (clock E (S (clock_reads w)) + n * 60 * 1000) = true →
       uuid E (uuid_calls w) ≠ "__proto__" → invites_json_writable w = true →
       ∃ w' invitation,
         post_api_invite E req w = (w', Ret (invite_response E (uuid E (uuid_calls w)))) ∧
         stored_invite w' (uuid E (uuid_calls w)) = Some invitation ∧
         prop invitation "groups" = Some (groups_or_default (field (body req) "groups")) ∧
         (field (body req) "groups" ≠ Arr [] →
          nonempty_array (groups_or_default (field (body req) "groups"))))
  ∧ (∀ E req w t u im inv m e h,
       field (body req) "token" = Str t → field (body req) "username" = Str u →
       t ≠ "" → u ≠ "" → truthy (field (body req) "password") = true →
       holds_invites w im → t ≠ "__proto__" → im !! t = Some (Obj inv) →
       inv !! "expiresAt" = Some (Num e) → safe_integer e = true →
       clock E (clock_reads w) ≤ e → holds_users w m →
       inherited u = false → m !! u = None →
       hash_of E (field (body req) "password") = Some h →
       users_yml_writable w = true → invites_json_writable w = true →
       ∃ w' record,
         post_api_invite_accept E req w = (w', Ret (json 200 ok)) ∧
         stored_user w' u = Some record ∧
         default Undef (prop record "groups") = default Undef (inv !! "groups")).
Proof.
  split; [|split; [|split]].
  - intros E req w w' resp H Hs.
    destruct (post_api_users_200 E req w w' resp H Hs) as (u & w1 & m & h & Hu & _ & _ & Hfile).
    eexists u, _. split; [exact Hu|].
    split; [rewrite (stored_user_doc _ _ _ Hfile); apply lookup_insert_eq|].
    split; [apply new_user_record_groups | apply groups_or_default_nonempty].
  - intros req w m r Hm Hproto Hr Hw.
    destruct (put_api_users_updates req w m r Hm Hproto Hr Hw) as (w' & Hrun & Hfile & _).
    destruct (updated_record_written (body req) r) as (_ & _ & Hg).
    exists w', (updated_record (body req) r). split; [exact Hrun|].
    split; [rewrite (stored_user_doc _ _ _ Hfile); apply lookup_insert_eq|].
    split.
    + intros Hd. apply updated_record_frame; try discriminate. auto.
    + intros Hd. split; [now apply Hg | apply wrapped_groups_nonempty].
  - intros E req w im n Hemail Hload Hmin Hs1 Hs2 Hs3 Hproto Hw.
    destruct (post_api_invite_stores E req w im n) as (w' & Hrun & Hfile & _);
      try assumption.
    eexists w', _. split; [exact Hrun|].
    split; [rewrite (stored_invite_doc _ _ _ Hfile); apply lookup_insert_eq|].
    split; [apply invitation_record_times | apply groups_or_default_nonempty].
  - intros E req w t u im inv m e h Htoken Hu Hne Hune Hp Him Hproto Hinv He Hsafe
      Hfresh Hm Hinh Hfree Hh Hwu Hwi.
    destruct (accept_stores_record E req w t u im inv m e h)
      as (w' & record & Hrun & Hstored & _ & Hg & _); try assumption.
    eauto.
Qed.

Lemma written_groups_witness :
  ∃ u record,
    stored_user
      (fst (post_api_users sample_env
              (request_with [] "" [("username", Str "carol"); ("password", Str "secret1");
                                   ("groups", Str "staff")])
              world_alice)) u = Some record ∧
    prop record "groups" = Some (Arr [Str "staff"]).
Proof.
  destruct (proj1 written_groups sample_env
              (request_with [] "" [("username", Str "carol"); ("password", Str "secret1");
                                   ("groups", Str "staff")])
              world_alice _ (json 200 ok) ltac:(vm_compute; reflexivity) eq_refl)
    as (u & record & _ & Hstored & Hgroups & _).
  exists u, record. split; [exact Hstored | exact Hgroups].
Defined.

(** ** A token that was spent stays spent *)

Section Keeps.

Variable I : World → Prop.

Lemma keeps_ret {A} (a : A) (Q : A → Prop) : Q a → keeps I (ret a) Q.
Proof. intros HQ w w' r HI [= <- <-]. split; [assumption|]. now intros a' [= <-]. Qed.

Lemma keeps_throw {A} (e : string) (Q : A → Prop) : keeps I (throw e) Q.
Proof. intros w w' r HI [= <- <-]. split; [assumption|]. discriminate. Qed.

Lemma keeps_lift {A} (r : result A) (Q : A → Prop) :
  (∀ a, r = Ret a → Q a) → keeps I (lift r) Q.
Proof. intros HQ w w' r' HI [= <- <-]. auto. Qed.

Lemma keeps_bind {A B} (c : M A) (k : A → M B) (Q : A → Prop) (R : B → Prop) :
  keeps I c Q → (∀ a, Q a → keeps I (k a) R) → keeps I (bind c k) R.
Proof.
  intros Hc Hk w w' r HI H. unfold bind in H.
  destruct (c w) as [w1 [a|e|]] eqn:Hcw;
    destruct (Hc w w1 _ HI Hcw) as [HI1 HQ].
  - exact (Hk a (HQ a eq_refl) w1 w' r HI1 H).
  - injection H as <- <-. split; [assumption | discriminate].
  - injection H as <- <-. split; [assumption | discriminate].
Qed.

Lemma keeps_any {A} (c : M A) (Q : A → Prop) :
  keeps I c Q → keeps I c (λ _, True).
Proof. intros Hc w w' r HI H. split; [exact (proj1 (Hc w w' r HI H)) | trivial]. Qed.

Hypothesis I_log : ∀ l w, I w → I (with_log l w).

Lemma keeps_logger (line : string) : keeps I (logger line) (λ _, True).
Proof. intros w w' r HI [= <- <-]. split; [now apply I_log | trivial]. Qed.

Lemma keeps_try_500 (ctx : string) (h : M Response) (Q : Response → Prop) :
  keeps I h Q → keeps I (try_500 ctx h) (λ _, True).
Proof.
  intros Hh w w' r HI H. unfold try_500 in H.
  destruct (h w) as [w1 [a|e|]] eqn:Hw; destruct (Hh w w1 _ HI Hw) as [HI1 _];
    injection H as <- <-; split; trivial. now apply I_log.
Qed.

Lemma keeps_admin_only (req : Request) (h : M Response) :
  keeps I h (λ _, True) → keeps I (admin_only req h) (λ _, True).
Proof.
  intros Hh. unfold admin_only. destruct (checkAdmin req); [exact Hh|].
  eapply keeps_bind; [apply keeps_logger|]. intros _ _. now apply keeps_ret.
Qed.

End Keeps.

Section Spent.

Variables (E : Env) (t : string).

Lemma token_spent_same (w w' : World) :
  invites_json w' = invites_json w → uuid_calls w' = uuid_calls w →
  token_spent E t w → token_spent E t w'.
Proof. intros Hi Hu [Him Hn]. unfold token_spent. now rewrite Hi, Hu. Qed.

Lemma token_spent_log (l : list string) (w : World) :
  token_spent E t w → token_spent E t (with_log l w).
Proof. intros H. exact (token_spent_same w _ eq_refl eq_refl H). Qed.

Lemma keeps_loadUsers : keeps (token_spent E t) loadUsers (λ _, True).
Proof.
  intros w w' r HI H. split; [|trivial]. rewrite loadUsers_run in H.
  destruct (users_yml w) eqn:Hf; [destruct (users_yml_writable w)| | |];
    injection H as <- _;
    first [assumption | exact (token_spent_same w _ eq_refl eq_refl HI)].
Qed.

Lemma keeps_saveUsers (users : val) : keeps (token_spent E t) (saveUsers users) (λ _, True).
Proof.
  intros w w' r HI H. split; [|trivial]. rewrite saveUsers_run in H.
  destruct (users_yml_writable w); injection H as <- _; [|assumption].
  exact (token_spent_same w _ eq_refl eq_refl HI).
Qed.

Lemma keeps_generateHash (p : val) : keeps (token_spent E t) (generateHash E p) (λ _, True).
Proof.
  intros w w' r HI H. split; [|trivial].
  destruct (generateHash_world E p w) as (r0 & Hr & _). rewrite Hr in H.
  now injection H as <- _.
Qed.

Lemma keeps_date_now : keeps (token_spent E t) (date_now E) (λ _, True).
Proof.
  intros w w' r HI [= <- _]. split; [|trivial]. exact (token_spent_same w _ eq_refl eq_refl HI).
Qed.

Lemma keeps_send_invite_mail (email : val) (link : string) :
  keeps (token_spent E t) (send_invite_mail E email link) (λ _, True).
Proof.
  intros w w' r HI H. split; [|trivial]. unfold send_invite_mail, logger in H.
  destruct (smtp E); injection H as <- _; exact (token_spent_same w _ eq_refl eq_refl HI).
Qed.

Lemma keeps_uuidv4 : keeps (token_spent E t) (uuidv4 E) (λ token, token ≠ t).
Proof.
  intros w w' r [Him Hn] [= <- <-]. split.
  - split; [exact Him|]. intros n Hle. apply Hn. simpl in Hle. lia.
  - intros a [= <-]. apply Hn. lia.
Qed.

Lemma keeps_loadInvites :
  keeps (token_spent E t) loadInvites (λ v, ∃ im, v = Obj im ∧ im !! t = None).
Proof.
  intros w w' r HI H. pose proof HI as [(im & Hf & Ht) _].
  rewrite loadInvites_run, Hf in H. injection H as <- <-.
  split; [assumption|]. intros a [= <-]. eauto.
Qed.

Lemma keeps_saveInvites (im : gmap string val) :
  im !! t = None → keeps (token_spent E t) (saveInvites (Obj im)) (λ _, True).
Proof.
  intros Ht w w' r HI H. split; [|trivial]. rewrite saveInvites_run in H.
  destruct (invites_json_writable w) eqn:Hw; injection H as <- _.
  - split; [exists im; auto | exact (proj2 HI)].
  - exact HI.
Qed.

End Spent.

Section SpentHandlers.

Variables (E : Env) (t : string).

Let I : World → Prop := token_spent E t.

Lemma keeps_lift_any {A} (r : result A) : keeps I (lift r) (λ _, True).
Proof. now apply keeps_lift. Qed.

Lemma keeps_ret_any {A} (a : A) : keeps I (ret a) (λ _, True).
Proof. now apply keeps_ret. Qed.

Lemma keeps_log_line (line : string) : keeps I (logger line) (λ _, True).
Proof. apply keeps_logger. intros l w. apply token_spent_log. Qed.

Lemma keeps_assign_if_defined (users : val) (username f : string) (v v' : val) :
  keeps I (assign_if_defined users username f v v') (λ _, True).
Proof.
  unfold assign_if_defined. destruct (defined v);
    [apply keeps_lift_any | apply keeps_ret_any].
Qed.

Lemma keeps_handler (ctx : string) (h : M Response) :
  keeps I h (λ _, True) → keeps I (try_500 ctx h) (λ _, True).
Proof. apply keeps_try_500. intros l w. apply token_spent_log. Qed.

(** One step of a handler that does not touch the invites file. *)
Ltac keeps_step :=
  first
    [ apply keeps_ret_any
    | apply keeps_handler
    | eapply keeps_bind;
      [ first [ apply keeps_loadUsers | apply keeps_saveUsers
              | apply keeps_generateHash | apply keeps_log_line
              | apply keeps_lift_any | apply keeps_assign_if_defined
              | apply keeps_date_now | apply keeps_send_invite_mail ]
      | intros ? _ ]
    | match goal with
      | |- keeps _ (if ?b then _ else _) _ => destruct b
      end ].

Lemma keeps_get_api_users (req : Request) : keeps I (get_api_users req) (λ _, True).
Proof. unfold get_api_users. repeat keeps_step. Qed.

Lemma keeps_post_api_users (req : Request) : keeps I (post_api_users E req) (λ _, True).
Proof. unfold post_api_users. repeat keeps_step. Qed.

Lemma keeps_put_api_users (req : Request) : keeps I (put_api_users req) (λ _, True).
Proof. unfold put_api_users. repeat keeps_step. Qed.

Lemma keeps_post_api_users_password (req : Request) :
  keeps I (post_api_users_password E req) (λ _, True).
Proof. unfold post_api_users_password. repeat keeps_step. Qed.

Lemma keeps_delete_api_users (req : Request) : keeps I (delete_api_users req) (λ _, True).
Proof. unfold delete_api_users. repeat keeps_step. Qed.

Lemma keeps_del_invite (im : gmap string val) (k : string) :
  im !! t = None →
  keeps I (lift (del (Obj im) k)) (λ v, ∃ im', v = Obj im' ∧ im' !! t = None).
Proof.
  intros Ht. apply keeps_lift. intros a Ha.
  apply del_Ret in Ha as (m & [= <-] & _ & ->).
  exists (delete k im). split; [reflexivity|].
  apply lookup_delete_None. now right.
Qed.

Lemma keeps_post_api_invite_accept (req : Request) :
  keeps I (post_api_invite_accept E req) (λ _, True).
Proof.
  unfold post_api_invite_accept. apply keeps_handler.
  match goal with |- keeps _ (if ?b then _ else _) _ => destruct b end;
    [apply keeps_ret_any|].
  eapply keeps_bind; [apply keeps_loadInvites|]. intros invites (im & -> & Ht).
  do 2 keeps_step. keeps_step; [keeps_step|]. do 3 keeps_step.
  match goal with |- keeps _ (if ?b then _ else _) _ => destruct b end.
  - eapply keeps_bind; [now apply keeps_del_invite|]. intros ? (im' & -> & Ht').
    eapply keeps_bind; [now apply keeps_saveInvites|]. intros _ _. apply keeps_ret_any.
  - do 3 keeps_step. keeps_step; [keeps_step|]. do 6 keeps_step.
    eapply keeps_bind; [now apply keeps_del_invite|]. intros ? (im' & -> & Ht').
    eapply keeps_bind; [now apply keeps_saveInvites|]. intros _ _.
    repeat keeps_step.
Qed.

Lemma keeps_post_api_invite (req : Request) :
  keeps I (post_api_invite E req) (λ _, True).
Proof.
  unfold post_api_invite. apply keeps_handler.
  match goal with |- keeps _ (if ?b then _ else _) _ => destruct b end;
    [apply keeps_ret_any|].
  eapply keeps_bind; [apply keeps_uuidv4|]. intros token Htoken.
  eapply keeps_bind; [apply keeps_loadInvites|]. intros invites (im & -> & Ht).
  do 6 keeps_step.
  eapply keeps_bind;
    [apply (keeps_lift _ _ (λ v, ∃ im', v = Obj im' ∧ im' !! t = None))|].
  { intros v Hv. apply set_Ret in Hv as (m & [= <-] & _ & ->).
    eexists. split; [reflexivity|]. now rewrite lookup_insert_ne. }
  intros ? (im' & -> & Ht').
  eapply keeps_bind; [now apply keeps_saveInvites|]. intros _ _.
  repeat keeps_step.
Qed.

(** Every route keeps a spent token spent. *)
Lemma keeps_app (r : Route) (req : Request) : keeps I (app E r req) (λ _, True).
Proof.
  assert (Hlog : ∀ l w, I w → I (with_log l w)) by (intros l w; apply token_spent_log).
  destruct r; simpl;
    try (apply keeps_admin_only; [exact Hlog|]);
    auto using keeps_get_api_users, keeps_post_api_users, keeps_put_api_users,
      keeps_post_api_users_password, keeps_delete_api_users, keeps_post_api_invite,
      keeps_post_api_invite_accept, keeps_ret_any.
Qed.

Lemma serve_token_spent (requests : list (Route * Request)) (w : World) :
  token_spent E t w → token_spent E t (serve E requests w).
Proof.
  revert w. induction requests as [|[r req] rest IH]; intros w HI; simpl; [assumption|].
  apply IH. destruct (app E r req w) as [w' res] eqn:Happ.
  exact (proj1 (keeps_app r req w w' res HI Happ)).
Qed.

End SpentHandlers.

(** The tokens that [POST /api/invite] hands out are spent for good.  Once
    [accept] has answered success or "token expired" for a token, the
    token is gone from the invites file.  When the token names no member
    of [Object.prototype], as every string [uuidv4] makes
    ([uuid_not_inherited]), the next [accept] that names it, whatever the
    username, the password and the surroundings, is refused with "invalid
    token" and changes nothing; and so is an [accept] that comes after any
    further requests to the service, as [uuidv4] does not make the same
    token again.  An invitation whose [expiresAt] is below the current
    time is refused with "token expired" and removed from the invites
    file. *)
Theorem spent_token_is_invalid (E : Env) (req : Request) (w : World) :
  (∀ w' resp,
     post_api_invite_accept E req w = (w', Ret resp) →
     resp = json 200 ok ∨ resp = json 400 (error "token expired") →
     ∃ t, field (body req) "token" = Str t ∧
          stored_invite w' t = None ∧
          (inherited t = false →
           (∀ E' req' w'',
              invites_json w'' = invites_json w' →
              field (body req') "token" = Str t →
              truthy (field (body req') "username") = true →
              truthy (field (body req') "password") = true →
              post_api_invite_accept E' req' w''
                = (w'', Ret (json 400 (error "invalid token")))) ∧
           ((∀ n, (uuid_calls w' ≤ n)%nat → uuid E n ≠ t) →
            ∀ later req',
              field (body req') "token" = Str t →
              truthy (field (body req') "username") = true →
              truthy (field (body req') "password") = true →
              post_api_invite_accept E req' (serve E later w')
                = (serve E later w', Ret (json 400 (error "invalid token"))))))
  ∧ (∀ t u im inv e,
       field (body req) "token" = Str t → field (body req) "username" = Str u →
       t ≠ "" → u ≠ "" → truthy (field (body req) "password") = true →
       holds_invites w im → t ≠ "__proto__" → im !! t = Some (Obj inv) →
       inv !! "expiresAt" = Some (Num e) → safe_integer e = true →
       e < clock E (clock_reads w) →
       invites_json_writable w = true →
       ∃ w', post_api_invite_accept E req w
               = (w', Ret (json 400 (error "token expired"))) ∧
             stored_invite w' t = None).
Proof.
  split.
  - intros w' resp H Hr.
    destruct (accept_spends_token E req w w' resp H Hr) as (t & im & Htoken & Hne & Hproto & Hfile).
    exists t. split; [exact Htoken|]. split; [|intros Hinh; split].
    + rewrite (stored_invite_doc _ _ _ Hfile). apply lookup_delete_eq.
    + intros E' req' w'' Hsame Htoken' Hu' Hp'.
      apply (accept_unknown_token E' req' w'' t (delete t im)); try assumption.
      * unfold holds_invites. now rewrite Hsame.
      * apply lookup_delete_eq.
    + intros Huuid later req' Htoken' Hu' Hp'.
      assert (Hspent : token_spent E t w').
      { split; [|exact Huuid]. exists (delete t im). split; [exact Hfile|].
        apply lookup_delete_eq. }
      apply (serve_token_spent E t later) in Hspent as [(im' & Hfile' & Ht') _].
      now apply (accept_unknown_token E req' _ t im').
  - intros t u im inv e Htoken Hu Hne Hune Hp Him Hproto Hinv He Hsafe Hlt Hw.
    destruct (accept_expired E req w t u im inv Htoken Hu Hne Hune Hp Him Hproto Hinv
                e He Hsafe Hlt Hw) as (w' & Hrun & Hfile & _).
    exists w'. split; [exact Hrun|].
    rewrite (stored_invite_doc _ _ _ Hfile). apply lookup_delete_eq.
Qed.

Lemma spent_token_is_invalid_witness :
  post_api_invite_accept sample_env (accept_request sample_token "bob" "secret1")
    world_bob_invited = (world_bob_accepted, Ret (json 200 ok)) ∧
  post_api_invite_accept sample_env (accept_request sample_token "eve" "secret2")
    world_bob_accepted = (world_bob_accepted, Ret (json 400 (error "invalid token"))) ∧
  post_api_invite_accept sample_env (accept_request sample_token "eve" "secret2")
    (serve sample_env later_requests world_bob_accepted)
    = (serve sample_env later_requests world_bob_accepted,
       Ret (json 400 (error "invalid token"))).
Proof.
  assert (Hfirst : post_api_invite_accept sample_env
                     (accept_request sample_token "bob" "secret1") world_bob_invited
                   = (world_bob_accepted, Ret (json 200 ok))).
  { vm_compute. reflexivity. }
  split; [exact Hfirst|].
  destruct (proj1 (spent_token_is_invalid sample_env
                     (accept_request sample_token "bob" "secret1") world_bob_invited)
              _ _ Hfirst (or_introl eq_refl)) as (t & Htoken & _ & Hreplay).
  assert (t = sample_token) as ->.
  { vm_compute in Htoken. injection Htoken as <-. reflexivity. }
  destruct (Hreplay eq_refl) as [Hnext Hlater].
  split; [apply Hnext; reflexivity|].
  apply Hlater; try reflexivity.
  intros n Hn. destruct n as [|n]; [|discriminate].
  exfalso. vm_compute in Hn. lia.
Defined.

(** C2 (defect in the code).  A token that [accept] has once accepted must
    be refused with "invalid token" from then on.  For the token
    [constructor], for which no invitation was ever made, the code
    accepts: [invites[token]] finds the member that every object inherits
    from [Object.prototype], it has no [expiresAt], so the test of the
    expiry passes and a user is created, without email or groups.  The
    [delete] that follows removes nothing, and the next [accept] with the
    same token is accepted again and creates another user. *)
Theorem accept_admits_constructor_token :
  stored_invite world_alice "constructor" = None ∧
  post_api_invite_accept sample_env (accept_request "constructor" "mallory" "secret1")
    world_alice = (world_mallory, Ret (json 200 ok)) ∧
  stored_user world_mallory "mallory"
    = Some (obj_lit [ ("displayname", Str "mallory");
                      ("password", Str "$argon2id$v=19$m=65536,t=3,p=4$c2FsdA$aGFzaA") ]) ∧
  post_api_invite_accept sample_env (accept_request "constructor" "eve" "secret2")
    world_mallory = (world_eve, Ret (json 200 ok)) ∧
  stored_user world_eve "eve"
    = Some (obj_lit [ ("displayname", Str "eve");
                      ("password", Str "$argon2id$v=19$m=65536,t=3,p=4$c2FsdA$aGFzaA") ]) ∧
  stored_user world_alice "eve" = None.
Proof. repeat split; vm_compute; reflexivity. Qed.

(** * Further properties of the code *)

(** ** The store adapters *)

(** X1. [loadInvites] never fails and never writes: whatever the invites
    file is, it returns a value and leaves both files as they are; when
    the file is absent, cannot be read, cannot be parsed or is empty, the
    value is the empty object, and otherwise it is the parsed document. *)
Theorem loadInvites_never_fails (w : World) :
  ∃ w' v,
    loadInvites w = (w', Ret v) ∧
    invites_json w' = invites_json w ∧ users_yml w' = users_yml w ∧
    (∀ d, invites_json w = Doc d → d ≠ Undef → v = d) ∧
    ((∀ d, invites_json w = Doc d → d = Undef) → v = Obj ∅).
Proof.
  rewrite loadInvites_run.
  destruct (invites_json w) as [| | |d] eqn:Hf.
  1-3: eexists _, _; split; [reflexivity|]; repeat split;
       solve [assumption | reflexivity | discriminate].
  assert (Hd : d = Undef ∨ d ≠ Undef) by (destruct d; auto; right; discriminate).
  destruct Hd as [-> | Hd].
  - eexists _, _. split; [reflexivity|]. repeat split; try assumption.
    intros d [= <-] Hne. congruence.
  - exists w, d. split; [now destruct d|]. repeat split; try assumption.
    + now intros d' [= <-] _.
    + intros Hall. now specialize (Hall d eq_refl).
Qed.


(** ** Strings: trimming, cutting and joining *)

Lemma trim_start_idempotent (s : string) : trim_start (trim_start s) = trim_start s.
Proof.
  induction s as [|c t IH]; simpl; [reflexivity|].
  destruct (is_space c) eqn:Hc; [exact IH|]. simpl. now rewrite Hc.
Qed.

Lemma trim_start_clean (s : string) : starts_clean (trim_start s) = true.
Proof.
  induction s as [|c t IH]; simpl; [reflexivity|].
  destruct (is_space c) eqn:Hc; [exact IH|]. simpl. now rewrite Hc.
Qed.

Lemma trim_start_of_clean (s : string) : starts_clean s = true → trim_start s = s.
Proof.
  destruct s as [|c t]; simpl; [reflexivity|].
  intros H. apply negb_true_iff in H. now rewrite H.
Qed.

Lemma trim_start_suffix (s : string) : ∃ pre, s = pre +:+ trim_start s.
Proof.
  induction s as [|c t (pre & IH)]; simpl.
  - now exists "".
  - destruct (is_space c).
    + exists (String c pre). rewrite app_String. now f_equal.
    + now exists "".
Qed.

Lemma list_ascii_of_string_app (a b : string) :
  list_ascii_of_string (a +:+ b) = (list_ascii_of_string a ++ list_ascii_of_string b)%list.
Proof.
  induction a as [|c a IH]; [reflexivity|].
  rewrite app_String. simpl. now rewrite IH.
Qed.

Lemma string_of_list_ascii_app (x y : list ascii) :
  string_of_list_ascii (x ++ y) = string_of_list_ascii x +:+ string_of_list_ascii y.
Proof.
  induction x as [|c x IH]; [reflexivity|].
  simpl. rewrite app_String. now rewrite IH.
Qed.

Lemma string_rev_app (a b : string) :
  string_rev (a +:+ b) = string_rev b +:+ string_rev a.
Proof.
  unfold string_rev.
  now rewrite list_ascii_of_string_app, rev_app_distr, string_of_list_ascii_app.
Qed.

(** Trimming the end keeps a clean start. *)
Lemma trim_end_clean (y : string) :
  starts_clean y = true → starts_clean (string_rev (trim_start (string_rev y))) = true.
Proof.
  intros Hy. destruct (trim_start_suffix (string_rev y)) as (pre & Hpre).
  apply (f_equal string_rev) in Hpre.
  rewrite string_rev_involutive, string_rev_app in Hpre.
  destruct (string_rev (trim_start (string_rev y))) as [|c t]; [reflexivity|].
  rewrite Hpre in Hy. exact Hy.
Qed.

Lemma trim_idempotent (s : string) : trim (trim s) = trim s.
Proof.
  unfold trim.
  rewrite (trim_start_of_clean (string_rev (trim_start (string_rev (trim_start s)))))
    by (apply trim_end_clean, trim_start_clean).
  now rewrite string_rev_involutive, trim_start_idempotent.
Qed.

(** The trimmed string sits inside the string. *)
Lemma trim_infix (s : string) : ∃ l r, s = l +:+ trim s +:+ r.
Proof.
  destruct (trim_start_suffix s) as (l & Hl).
  destruct (trim_start_suffix (string_rev (trim_start s))) as (pre & Hpre).
  apply (f_equal string_rev) in Hpre.
  rewrite string_rev_involutive, string_rev_app in Hpre.
  exists l, (string_rev pre). unfold trim. now rewrite <- Hpre.
Qed.

Lemma append_empty_r (s : string) : s +:+ "" = s.
Proof. induction s as [|c s IH]; [reflexivity|]. rewrite app_String. now f_equal. Qed.

Lemma prefix_split (p s : string) :
  String.prefix p s = true → s = p +:+ string_drop (String.length p) s.
Proof.
  revert s. induction p as [|c p IH]; intros s H; [destruct s; reflexivity|].
  destruct s as [|d s]; simpl in H; [discriminate|].
  destruct (ascii_dec c d) as [->|]; [|discriminate].
  cbn [String.length string_drop]. rewrite app_String. f_equal. now apply IH.
Qed.

Lemma prefix_of_app (p b : string) : String.prefix p (p +:+ b) = true.
Proof.
  induction p as [|c p IH]; [now destruct b|].
  rewrite app_String. simpl.
  destruct (ascii_dec c c); [exact IH | contradiction].
Qed.

Lemma prefix_extend (p a b : string) :
  String.prefix p a = true → String.prefix p (a +:+ b) = true.
Proof.
  intros H. rewrite (prefix_split _ _ H), string_app_assoc. apply prefix_of_app.
Qed.

Lemma cut_nil (sep : string) :
  cut sep "" =
    if String.prefix sep "" then Some ("", string_drop (String.length sep) "") else None.
Proof. reflexivity. Qed.

Lemma cut_cons (sep : string) (c : ascii) (t : string) :
  cut sep (String c t) =
    if String.prefix sep (String c t)
    then Some ("", string_drop (String.length sep) (String c t))
    else match cut sep t with
         | Some (before, after) => Some (String c before, after)
         | None => None
         end.
Proof. reflexivity. Qed.

(** [cut] finds an occurrence... *)
Lemma cut_sound (sep s a b : string) :
  cut sep s = Some (a, b) → s = a +:+ sep +:+ b.
Proof.
  revert a b. induction s as [|c t IH]; intros a b H.
  - rewrite cut_nil in H. destruct (String.prefix sep "") eqn:Hp; [|discriminate].
    injection H as <- <-. rewrite app_empty. now apply prefix_split.
  - rewrite cut_cons in H. destruct (String.prefix sep (String c t)) eqn:Hp.
    + injection H as <- <-. rewrite app_empty. now apply prefix_split.
    + destruct (cut sep t) as [[a' b']|]; [|discriminate].
      injection H as <- <-. rewrite app_String. f_equal. now apply IH.
Qed.

(** ... whenever there is one ... *)
Lemma cut_complete (sep a b : string) : cut sep (a +:+ sep +:+ b) ≠ None.
Proof.
  induction a as [|c a IH].
  - rewrite app_empty. pose proof (prefix_of_app sep b) as Hp.
    destruct (sep +:+ b); [rewrite cut_nil | rewrite cut_cons]; now rewrite Hp.
  - rewrite app_String, cut_cons.
    destruct (String.prefix sep (String c (a +:+ sep +:+ b))); [discriminate|].
    destruct (cut sep (a +:+ sep +:+ b)) as [[a' b']|]; [discriminate | contradiction].
Qed.

(** ... and it is the first: the text before it holds none. *)
Lemma cut_first (sep s a b : string) :
  sep ≠ "" → cut sep s = Some (a, b) → cut sep a = None.
Proof.
  intros Hsep. revert a b. induction s as [|c t IH]; intros a b H.
  - rewrite cut_nil in H. destruct sep; [contradiction | discriminate].
  - rewrite cut_cons in H. destruct (String.prefix sep (String c t)) eqn:Hp.
    + injection H as <- _. destruct sep; [contradiction | reflexivity].
    + destruct (cut sep t) as [[a' b']|] eqn:Hc; [|discriminate].
      injection H as <- <-. rewrite cut_cons.
      destruct (String.prefix sep (String c a')) eqn:Hp'.
      * pose proof (cut_sound _ _ _ _ Hc) as ->.
        apply (prefix_extend _ _ (sep +:+ b')) in Hp'.
        rewrite app_String in Hp'. congruence.
      * now rewrite (IH a' b' eq_refl).
Qed.

Lemma includes_infix (sep l m r : string) :
  includes sep m = true → includes sep (l +:+ m +:+ r) = true.
Proof.
  unfold includes. intros H.
  destruct (cut sep m) as [[a b]|] eqn:Hc; [|discriminate].
  apply cut_sound in Hc as ->.
  replace (l +:+ (a +:+ sep +:+ b) +:+ r) with ((l +:+ a) +:+ sep +:+ (b +:+ r))
    by now rewrite !string_app_assoc.
  pose proof (cut_complete sep (l +:+ a) (b +:+ r)) as Hne.
  now destruct (cut sep ((l +:+ a) +:+ sep +:+ b +:+ r)).
Qed.

Lemma includes_trim (sep s : string) : includes sep s = false → includes sep (trim s) = false.
Proof.
  intros H. destruct (includes sep (trim s)) eqn:Ht; [|reflexivity].
  destruct (trim_infix s) as (l & r & Hs).
  apply (includes_infix sep l _ r) in Ht. rewrite <- Hs in Ht. congruence.
Qed.

Lemma split_second_clean (sep s : string) :
  sep ≠ "" → includes sep (split_second sep s) = false.
Proof.
  intros Hsep. unfold split_second, includes.
  destruct (cut sep s) as [[a after]|].
  - destruct (cut sep after) as [[piece rest]|] eqn:Hc.
    + now rewrite (cut_first _ _ _ _ Hsep Hc).
    + now rewrite Hc.
  - destruct sep; [contradiction | reflexivity].
Qed.

(** X4. The hash [generateHash] returns is clean, whatever the command
    prints: it has no white space (no line end) at either end, and it
    never holds the label [Digest:] of the command's output. *)
Theorem generateHash_result_is_clean (E : Env) (password : val) (w w' : World) (h : string) :
  generateHash E password w = (w', Ret h) →
  trim h = h ∧ includes "Digest:" h = false.
Proof.
  unfold generateHash. destruct (authelia_cli E password) as [out|]; [|discriminate].
  destruct (includes "Digest:" (trim out)) eqn:Hd; intros [= _ <-].
  - split; [apply trim_idempotent|].
    apply includes_trim, split_second_clean. discriminate.
  - split; [apply trim_idempotent | exact Hd].
Qed.

Lemma generateHash_result_is_clean_witness :
  generateHash sample_env (Str "secret1") world_alice
    = (world_alice, Ret "$argon2id$v=19$m=65536,t=3,p=4$c2FsdA$aGFzaA") ∧
  trim "$argon2id$v=19$m=65536,t=3,p=4$c2FsdA$aGFzaA"
    = "$argon2id$v=19$m=65536,t=3,p=4$c2FsdA$aGFzaA".
Proof.
  assert (H : generateHash sample_env (Str "secret1") world_alice
              = (world_alice, Ret "$argon2id$v=19$m=65536,t=3,p=4$c2FsdA$aGFzaA"))
    by (vm_compute; reflexivity).
  split; [exact H|].
  exact (proj1 (generateHash_result_is_clean _ _ _ _ _ H)).
Defined.

Lemma split_sep_of_sep_free (g : string) : sep_free g = true → split_sep g = [g].
Proof.
  induction g as [|c g IH]; [reflexivity|]. intros H. cbn [sep_free] in H.
  apply andb_prop in H as [Hc Hg]. apply negb_true_iff in Hc.
  now rewrite (split_sep_at_char _ _ Hc), (IH Hg).
Qed.

Lemma split_sep_comma (g t : string) :
  sep_free g = true → first_is_sep t = false →
  split_sep (g +:+ "," +:+ t) = g :: split_sep t.
Proof.
  intros Hg Ht. induction g as [|c g IH].
  - rewrite app_empty, app_String, app_empty.
    now rewrite (split_sep_at_sep "," t eq_refl), Ht.
  - cbn [sep_free] in Hg. apply andb_prop in Hg as [Hc Hg]. apply negb_true_iff in Hc.
    now rewrite app_String, (split_sep_at_char _ _ Hc), (IH Hg).
Qed.

Lemma join_comma_cons (g g' : string) (rest : list string) :
  join_comma (g :: g' :: rest) = g +:+ "," +:+ join_comma (g' :: rest).
Proof. reflexivity. Qed.

Lemma join_comma_first (g : string) (rest : list string) :
  g ≠ "" → sep_free g = true → first_is_sep (join_comma (g :: rest)) = false.
Proof.
  intros Hne Hg. destruct rest as [|g' rest].
  - now apply sep_free_first.
  - rewrite join_comma_cons, first_is_sep_app by assumption. now apply sep_free_first.
Qed.

Lemma split_sep_join_comma (g : string) (rest : list string) :
  Forall (λ g, g ≠ "" ∧ sep_free g = true) (g :: rest) →
  split_sep (join_comma (g :: rest)) = g :: rest.
Proof.
  revert g. induction rest as [|g' rest IH]; intros g H.
  - apply split_sep_of_sep_free. now inversion H as [|? ? [_ Hg] _].
  - inversion H as [|? ? [_ Hg] Hrest]; subst.
    rewrite join_comma_cons, split_sep_comma; try assumption.
    + now rewrite IH.
    + inversion Hrest as [|? ? [Hne' Hg'] _]; subst. now apply join_comma_first.
Qed.

Lemma filter_nonempty_id (gs : list string) :
  Forall (λ g, g ≠ "" ∧ sep_free g = true) gs →
  filter (λ g, nonempty g = true) gs = gs.
Proof.
  induction 1 as [|g gs [Hne _] _ IH]; [reflexivity|].
  rewrite filter_cons, IH. apply nonempty_true in Hne.
  now destruct (decide (nonempty g = true)).
Qed.

(** X5. The groups [checkAdmin] reads from a header value are never empty
    and never hold a comma or white space; joining groups of that kind
    with commas, as [checkAdmin] does for its log line, and reading the
    result again gives the same groups back, in the same order. *)
Theorem parse_groups_round_trip :
  (∀ raw, Forall (λ g, g ≠ "" ∧ sep_free g = true) (parse_groups raw)) ∧
  (∀ gs, Forall (λ g, g ≠ "" ∧ sep_free g = true) gs →
         parse_groups (join_comma gs) = gs) ∧
  (∀ raw, parse_groups (join_comma (parse_groups raw)) = parse_groups raw).
Proof.
  assert (Hinv : ∀ raw, Forall (λ g, g ≠ "" ∧ sep_free g = true) (parse_groups raw)).
  { intros raw. unfold parse_groups. rewrite map_trim_split_sep.
    apply Forall_forall. intros g Hg.
    apply list_elem_of_filter in Hg as [Hne Hin].
    split; [now apply nonempty_true|].
    pose proof (split_sep_pieces_sep_free raw) as HF.
    rewrite Forall_forall in HF. now apply HF. }
  assert (Hrt : ∀ gs, Forall (λ g, g ≠ "" ∧ sep_free g = true) gs →
                      parse_groups (join_comma gs) = gs).
  { intros gs Hgs. unfold parse_groups. rewrite map_trim_split_sep.
    destruct gs as [|g rest]; [reflexivity|].
    rewrite (split_sep_join_comma _ _ Hgs). now apply filter_nonempty_id. }
  split; [exact Hinv|]. split; [exact Hrt|].
  intros raw. apply Hrt, Hinv.
Qed.

Example join_parse_groups_ex :
  join_comma (parse_groups " dev, admins	ops ") = "dev,admins,ops".
Proof. reflexivity. Qed.

(** ** Deleting a user and changing a password *)

Lemma delete_api_users_removes (req : Request) (w : World) (m : gmap string val) (v : val) :
  holds_users w m → param_username req ≠ "__proto__" →
  m !! param_username req = Some v → truthy v = true →
  users_yml_writable w = true →
  ∃ w', delete_api_users req w = (w', Ret (json 200 ok)) ∧
        users_yml w' = Doc (obj_lit [("users", Obj (delete (param_username req) m))]) ∧
        users_yml_writable w' = users_yml_writable w ∧
        invites_json w' = invites_json w ∧ outbox w' = outbox w.
Proof.
  intros Hm Hproto Hv Ht Hw.
  unfold delete_api_users, try_500, bind, lift, ret.
  rewrite (loadUsers_holds _ _ Hm), (get_own _ _ _ Hproto Hv), Ht. cbn [negb].
  rewrite (del_plain _ _ Hproto), (saveUsers_writable _ _ Hw). cbn.
  eexists. split; [reflexivity|]. repeat split.
Qed.


Lemma post_api_users_password_not_found (E : Env) (req : Request) (w : World)
    (m : gmap string val) :
  holds_users w m → inherited (param_username req) = false →
  m !! param_username req = None →
  truthy (field (body req) "password") = true →
  post_api_users_password E req w = (w, Ret (json 404 (error "User not found"))).
Proof.
  intros Hm Hinh Hu Hp. unfold post_api_users_password, try_500, bind, lift, ret.
  rewrite Hp. cbn [negb].
  now rewrite (loadUsers_holds _ _ Hm), (get_absent _ _ Hinh Hu).
Qed.

Lemma post_api_users_password_changes (E : Env) (req : Request) (w : World)
    (m r : gmap string val) (h : string) :
  holds_users w m → param_username req ≠ "__proto__" →
  m !! param_username req = Some (Obj r) →
  truthy (field (body req) "password") = true →
  hash_of E (field (body req) "password") = Some h →
  users_yml_writable w = true →
  ∃ w', post_api_users_password E req w = (w', Ret (json 200 ok)) ∧
        users_yml w' =
          Doc (obj_lit [("users",
            Obj (<[param_username req := Obj (<["password" := Str h]> r)]> m))]) ∧
        invites_json w' = invites_json w ∧ outbox w' = outbox w.
Proof.
  intros Hm Hproto Hr Hp Hh Hw.
  unfold post_api_users_password, try_500, bind, lift, ret.
  rewrite Hp. cbn [negb].
  rewrite (loadUsers_holds _ _ Hm), (get_own _ _ _ Hproto Hr). cbn [truthy negb].
  rewrite (proj1 (generateHash_hash_of E _ h w) Hh).
  rewrite (set_in_record m r _ "password" _ Hproto) by (discriminate || assumption).
  rewrite (saveUsers_writable _ _ Hw). cbn.
  eexists. split; [reflexivity|]. repeat split.
Qed.



(** X7. Changing the password of a stored user answers 200 and replaces
    the [password] of that record by the hash of the new password: every
    other field of the record, every other user, the invites file and the
    outbox stay as they were.  Without a [password] in the body the answer
    is 400 and nothing is read or written; for a username that is not
    stored and names no member of [Object.prototype] it is 404, and
    nothing changes. *)
Theorem password_change_replaces_hash (E : Env) (req : Request) (w : World) :
  (truthy (field (body req) "password") = false →
     post_api_users_password E req w = (w, Ret (json 400 (error "password fehlt")))) ∧
  (∀ m, truthy (field (body req) "password") = true → holds_users w m →
     (inherited (param_username req) = false → m !! param_username req = None →
        post_api_users_password E req w = (w, Ret (json 404 (error "User not found")))) ∧
     (∀ r h, param_username req ≠ "__proto__" →
        m !! param_username req = Some (Obj r) →
        hash_of E (field (body req) "password") = Some h →
        users_yml_writable w = true →
        ∃ w' r',
          post_api_users_password E req w = (w', Ret (json 200 ok)) ∧
          stored_user w' (param_username req) = Some (Obj r') ∧
          r' !! "password" = Some (Str h) ∧
          (∀ f, f ≠ "password" → r' !! f = r !! f) ∧
          (∀ u', u' ≠ param_username req → stored_user w' u' = m !! u') ∧
          invites_json w' = invites_json w ∧ outbox w' = outbox w)).
Proof.
  split.
  - intros Hp. unfold post_api_users_password, try_500, ret. now rewrite Hp.
  - intros m Hp Hm. split.
    + intros Hinh Hu. now apply (post_api_users_password_not_found E req w m).
    + intros r h Hproto Hr Hh Hw.
      destruct (post_api_users_password_changes E req w m r h Hm Hproto Hr Hp Hh Hw)
        as (w' & Hrun & Hdoc & Hinv & Hout).
      exists w', (<["password" := Str h]> r). split; [exact Hrun|].
      split; [rewrite (stored_user_doc _ _ _ Hdoc); apply lookup_insert_eq|].
      split; [apply lookup_insert_eq|].
      split; [intros f Hf; now apply lookup_insert_ne|].
      split; [|split; assumption].
      intros u' Hu'. rewrite (stored_user_doc _ _ _ Hdoc). now apply lookup_insert_ne.
Qed.

Lemma password_change_replaces_hash_witness :
  ∃ w' r',
    post_api_users_password sample_env
      (request_with [] "alice" [("password", Str "secret2")]) world_alice
      = (w', Ret (json 200 ok)) ∧
    stored_user w' "alice" = Some (Obj r') ∧
    r' !! "password" = Some (Str "$argon2id$v=19$m=65536,t=3,p=4$c2FsdA$aGFzaA") ∧
    r' !! "email" = Some (Str "alice@example.com").
Proof.
  assert (Hm : holds_users world_alice (obj_fields [("alice", alice_record)])).
  { apply holds_users_doc. reflexivity. }
  destruct (proj2 (proj2 (password_change_replaces_hash sample_env
                            (request_with [] "alice" [("password", Str "secret2")])
                            world_alice)
                     _ eq_refl Hm)
              (obj_fields [ ("displayname", Str "Alice"); ("email", Str "alice@example.com");
                            ("password", Str "$argon2id$v=19$m=65536,t=3,p=4$c2FsdA$b2xk");
                            ("groups", Arr [Str "admins"]) ])
              "$argon2id$v=19$m=65536,t=3,p=4$c2FsdA$aGFzaA"
              ltac:(discriminate) eq_refl eq_refl eq_refl)
    as (w' & r' & Hrun & Hst & Hpw & Hframe & _).
  exists w', r'. split; [exact Hrun|]. split; [exact Hst|]. split; [exact Hpw|].
  rewrite Hframe by discriminate. reflexivity.
Defined.

(** ** Bodies that fail validation *)

(** X8. A body without the fields a handler requires is answered with 400
    before any file is read: creating a user needs [username] and then
    [password], an invitation needs [email], accepting an invitation needs
    [token], [username] and [password].  The world is left exactly as it
    was: no file, log line, clock reading or token is touched. *)
Theorem invalid_body_changes_nothing (E : Env) (req : Request) (w : World) :
  (truthy (field (body req) "username") = false →
     post_api_users E req w = (w, Ret (json 400 (error "username fehlt")))) ∧
  (truthy (field (body req) "username") = true →
   truthy (field (body req) "password") = false →
     post_api_users E req w = (w, Ret (json 400 (error "password fehlt")))) ∧
  (truthy (field (body req) "email") = false →
     post_api_invite E req w = (w, Ret (json 400 (error "email fehlt")))) ∧
  (truthy (field (body req) "token") = false ∨
   truthy (field (body req) "username") = false ∨
   truthy (field (body req) "password") = false →
     post_api_invite_accept E req w
       = (w, Ret (json 400 (error "token/username/password required")))).
Proof.
  repeat split.
  - intros Hu. unfold post_api_users, try_500, ret. now rewrite Hu.
  - intros Hu Hp. unfold post_api_users, try_500, ret. now rewrite Hu, Hp.
  - intros He. unfold post_api_invite, try_500, ret. now rewrite He.
  - intros H. unfold post_api_invite_accept, try_500, ret.
    destruct H as [H | [H | H]]; rewrite H; cbn [negb orb];
      rewrite ?orb_true_r; reflexivity.
Qed.

Lemma invalid_body_changes_nothing_witness :
  post_api_invite_accept sample_env (request_with [] "" [("token", Str sample_token)])
    world_bob_invited
    = (world_bob_invited, Ret (json 400 (error "token/username/password required"))).
Proof.
  apply (proj2 (proj2 (proj2 (invalid_body_changes_nothing sample_env
                 (request_with [] "" [("token", Str sample_token)]) world_bob_invited)))).
  right. left. reflexivity.
Defined.

(** ** The invitation mail *)

Lemma post_api_invite_outbox (E : Env) (req : Request) (w : World)
    (im : gmap string val) (n : Z) :
  truthy (field (body req) "email") = true →
  loaded_invites (invites_json w) = Some im →
  to_number (requested_minutes (body req)) = Ret n →
  safe_integer (n * 60) = true →
  safe_integer (n * 60 * 1000) = true →
  safe_integer (clock E (S (clock_reads w)) + n * 60 * 1000) = true →
  uuid E (uuid_calls w) ≠ "__proto__" →
  invites_json_writable w = true →
  ∃ w', post_api_invite E req w = (w', Ret (invite_response E (uuid E (uuid_calls w)))) ∧
        outbox w' =
          match smtp E with
          | Some _ => mkMail (field (body req) "email")
                             (invite_link E (uuid E (uuid_calls w))) :: outbox w
          | None => outbox w
          end.
Proof.
  intros Hemail Hload Hmin Hs1 Hs2 Hs3 Hproto Hw.
  destruct (loadInvites_loaded (with_uuid_calls (S (uuid_calls w)) w) im Hload) as (l & Hl).
  unfold post_api_invite, try_500, bind, lift, ret, uuidv4, date_now.
  rewrite Hemail. cbn [negb]. rewrite Hl.
  fold (requested_minutes (body req)). rewrite Hmin.
  unfold number. rewrite Hs1, Hs2.
  cbn [clock_reads with_log with_uuid_calls with_clock_reads].
  rewrite Hs3, (set_plain _ _ _ Hproto).
  rewrite saveInvites_writable by exact Hw.
  unfold send_invite_mail, logger. destruct (smtp E) as [deliver|];
    (eexists; split; [reflexivity|]; reflexivity).
Qed.

Lemma post_api_invite_unwritable (E : Env) (req : Request) (w : World)
    (im : gmap string val) (n : Z) :
  truthy (field (body req) "email") = true →
  loaded_invites (invites_json w) = Some im →
  to_number (requested_minutes (body req)) = Ret n →
  safe_integer (n * 60) = true →
  safe_integer (n * 60 * 1000) = true →
  safe_integer (clock E (S (clock_reads w)) + n * 60 * 1000) = true →
  uuid E (uuid_calls w) ≠ "__proto__" →
  invites_json_writable w = false →
  ∃ w', post_api_invite E req w = (w', Ret (json 500 (error "EACCES: permission denied"))) ∧
        outbox w' = outbox w ∧ invites_json w' = invites_json w ∧
        users_yml w' = users_yml w.
Proof.
  intros Hemail Hload Hmin Hs1 Hs2 Hs3 Hproto Hw.
  destruct (loadInvites_loaded (with_uuid_calls (S (uuid_calls w)) w) im Hload) as (l & Hl).
  unfold post_api_invite, try_500, bind, lift, ret, uuidv4, date_now.
  rewrite Hemail. cbn [negb]. rewrite Hl.
  fold (requested_minutes (body req)). rewrite Hmin.
  unfold number. rewrite Hs1, Hs2.
  cbn [clock_reads with_log with_uuid_calls with_clock_reads].
  rewrite Hs3, (set_plain _ _ _ Hproto).
  rewrite saveInvites_run. cbn [invites_json_writable with_log with_uuid_calls with_clock_reads].
  rewrite Hw. eexists. split; [reflexivity|]. repeat split.
Qed.

(** X9. When an invitation is stored, [POST /api/invite] hands exactly one
    mail to the transporter if one is configured, addressed to the [email]
    of the body and carrying the link of the answer; whether the delivery
    succeeds does not change the answer.  Without a transporter no mail is
    sent.  When the invites file cannot be written the answer is 500 and
    no mail is sent. *)
Theorem invite_sends_one_mail (E : Env) (req : Request) (w : World)
    (im : gmap string val) (n : Z) :
  truthy (field (body req) "email") = true →
  loaded_invites (invites_json w) = Some im →
  to_number (requested_minutes (body req)) = Ret n →
  safe_integer (n * 60) = true →
  safe_integer (n * 60 * 1000) = true →
  safe_integer (clock E (S (clock_reads w)) + n * 60 * 1000) = true →
  uuid E (uuid_calls w) ≠ "__proto__" →
  (invites_json_writable w = true →
     ∃ w' resp,
       post_api_invite E req w = (w', Ret resp) ∧ status resp = 200 ∧
       prop (payload resp) "link" = Some (Str (invite_link E (uuid E (uuid_calls w)))) ∧
       (∀ deliver, smtp E = Some deliver →
          outbox w' = mkMail (field (body req) "email")
                             (invite_link E (uuid E (uuid_calls w))) :: outbox w) ∧
       (smtp E = None → outbox w' = outbox w)) ∧
  (invites_json_writable w = false →
     ∃ w', post_api_invite E req w = (w', Ret (json 500 (error "EACCES: permission denied"))) ∧
           outbox w' = outbox w ∧ invites_json w' = invites_json w).
Proof.
  intros Hemail Hload Hmin Hs1 Hs2 Hs3 Hproto. split; intros Hw.
  - destruct (post_api_invite_outbox E req w im n Hemail Hload Hmin Hs1 Hs2 Hs3 Hproto Hw)
      as (w' & Hrun & Hout).
    exists w', (invite_response E (uuid E (uuid_calls w))).
    split; [exact Hrun|]. split; [reflexivity|]. split; [reflexivity|].
    split.
    + intros deliver Hs. now rewrite Hs in Hout.
    + intros Hs. now rewrite Hs in Hout.
  - destruct (post_api_invite_unwritable E req w im n Hemail Hload Hmin Hs1 Hs2 Hs3 Hproto Hw)
      as (w' & Hrun & Hout & Hinv & _).
    exists w'. repeat split; assumption.
Qed.

Lemma invite_sends_one_mail_witness :
  ∃ w', fst (post_api_invite (sample_env_smtp (λ _, false)) (invite_request "bob@example.com")
               world_alice) = w' ∧
        outbox w' = [mkMail (Str "bob@example.com")
                       (invite_link sample_env sample_token)].
Proof.
  destruct (proj1 (invite_sends_one_mail (sample_env_smtp (λ _, false))
              (invite_request "bob@example.com") world_alice ∅ 60
              eq_refl eq_refl eq_refl eq_refl eq_refl eq_refl
              ltac:(discriminate)) eq_refl)
    as (w' & resp & Hrun & _ & _ & Hout & _).
  exists w'. split; [now rewrite Hrun|].
  exact (Hout _ eq_refl).
Defined.

(** ** Creating and updating a user with an ordinary username *)

Lemma truthy_defined (v : val) : truthy v = true → defined v = true.
Proof. destruct v; (discriminate || reflexivity). Qed.

Lemma post_api_users_conflict (E : Env) (req : Request) (w : World)
    (m : gmap string val) (u : string) (r : val) :
  field (body req) "username" = Str u → u ≠ "" →
  truthy (field (body req) "password") = true →
  holds_users w m → u ≠ "__proto__" →
  m !! u = Some r → truthy r = true →
  post_api_users E req w = (w, Ret (json 400 (error "User exists"))).
Proof.
  intros Hu Hne Hp Hm Hproto Hr Ht.
  assert (Htu : truthy (Str u) = true) by now apply nonempty_true.
  unfold post_api_users, try_500, bind, lift, ret, to_key.
  rewrite Hu, Htu, Hp. cbn [negb].
  now rewrite (loadUsers_holds _ _ Hm), (get_own _ _ _ Hproto Hr), Ht.
Qed.

Lemma new_user_record_fields (u : string) (dn em g : val) (h : string) :
  u ≠ "" →
  prop (new_user_record (Str u) dn em g h) "displayname" = Some (js_or dn (Str u)) ∧
  default Undef (prop (new_user_record (Str u) dn em g h) "email") = em ∧
  prop (new_user_record (Str u) dn em g h) "password" = Some (Str h).
Proof.
  intros Hu. unfold new_user_record. rewrite !prop_obj_lit. simpl.
  assert (Hd : defined (js_or dn (Str u)) = true).
  { apply truthy_defined. unfold js_or. destruct (truthy dn) eqn:Ht; [exact Ht|].
    now apply nonempty_true. }
  rewrite Hd. repeat split; destruct em; reflexivity.
Qed.

(** X10. Creating a user under an ordinary username (one that names no
    member of [Object.prototype]): when a record is stored under it the
    answer is 400 "User exists" and nothing changes; when none is stored
    the answer is 200 and the store gains one record, with the hash of
    the password, the [email] of the body and the [displayname] of the
    body or else the username, while every other user and the invites
    file stay as they were.  The new user cannot be created twice. *)
Theorem create_adds_one_user (E : Env) (req : Request) (w : World)
    (m : gmap string val) (u : string) :
  field (body req) "username" = Str u → u ≠ "" →
  truthy (field (body req) "password") = true →
  holds_users w m → inherited u = false →
  (∀ r, m !! u = Some r → truthy r = true →
        post_api_users E req w = (w, Ret (json 400 (error "User exists")))) ∧
  (∀ h, m !! u = None →
        hash_of E (field (body req) "password") = Some h →
        users_yml_writable w = true →
        ∃ w' record,
          post_api_users E req w = (w', Ret (json 200 ok)) ∧
          stored_user w' u = Some record ∧
          prop record "password" = Some (Str h) ∧
          default Undef (prop record "email") = field (body req) "email" ∧
          prop record "displayname" = Some (js_or (field (body req) "displayname") (Str u)) ∧
          (∀ u', u' ≠ u → stored_user w' u' = m !! u') ∧
          invites_json w' = invites_json w ∧
          post_api_users E req w' = (w', Ret (json 400 (error "User exists")))).
Proof.
  intros Hu Hne Hp Hm Hinh. split.
  - intros r Hr Ht.
    now apply (post_api_users_conflict E req w m u r Hu Hne Hp Hm (inherited_proto _ Hinh)).
  - intros h Hfree Hh Hw.
    destruct (post_api_users_creates E req w w m u h Hu Hne Hp (loadUsers_holds _ _ Hm) Hinh)
      as (w' & Hrun & Hdoc & Hinv); try assumption.
    { now rewrite Hfree. }
    destruct (new_user_record_fields u (field (body req) "displayname")
                (field (body req) "email") (field (body req) "groups") h Hne)
      as (Hdn & Hem & Hpw).
    eexists w', _. split; [exact Hrun|].
    split; [rewrite (stored_user_doc _ _ _ Hdoc); apply lookup_insert_eq|].
    split; [exact Hpw|]. split; [exact Hem|]. split; [exact Hdn|].
    split; [intros u' Hu'; rewrite (stored_user_doc _ _ _ Hdoc);
            now apply lookup_insert_ne|].
    split; [exact Hinv|].
    apply (post_api_users_conflict E req w' _ u _ Hu Hne Hp (holds_users_doc _ _ Hdoc)
             (inherited_proto _ Hinh) (lookup_insert_eq _ _ _)).
    reflexivity.
Qed.

Lemma create_adds_one_user_witness :
  post_api_users sample_env (create_request "alice" "secret1") world_alice
    = (world_alice, Ret (json 400 (error "User exists"))).
Proof.
  assert (Hm : holds_users world_alice (obj_fields [("alice", alice_record)])).
  { apply holds_users_doc. reflexivity. }
  apply (proj1 (create_adds_one_user sample_env (create_request "alice" "secret1")
                  world_alice _ "alice" eq_refl ltac:(discriminate) eq_refl Hm eq_refl)
           alice_record); reflexivity.
Defined.

(** X11. Updating a stored user answers 200 and changes, in that user's
    record, only the fields among [email], [displayname] and [groups] that
    the body gives: every other field (the password among them), every
    other user and the invites file stay as they were.  A body that gives
    none of the three leaves the record as it was. *)
Theorem update_changes_only_given_fields (req : Request) (w : World)
    (m r : gmap string val) :
  holds_users w m → param_username req ≠ "__proto__" →
  m !! param_username req = Some (Obj r) →
  users_yml_writable w = true →
  ∃ w' r',
    put_api_users req w = (w', Ret (json 200 ok)) ∧
    stored_user w' (param_username req) = Some (Obj r') ∧
    (∀ f, f ≠ "email" → f ≠ "displayname" → f ≠ "groups" → r' !! f = r !! f) ∧
    (∀ f, defined (field (body req) f) = false → r' !! f = r !! f) ∧
    (defined (field (body req) "email") = true →
       r' !! "email" = Some (field (body req) "email")) ∧
    (defined (field (body req) "displayname") = true →
       r' !! "displayname" = Some (field (body req) "displayname")) ∧
    (∀ u', u' ≠ param_username req → stored_user w' u' = m !! u') ∧
    invites_json w' = invites_json w.
Proof.
  intros Hm Hproto Hr Hw.
  destruct (put_api_users_updates req w m r Hm Hproto Hr Hw) as (w' & Hrun & Hdoc & Hinv).
  exists w', (updated_record (body req) r). split; [exact Hrun|].
  split; [rewrite (stored_user_doc _ _ _ Hdoc); apply lookup_insert_eq|].
  split; [intros f H1 H2 H3; apply updated_record_frame; congruence|].
  split; [intros f Hf; apply updated_record_frame; intros ->; exact Hf|].
  destruct (updated_record_written (body req) r) as (He & Hd & _).
  split; [exact He|]. split; [exact Hd|]. split; [|exact Hinv].
  intros u' Hu'. rewrite (stored_user_doc _ _ _ Hdoc). now apply lookup_insert_ne.
Qed.

Lemma update_changes_only_given_fields_witness :
  ∃ w' r',
    put_api_users (update_request "alice" [("email", Str "a@example.org")]) world_alice
      = (w', Ret (json 200 ok)) ∧
    stored_user w' "alice" = Some (Obj r') ∧
    r' !! "email" = Some (Str "a@example.org") ∧
    r' !! "password" = Some (Str "$argon2id$v=19$m=65536,t=3,p=4$c2FsdA$b2xk").
Proof.
  assert (Hm : holds_users world_alice (obj_fields [("alice", alice_record)])).
  { apply holds_users_doc. reflexivity. }
  destruct (update_changes_only_given_fields
              (update_request "alice" [("email", Str "a@example.org")]) world_alice
              _ (obj_fields [ ("displayname", Str "Alice"); ("email", Str "alice@example.com");
                              ("password", Str "$argon2id$v=19$m=65536,t=3,p=4$c2FsdA$b2xk");
                              ("groups", Arr [Str "admins"]) ])
              Hm ltac:(discriminate) eq_refl eq_refl)
    as (w' & r' & Hrun & Hst & Hframe & _ & Hemail & _).
  exists w', r'. split; [exact Hrun|]. split; [exact Hst|].
  split; [exact (Hemail eq_refl)|].
  rewrite Hframe by discriminate. reflexivity.
Defined.

(** ** From an invitation to a user *)





(** ** When the hash command or a write fails *)


Lemma saveUsers_unwritable (users : val) (w : World) :
  users_yml_writable w = false →
  saveUsers users w = (w, Throw "EACCES: permission denied").
Proof. intros H. now rewrite saveUsers_run, H. Qed.

Lemma saveInvites_unwritable (invites : val) (w : World) :
  invites_json_writable w = false →
  saveInvites invites w = (w, Throw "EACCES: permission denied").
Proof. intros H. now rewrite saveInvites_run, H. Qed.

Section AcceptFails.

Variables (E : Env) (req : Request) (w : World).
Variables (t u : string) (im inv m : gmap string val) (e : Z).

Hypothesis Htoken : field (body req) "token" = Str t.
Hypothesis Husername : field (body req) "username" = Str u.
Hypothesis Ht : t ≠ "".
Hypothesis Hu : u ≠ "".
Hypothesis Hpassword : truthy (field (body req) "password") = true.
Hypothesis Hinvites : holds_invites w im.
Hypothesis Hproto : t ≠ "__proto__".
Hypothesis Hinv : im !! t = Some (Obj inv).
Hypothesis Hexpires : inv !! "expiresAt" = Some (Num e).
Hypothesis Hsafe : safe_integer e = true.
Hypothesis Hfresh : clock E (clock_reads w) ≤ e.
Hypothesis Husers : holds_users w m.
Hypothesis Hinh : inherited u = false.
Hypothesis Hfree : m !! u = None.

Ltac reach_user_creation :=
  assert (Htt : truthy (Str t) = true) by (now apply nonempty_true);
  assert (Htu : truthy (Str u) = true) by (now apply nonempty_true);
  assert (Hgt : js_gt (clock E (clock_reads w)) (Num e) = Ret false)
    by (unfold js_gt, to_number, number; rewrite Hsafe; f_equal; apply Z.ltb_ge;
        exact Hfresh);
  unfold post_api_invite_accept, try_500, bind, lift, ret, to_key, date_now, logger;
  rewrite Htoken, Husername, Htt, Htu, Hpassword; cbn [negb orb];
  rewrite (loadInvites_holds _ _ Hinvites), (get_own _ _ _ Hproto Hinv); cbn [truthy negb];
  cbv beta iota;
  rewrite (get_field_of_record inv "expiresAt" eq_refl), Hexpires;
  cbn [default from_option id];
  rewrite Hgt; cbv beta iota;
  rewrite (loadUsers_holds (with_clock_reads (S (clock_reads w)) w) m Husers);
  rewrite (get_absent _ _ Hinh Hfree); cbn [truthy].


Lemma accept_users_unwritable (h : string) :
  hash_of E (field (body req) "password") = Some h →
  users_yml_writable w = false →
  ∃ w', post_api_invite_accept E req w
          = (w', Ret (json 500 (error "EACCES: permission denied"))) ∧
        users_yml w' = users_yml w ∧ invites_json w' = invites_json w.
Proof.
  intros Hh Hw. reach_user_creation.
  rewrite (proj1 (generateHash_hash_of E _ h _) Hh).
  rewrite !get_field_of_record by reflexivity.
  rewrite (set_plain _ _ _ (inherited_proto _ Hinh)).
  rewrite saveUsers_unwritable by exact Hw.
  eexists. split; [reflexivity|]. split; reflexivity.
Qed.

Lemma accept_invites_unwritable (h : string) :
  hash_of E (field (body req) "password") = Some h →
  users_yml_writable w = true → invites_json_writable w = false →
  ∃ w', post_api_invite_accept E req w
          = (w', Ret (json 500 (error "EACCES: permission denied"))) ∧
        users_yml w' = Doc (obj_lit [("users", Obj (<[u := accepted_record inv u h]> m))]) ∧
        invites_json w' = invites_json w.
Proof.
  intros Hh Hwu Hwi. reach_user_creation.
  rewrite (proj1 (generateHash_hash_of E _ h _) Hh).
  rewrite !get_field_of_record by reflexivity.
  rewrite (set_plain _ _ _ (inherited_proto _ Hinh)).
  rewrite saveUsers_writable by exact Hwu.
  rewrite (del_plain _ _ Hproto).
  rewrite saveInvites_unwritable by exact Hwi.
  eexists. split; [reflexivity|]. split; reflexivity.
Qed.

End AcceptFails.




(** X14. Accepting an invitation writes the users file first and the
    invites file second.  When the users file cannot be written the
    answer is 500, no user is created and the invitation stays.  When the
    users file is written and the invites file cannot be, the answer is
    500 as well, yet the user has been created and the invitation is
    still in the invites file. *)
Theorem accept_write_failures (E : Env) (req : Request) (w : World)
    (t u : string) (im inv m : gmap string val) (e : Z) (h : string) :
  field (body req) "token" = Str t → field (body req) "username" = Str u →
  t ≠ "" → u ≠ "" → truthy (field (body req) "password") = true →
  holds_invites w im → t ≠ "__proto__" → im !! t = Some (Obj inv) →
  inv !! "expiresAt" = Some (Num e) → safe_integer e = true →
  clock E (clock_reads w) ≤ e →
  holds_users w m → inherited u = false → m !! u = None →
  hash_of E (field (body req) "password") = Some h →
  (users_yml_writable w = false →
     ∃ w', post_api_invite_accept E req w
             = (w', Ret (json 500 (error "EACCES: permission denied"))) ∧
           users_yml w' = users_yml w ∧ stored_invite w' t = Some (Obj inv)) ∧
  (users_yml_writable w = true → invites_json_writable w = false →
     ∃ w', post_api_invite_accept E req w
             = (w', Ret (json 500 (error "EACCES: permission denied"))) ∧
           stored_user w' u = Some (accepted_record inv u h) ∧
           stored_invite w' t = Some (Obj inv)).
Proof.
  intros Htok Hun Ht Hu Hp Him Hproto Hinv Hexp Hsafe Hfresh Hm Hinh Hfree Hh. split.
  - intros Hwu.
    destruct (accept_users_unwritable E req w t u im inv m e Htok Hun Ht Hu Hp Him Hproto
                Hinv Hexp Hsafe Hfresh Hm Hinh Hfree h Hh Hwu)
      as (w' & Hrun & Husers & Hinvs).
    exists w'. repeat split; try assumption.
    unfold stored_invite. rewrite Hinvs, Him. exact Hinv.
  - intros Hwu Hwi.
    destruct (accept_invites_unwritable E req w t u im inv m e Htok Hun Ht Hu Hp Him Hproto
                Hinv Hexp Hsafe Hfresh Hm Hinh Hfree h Hh Hwu Hwi)
      as (w' & Hrun & Husers & Hinvs).
    exists w'. split; [exact Hrun|].
    split; [rewrite (stored_user_doc _ _ _ Husers); apply lookup_insert_eq|].
    unfold stored_invite. rewrite Hinvs, Him. exact Hinv.
Qed.


Lemma accept_write_failures_witness :
  ∃ w' record,
    post_api_invite_accept sample_env (accept_request sample_token "bob" "secret1")
      (invites_read_only world_bob_invited)
      = (w', Ret (json 500 (error "EACCES: permission denied"))) ∧
    stored_user w' "bob" = Some record ∧
    stored_invite w' sample_token ≠ None.
Proof.
  set (inv := obj_fields [ ("email", Str "bob@example.com");
                           ("groups", Arr [Str "users"]);
                           ("displayname", Str "");
                           ("createdAt", Num 1700000000000);
                           ("expiresAt", Num 1700003600001) ]).
  pose proof (accept_write_failures sample_env
                (accept_request sample_token "bob" "secret1")
                (invites_read_only world_bob_invited)
                sample_token "bob" (obj_fields [(sample_token, Obj inv)]) inv
                (obj_fields [("alice", alice_record)]) 1700003600001
                "$argon2id$v=19$m=65536,t=3,p=4$c2FsdA$aGFzaA"
                eq_refl eq_refl ltac:(discriminate) ltac:(discriminate) eq_refl
                eq_refl ltac:(discriminate) eq_refl eq_refl eq_refl
                ltac:(vm_compute; discriminate)
                (ex_intro _ _ (conj eq_refl eq_refl)) eq_refl eq_refl eq_refl) as [_ Hsecond].
  destruct (Hsecond eq_refl eq_refl) as (w' & Hrun & Huser & Hinvite).
  exists w'. eexists. split; [exact Hrun|]. split; [exact Huser|].
  rewrite Hinvite. discriminate.
Defined.

(** ** The access guard in front of the routes *)

(** X15. A request the access guard refuses is answered with 403 and the
    reason of the refusal on each of the six administrative routes; the
    handler is not run, so nothing but the log changes.  The two public
    routes, accepting an invitation and the health check, do not look at
    the headers at all. *)
Theorem denied_request_changes_nothing (E : Env) (r : Route) (req : Request) (w : World) :
  (∀ reason, checkAdmin req = Denied reason →
     r ≠ POST_api_invite_accept → r ≠ GET_health →
     (∃ l, app E r req w = (with_log l w, Ret (json 403 (error reason)))) ∧
     (reason = no_groups ∨ reason = not_admin)) ∧
  (∀ hs, r = POST_api_invite_accept ∨ r = GET_health →
     app E r (mkRequest hs (param_username req) (body req)) w = app E r req w).
Proof.
  split.
  - intros reason Hdenied Haccept Hhealth.
    split.
    + eexists. destruct r; try contradiction; cbn [app]; unfold admin_only;
        rewrite Hdenied; reflexivity.
    + unfold checkAdmin in Hdenied. destruct (getGroupsFromHeaders req) as [raw|].
      * destruct (list_includes "admins" (parse_groups raw)); [discriminate|].
        injection Hdenied as <-. now right.
      * injection Hdenied as <-. now left.
  - intros hs [-> | ->]; reflexivity.
Qed.

Lemma denied_request_changes_nothing_witness :
  ∃ l, app sample_env DELETE_api_users (request_with [("remote-groups", "users")] "alice" [])
         world_alice
         = (with_log l world_alice, Ret (json 403 (error "forbidden (not admin)"))).
Proof.
  apply (proj1 (denied_request_changes_nothing sample_env DELETE_api_users
                  (request_with [("remote-groups", "users")] "alice" []) world_alice)
           not_admin); [reflexivity | discriminate | discriminate].
Defined.

(** ** What every route answers *)

Lemma try_500_catches (ctx : string) (h : M Response) (w : World) (Q : Response → Prop) :
  (∀ e, Q (json 500 (error e))) →
  match h w with
  | (_, Ret resp) => Q resp
  | _ => True
  end →
  match try_500 ctx h w with
  | (_, Ret resp) => Q resp
  | (_, Throw _) => False
  | (_, OutOfModel) => True
  end.
Proof.
  intros H500 Hh. unfold try_500. destruct (h w) as [w' [resp|e|]]; auto.
Qed.

Section Answers.

Let handled (resp : Response) : Prop := In (status resp) [200; 400; 404; 500].

Lemma returns_any {A} (c : M A) : keeps (λ _, True) c (λ _, True).
Proof. intros w w' r _ _. split; trivial. Qed.

Ltac answer_step :=
  first
    [ apply keeps_ret; unfold handled; simpl; tauto
    | eapply keeps_bind; [apply returns_any | intros ? _]
    | match goal with
      | |- keeps _ (if ?b then _ else _) _ => destruct b
      end ].

Lemma handler_answers (ctx : string) (h : M Response) (w : World) :
  keeps (λ _, True) h handled →
  match try_500 ctx h w with
  | (_, Ret resp) => handled resp
  | (_, Throw _) => False
  | (_, OutOfModel) => True
  end.
Proof.
  intros Hh. apply try_500_catches.
  - intros e. unfold handled. simpl. tauto.
  - destruct (h w) as [w' [resp|e|]] eqn:Hw; trivial.
    exact (proj2 (Hh w w' _ I Hw) resp eq_refl).
Qed.

Lemma get_api_users_answers (req : Request) (w : World) :
  match get_api_users req w with
  | (_, Ret resp) => handled resp
  | (_, Throw _) => False
  | (_, OutOfModel) => True
  end.
Proof. unfold get_api_users. apply handler_answers. repeat answer_step. Qed.

Lemma post_api_users_answers (E : Env) (req : Request) (w : World) :
  match post_api_users E req w with
  | (_, Ret resp) => handled resp
  | (_, Throw _) => False
  | (_, OutOfModel) => True
  end.
Proof. unfold post_api_users. apply handler_answers. repeat answer_step. Qed.

Lemma put_api_users_answers (req : Request) (w : World) :
  match put_api_users req w with
  | (_, Ret resp) => handled resp
  | (_, Throw _) => False
  | (_, OutOfModel) => True
  end.
Proof. unfold put_api_users. apply handler_answers. repeat answer_step. Qed.

Lemma post_api_users_password_answers (E : Env) (req : Request) (w : World) :
  match post_api_users_password E req w with
  | (_, Ret resp) => handled resp
  | (_, Throw _) => False
  | (_, OutOfModel) => True
  end.
Proof. unfold post_api_users_password. apply handler_answers. repeat answer_step. Qed.

Lemma delete_api_users_answers (req : Request) (w : World) :
  match delete_api_users req w with
  | (_, Ret resp) => handled resp
  | (_, Throw _) => False
  | (_, OutOfModel) => True
  end.
Proof. unfold delete_api_users. apply handler_answers. repeat answer_step. Qed.

Lemma post_api_invite_answers (E : Env) (req : Request) (w : World) :
  match post_api_invite E req w with
  | (_, Ret resp) => handled resp
  | (_, Throw _) => False
  | (_, OutOfModel) => True
  end.
Proof. unfold post_api_invite. apply handler_answers. repeat answer_step. Qed.

Lemma post_api_invite_accept_answers (E : Env) (req : Request) (w : World) :
  match post_api_invite_accept E req w with
  | (_, Ret resp) => handled resp
  | (_, Throw _) => False
  | (_, OutOfModel) => True
  end.
Proof. unfold post_api_invite_accept. apply handler_answers. repeat answer_step. Qed.

Lemma admin_only_answers (req : Request) (h : M Response) (w : World) :
  match h w with
  | (_, Ret resp) => handled resp
  | (_, Throw _) => False
  | (_, OutOfModel) => True
  end →
  match admin_only req h w with
  | (_, Ret resp) => match checkAdmin req with
                     | Authorized => handled resp
                     | Denied _ => status resp = 403
                     end
  | (_, Throw _) => False
  | (_, OutOfModel) => True
  end.
Proof.
  intros Hh. unfold admin_only. destruct (checkAdmin req) as [|reason].
  - destruct (h w) as [w' [resp|e|]]; trivial.
  - reflexivity.
Qed.

End Answers.

(** X16. No route lets an exception escape, and every answer carries one
    of five statuses.  On an administrative route a request the guard
    refuses is answered with 403, and one it admits with 200, 400, 404 or
    500; the public routes answer with 200, 400, 404 or 500. *)
Theorem every_route_answers (E : Env) (r : Route) (req : Request) (w : World) :
  match app E r req w with
  | (_, Ret resp) =>
      match r with
      | POST_api_invite_accept | GET_health => In (status resp) [200; 400; 404; 500]
      | _ => match checkAdmin req with
             | Authorized => In (status resp) [200; 400; 404; 500]
             | Denied _ => status resp = 403
             end
      end
  | (_, Throw _) => False
  | (_, OutOfModel) => True
  end.
Proof.
  destruct r; cbn [app].
  - apply admin_only_answers, get_api_users_answers.
  - apply admin_only_answers, post_api_users_answers.
  - apply admin_only_answers, put_api_users_answers.
  - apply admin_only_answers, post_api_users_password_answers.
  - apply admin_only_answers, delete_api_users_answers.
  - apply admin_only_answers, post_api_invite_answers.
  - apply post_api_invite_accept_answers.
  - simpl. tauto.
Qed.

(** ** What each route leaves alone *)

Section Frame.

Variables (X : Type) (view : World → X) (x0 : X).

Let I : World → Prop := λ w, view w = x0.

Hypothesis view_log : ∀ l w, view (with_log l w) = view w.

Lemma frame_log (l : list string) (w : World) : I w → I (with_log l w).
Proof. unfold I. now rewrite view_log. Qed.

Lemma frame_logger (line : string) : keeps I (logger line) (λ _, True).
Proof. apply keeps_logger, frame_log. Qed.

Lemma frame_lift {A} (r : result A) : keeps I (lift r) (λ _, True).
Proof. now apply keeps_lift. Qed.

Lemma frame_ret {A} (a : A) : keeps I (ret a) (λ _, True).
Proof. now apply keeps_ret. Qed.

Lemma frame_generateHash (E : Env) (p : val) : keeps I (generateHash E p) (λ _, True).
Proof.
  intros w w' r HI H. split; [|trivial].
  destruct (generateHash_world E p w) as (r0 & Hr & _). rewrite Hr in H.
  now injection H as <- _.
Qed.

Lemma frame_assign_if_defined (users : val) (username f : string) (v v' : val) :
  keeps I (assign_if_defined users username f v v') (λ _, True).
Proof. unfold assign_if_defined. destruct (defined v); [apply frame_lift | apply frame_ret]. Qed.

Lemma frame_try_500 (ctx : string) (h : M Response) :
  keeps I h (λ _, True) → keeps I (try_500 ctx h) (λ _, True).
Proof. apply keeps_try_500, frame_log. Qed.

Lemma frame_loadUsers :
  (∀ f w, view (with_users_yml f w) = view w) → keeps I loadUsers (λ _, True).
Proof.
  intros view_users w w' r HI H. split; [|trivial]. rewrite loadUsers_run in H. unfold I in *.
  destruct (users_yml w) eqn:Hf; [destruct (users_yml_writable w)| | |];
    injection H as <- _; rewrite ?view_users, ?view_log; assumption.
Qed.

Lemma frame_saveUsers (users : val) :
  (∀ f w, view (with_users_yml f w) = view w) → keeps I (saveUsers users) (λ _, True).
Proof.
  intros view_users w w' r HI H. split; [|trivial]. rewrite saveUsers_run in H. unfold I in *.
  destruct (users_yml_writable w); injection H as <- _; rewrite ?view_users, ?view_log; assumption.
Qed.

Lemma frame_loadInvites : keeps I loadInvites (λ _, True).
Proof.
  intros w w' r HI H. split; [|trivial]. rewrite loadInvites_run in H. unfold I in *.
  destruct (invites_json w) as [| | |[]]; injection H as <- _; rewrite ?view_log; assumption.
Qed.

Lemma frame_saveInvites (invites : val) :
  (∀ f w, view (with_invites_json f w) = view w) → keeps I (saveInvites invites) (λ _, True).
Proof.
  intros view_invites w w' r HI H. split; [|trivial]. rewrite saveInvites_run in H. unfold I in *.
  destruct (invites_json_writable w); injection H as <- _; rewrite ?view_invites; assumption.
Qed.

Lemma frame_date_now (E : Env) :
  (∀ n w, view (with_clock_reads n w) = view w) → keeps I (date_now E) (λ _, True).
Proof.
  intros view_clock w w' r HI [= <- _]. split; [|trivial]. unfold I in *. now rewrite view_clock.
Qed.

Lemma frame_uuidv4 (E : Env) :
  (∀ n w, view (with_uuid_calls n w) = view w) → keeps I (uuidv4 E) (λ _, True).
Proof.
  intros view_uuid w w' r HI [= <- _]. split; [|trivial]. unfold I in *. now rewrite view_uuid.
Qed.

Lemma frame_send_invite_mail (E : Env) (email : val) (link : string) :
  (∀ o w, view (with_outbox o w) = view w) →
  keeps I (send_invite_mail E email link) (λ _, True).
Proof.
  intros view_outbox w w' r HI H. split; [|trivial]. unfold send_invite_mail, logger in H.
  unfold I in *.
  destruct (smtp E); injection H as <- _; rewrite ?view_log, ?view_outbox; assumption.
Qed.

Ltac frame_step :=
  first
    [ apply frame_ret
    | apply frame_try_500
    | eapply keeps_bind;
      [ first [ apply frame_loadUsers; assumption | apply frame_saveUsers; assumption
              | apply frame_loadInvites | apply frame_saveInvites; assumption
              | apply frame_generateHash | apply frame_logger
              | apply frame_lift | apply frame_assign_if_defined
              | apply frame_date_now; assumption | apply frame_uuidv4; assumption
              | apply frame_send_invite_mail; assumption ]
      | intros ? _ ]
    | match goal with
      | |- keeps _ (if ?b then _ else _) _ => destruct b
      end ].

Lemma frame_admin_only (req : Request) (h : M Response) :
  keeps I h (λ _, True) → keeps I (admin_only req h) (λ _, True).
Proof. apply keeps_admin_only, frame_log. Qed.

(** The five routes of the user management write at most the users file. *)
Lemma frame_user_routes (E : Env) (r : Route) (req : Request) :
  (∀ f w, view (with_users_yml f w) = view w) →
  r ≠ POST_api_invite → r ≠ POST_api_invite_accept →
  keeps I (app E r req) (λ _, True).
Proof.
  intros view_users Hinvite Haccept.
  destruct r; try contradiction; cbn [app]; try apply frame_admin_only.
  - unfold get_api_users. repeat frame_step.
  - unfold post_api_users. repeat frame_step.
  - unfold put_api_users. repeat frame_step.
  - unfold post_api_users_password. repeat frame_step.
  - unfold delete_api_users. repeat frame_step.
  - apply frame_ret.
Qed.

(** The invitation route draws a token, reads the clock, writes the
    invites file and may send a mail. *)
Lemma frame_post_api_invite (E : Env) (req : Request) :
  (∀ f w, view (with_invites_json f w) = view w) →
  (∀ n w, view (with_clock_reads n w) = view w) →
  (∀ n w, view (with_uuid_calls n w) = view w) →
  (∀ o w, view (with_outbox o w) = view w) →
  keeps I (app E POST_api_invite req) (λ _, True).
Proof.
  intros view_invites view_clock view_uuid view_outbox. cbn [app]. apply frame_admin_only.
  unfold post_api_invite. repeat frame_step.
Qed.

(** Accepting an invitation reads the clock and writes the two files. *)
Lemma frame_post_api_invite_accept (E : Env) (req : Request) :
  (∀ f w, view (with_users_yml f w) = view w) →
  (∀ f w, view (with_invites_json f w) = view w) →
  (∀ n w, view (with_clock_reads n w) = view w) →
  keeps I (app E POST_api_invite_accept req) (λ _, True).
Proof.
  intros view_users view_invites view_clock. cbn [app].
  unfold post_api_invite_accept. repeat frame_step.
Qed.

End Frame.

(** X17. What a request leaves alone, whatever it answers.  The five
    routes of the user management never touch the invites file, the clock,
    the token source or the outbox.  Making an invitation never touches
    the users file.  Accepting one draws no token and sends no mail.  The
    health check changes nothing at all. *)
Theorem routes_leave_the_rest_alone (E : Env) (r : Route) (req : Request) (w : World) :
  match r with
  | POST_api_invite =>
      users_yml (fst (app E r req w)) = users_yml w
  | POST_api_invite_accept =>
      uuid_calls (fst (app E r req w)) = uuid_calls w ∧
      outbox (fst (app E r req w)) = outbox w
  | GET_health =>
      fst (app E r req w) = w
  | _ =>
      invites_json (fst (app E r req w)) = invites_json w ∧
      clock_reads (fst (app E r req w)) = clock_reads w ∧
      uuid_calls (fst (app E r req w)) = uuid_calls w ∧
      outbox (fst (app E r req w)) = outbox w
  end.
Proof.
  assert (Huser : r ≠ POST_api_invite → r ≠ POST_api_invite_accept →
                  invites_json (fst (app E r req w)) = invites_json w ∧
                  clock_reads (fst (app E r req w)) = clock_reads w ∧
                  uuid_calls (fst (app E r req w)) = uuid_calls w ∧
                  outbox (fst (app E r req w)) = outbox w).
  { intros H1 H2. destruct (app E r req w) as [w' res] eqn:Happ. cbn [fst].
    repeat split.
    - refine (proj1 (frame_user_routes _ invites_json _ _ E r req _ H1 H2 w w' res eq_refl Happ));
        reflexivity.
    - refine (proj1 (frame_user_routes _ clock_reads _ _ E r req _ H1 H2 w w' res eq_refl Happ));
        reflexivity.
    - refine (proj1 (frame_user_routes _ uuid_calls _ _ E r req _ H1 H2 w w' res eq_refl Happ));
        reflexivity.
    - refine (proj1 (frame_user_routes _ outbox _ _ E r req _ H1 H2 w w' res eq_refl Happ));
        reflexivity. }
  destruct r; try (apply Huser; discriminate).
  - destruct (app E POST_api_invite req w) as [w' res] eqn:Happ. cbn [fst].
    refine (proj1 (frame_post_api_invite _ users_yml _ _ E req _ _ _ _ w w' res eq_refl Happ));
      reflexivity.
  - destruct (app E POST_api_invite_accept req w) as [w' res] eqn:Happ. cbn [fst]. split.
    + refine (proj1 (frame_post_api_invite_accept _ uuid_calls _ _ E req _ _ _
                       w w' res eq_refl Happ)); reflexivity.
    + refine (proj1 (frame_post_api_invite_accept _ outbox _ _ E req _ _ _
                       w w' res eq_refl Happ)); reflexivity.
  - reflexivity.
Qed.

(** ** The listing *)

Lemma with_log_same (w : World) : with_log (log w) w = w.
Proof. now destruct w. Qed.

(** X18. Listing the users reads the users file and writes it in one
    case only: a missing file is created with an empty [users] mapping,
    and the listing is then empty.  A file that exists is never written
    by the listing, whatever it holds and whatever the answer: at most
    the log grows. *)
Theorem listing_writes_only_a_missing_file (req : Request) (w : World) :
  (users_yml w ≠ Missing → ∃ l, fst (get_api_users req w) = with_log l w) ∧
  (users_yml w = Missing → users_yml_writable w = true →
     ∃ w', get_api_users req w = (w', Ret (json 200 (Obj ∅))) ∧
           users_yml w' = Doc (obj_lit [("users", Obj ∅)]) ∧
           get_api_users req w' = (w', Ret (json 200 (Obj ∅)))).
Proof.
  split.
  - intros Hfile. unfold get_api_users, try_500, bind, lift, ret.
    rewrite loadUsers_run.
    destruct (users_yml w) as [| | |v]; [contradiction| | |]; cbn [fst]; eauto.
    destruct (get (js_or v (Obj ∅)) "users") as [users|e|]; cbn [fst]; eauto.
    + destruct (safe_users (js_or users (Obj ∅))) as [safe|e|]; cbn [fst];
        eauto; exists (log w); now rewrite with_log_same.
    + exists (log w). now rewrite with_log_same.
  - intros Hfile Hw.
    assert (Hsafe : safe_users (Obj ∅) = Ret (Obj ∅)).
    { rewrite (safe_users_listable _ listable_empty). now rewrite fmap_empty. }
    eexists. split; [|split].
    + unfold get_api_users, try_500, bind, lift, ret.
      rewrite (loadUsers_missing _ Hfile Hw), Hsafe. reflexivity.
    + reflexivity.
    + unfold get_api_users, try_500, bind, lift, ret.
      rewrite (loadUsers_holds _ ∅ (holds_users_saved ∅ _)), Hsafe. reflexivity.
Qed.

Lemma listing_writes_only_a_missing_file_witness :
  ∃ w', get_api_users (request_with [] "" []) (world_with Missing Missing)
          = (w', Ret (json 200 (Obj ∅))) ∧
        users_yml w' = Doc (obj_lit [("users", Obj ∅)]).
Proof.
  destruct (proj2 (listing_writes_only_a_missing_file (request_with [] "" [])
                     (world_with Missing Missing)) eq_refl eq_refl)
    as (w' & Hrun & Hfile & _).
  exists w'. split; assumption.
Defined.

(** ** A store the listing can copy stays one *)

Lemma listable_insert_record (m r : gmap string val) (u : string) :
  listable m → u ≠ "__proto__" → listable (<[u := Obj r]> m).
Proof.
  intros [Hp Hall] Hu. split.
  - rewrite lookup_insert_ne by assumption. exact Hp.
  - apply map_Forall_insert_2; [reflexivity | exact Hall].
Qed.

Lemma listable_delete (m : gmap string val) (u : string) :
  listable m → listable (delete u m).
Proof.
  intros [Hp Hall]. split.
  - apply lookup_delete_None. now right.
  - now apply map_Forall_delete.
Qed.

Lemma set_in_Ret (m : gmap string val) (k f : string) (v o' : val) :
  set_in (Obj m) k f v = Ret o' →
  ∃ r, k ≠ "__proto__" ∧ m !! k = Some (Obj r) ∧ o' = Obj (<[k := Obj (<[f := v]> r)]> m).
Proof.
  unfold set_in. destruct (String.eqb_spec k "__proto__"); [discriminate|].
  destruct (m !! k) as [[| | | | | |r|]|]; try discriminate.
  - destruct (String.eqb f "__proto__"); [discriminate|]. intros [= <-]. eauto.
  - destruct (inherited k); discriminate.
Qed.

Section Listable.

Variable E : Env.

Let J : World → Prop := λ w, ∃ m, holds_users w m ∧ listable m.

Let good (v : val) : Prop := ∃ m, v = Obj m ∧ listable m.

Lemma listable_same_file (w w' : World) : users_yml w' = users_yml w → J w → J w'.
Proof.
  intros Hf (m & (top & Htop & Hm) & Hl). exists m. split; [|exact Hl].
  exists top. split; [now rewrite Hf | exact Hm].
Qed.

Lemma listable_frame {A} (c : M A) :
  (∀ f, keeps (λ w, users_yml w = f) c (λ _, True)) → keeps J c (λ _, True).
Proof.
  intros Hc w w' r HJ H. split; [|trivial].
  apply (listable_same_file w); [|exact HJ].
  exact (proj1 (Hc (users_yml w) w w' r eq_refl H)).
Qed.

Lemma listable_log (l : list string) (w : World) : J w → J (with_log l w).
Proof. now apply listable_same_file. Qed.

Lemma listable_loadUsers : keeps J loadUsers good.
Proof.
  intros w w' r (m & Hm & Hl) H. rewrite (loadUsers_holds _ _ Hm) in H.
  injection H as <- <-. split; [now exists m|]. intros a [= <-]. now exists m.
Qed.

Lemma listable_saveUsers (m : gmap string val) :
  listable m → keeps J (saveUsers (Obj m)) (λ _, True).
Proof.
  intros Hl w w' r HJ H. split; [|trivial]. rewrite saveUsers_run in H.
  destruct (users_yml_writable w); injection H as <- _; [|exact HJ].
  exists m. split; [apply holds_users_saved | exact Hl].
Qed.

Lemma listable_set (m : gmap string val) (k : string) (fields : list (string * val)) :
  listable m → keeps J (lift (set (Obj m) k (obj_lit fields))) good.
Proof.
  intros Hl. apply keeps_lift. intros a Ha.
  apply set_Ret in Ha as (m' & [= <-] & Hk & ->).
  eexists. split; [reflexivity|]. now apply listable_insert.
Qed.

Lemma listable_del (m : gmap string val) (k : string) :
  listable m → keeps J (lift (del (Obj m) k)) good.
Proof.
  intros Hl. apply keeps_lift. intros a Ha.
  apply del_Ret in Ha as (m' & [= <-] & Hk & ->).
  eexists. split; [reflexivity|]. now apply listable_delete.
Qed.

Lemma listable_set_in (m : gmap string val) (k f : string) (v : val) :
  listable m → keeps J (lift (set_in (Obj m) k f v)) good.
Proof.
  intros Hl. apply keeps_lift. intros a Ha.
  apply set_in_Ret in Ha as (r & Hk & _ & ->).
  eexists. split; [reflexivity|]. now apply listable_insert_record.
Qed.

Lemma listable_assign_if_defined (m : gmap string val) (u f : string) (v v' : val) :
  listable m → keeps J (assign_if_defined (Obj m) u f v v') good.
Proof.
  intros Hl. unfold assign_if_defined. destruct (defined v).
  - now apply listable_set_in.
  - apply keeps_ret. now exists m.
Qed.

Ltac listable_step :=
  first
    [ apply keeps_ret; exact Logic.I
    | apply keeps_try_500 with (Q := λ _, True); [exact listable_log|]
    | eapply keeps_bind;
      [ first [ apply (keeps_logger _ listable_log)
              | apply (keeps_lift J _ (λ _, True)); trivial
              | apply listable_frame; intros ?;
                first [ apply frame_generateHash; reflexivity
                      | apply frame_date_now; reflexivity
                      | apply frame_loadInvites; reflexivity
                      | apply frame_saveInvites; reflexivity ] ]
      | intros ? _ ]
    | match goal with
      | |- keeps _ (if ?b then _ else _) _ =>
          destruct b; [solve [repeat listable_step]|]
      end ].

Lemma listable_get_api_users (req : Request) : keeps J (get_api_users req) (λ _, True).
Proof.
  unfold get_api_users. listable_step.
  eapply keeps_bind; [apply listable_loadUsers|]. intros users _.
  repeat listable_step.
Qed.

Lemma listable_post_api_users (req : Request) : keeps J (post_api_users E req) (λ _, True).
Proof.
  unfold post_api_users. do 3 listable_step.
  eapply keeps_bind; [apply listable_loadUsers|]. intros users (m & -> & Hl).
  do 4 listable_step.
  eapply keeps_bind; [now apply listable_set|]. intros users' (m' & -> & Hl').
  eapply keeps_bind; [now apply listable_saveUsers|]. intros _ _.
  repeat listable_step.
Qed.

Lemma listable_put_api_users (req : Request) : keeps J (put_api_users req) (λ _, True).
Proof.
  unfold put_api_users. listable_step.
  eapply keeps_bind; [apply listable_loadUsers|]. intros users (m & -> & Hl).
  do 2 listable_step.
  eapply keeps_bind; [now apply listable_assign_if_defined|]. intros ? (m1 & -> & Hl1).
  eapply keeps_bind; [now apply listable_assign_if_defined|]. intros ? (m2 & -> & Hl2).
  eapply keeps_bind; [now apply listable_assign_if_defined|]. intros ? (m3 & -> & Hl3).
  eapply keeps_bind; [now apply listable_saveUsers|]. intros _ _.
  repeat listable_step.
Qed.

Lemma listable_post_api_users_password (req : Request) :
  keeps J (post_api_users_password E req) (λ _, True).
Proof.
  unfold post_api_users_password. do 2 listable_step.
  eapply keeps_bind; [apply listable_loadUsers|]. intros users (m & -> & Hl).
  do 3 listable_step.
  eapply keeps_bind; [now apply listable_set_in|]. intros ? (m1 & -> & Hl1).
  eapply keeps_bind; [now apply listable_saveUsers|]. intros _ _.
  repeat listable_step.
Qed.

Lemma listable_delete_api_users (req : Request) : keeps J (delete_api_users req) (λ _, True).
Proof.
  unfold delete_api_users. listable_step.
  eapply keeps_bind; [apply listable_loadUsers|]. intros users (m & -> & Hl).
  do 2 listable_step.
  eapply keeps_bind; [now apply listable_del|]. intros ? (m1 & -> & Hl1).
  eapply keeps_bind; [now apply listable_saveUsers|]. intros _ _.
  repeat listable_step.
Qed.

Lemma listable_post_api_invite_accept (req : Request) :
  keeps J (post_api_invite_accept E req) (λ _, True).
Proof.
  unfold post_api_invite_accept. do 10 listable_step.
  eapply keeps_bind; [apply listable_loadUsers|]. intros users (m & -> & Hl).
  do 7 listable_step.
  eapply keeps_bind; [now apply listable_set|]. intros users' (m' & -> & Hl').
  eapply keeps_bind; [now apply listable_saveUsers|]. intros _ _.
  repeat listable_step.
Qed.

Lemma listable_app (r : Route) (req : Request) : keeps J (app E r req) (λ _, True).
Proof.
  destruct r;
    try (apply listable_frame; intros f; apply frame_post_api_invite; reflexivity);
    cbn [app];
    try (apply keeps_admin_only; [exact listable_log|]);
    auto using listable_get_api_users, listable_post_api_users, listable_put_api_users,
      listable_post_api_users_password, listable_delete_api_users,
      listable_post_api_invite_accept.
  apply keeps_ret. exact Logic.I.
Qed.

Lemma listable_serve (requests : list (Route * Request)) (w : World) :
  J w → J (serve E requests w).
Proof.
  revert w. induction requests as [|[r req] rest IH]; intros w HJ; simpl; [assumption|].
  apply IH. destruct (app E r req w) as [w' res] eqn:Happ.
  exact (proj1 (listable_app r req w w' res HJ Happ)).
Qed.

End Listable.

(** X19. A users file that the listing can copy (a [users] mapping without
    an own [__proto__] key whose records are neither strings nor arrays)
    stays one under every request on every route, whatever the request
    holds and whatever is answered.  So after any sequence of requests the
    listing still succeeds: it answers 200 with the stored users, and
    changes nothing. *)
Theorem listing_works_after_any_requests (E : Env) (requests : list (Route * Request))
    (req : Request) (w : World) (m : gmap string val) :
  holds_users w m → listable m →
  ∃ m', holds_users (serve E requests w) m' ∧ listable m' ∧
        get_api_users req (serve E requests w)
          = (serve E requests w, Ret (json 200 (Obj (without_password <$> m')))).
Proof.
  intros Hm Hl.
  destruct (listable_serve E requests w (ex_intro _ m (conj Hm Hl))) as (m' & Hm' & Hl').
  exists m'. split; [exact Hm'|]. split; [exact Hl'|].
  now apply get_api_users_listable.
Qed.

Lemma listing_works_after_any_requests_witness :
  ∃ m', holds_users
          (serve sample_env
             ((POST_api_invite_accept, accept_request sample_token "bob" "secret1")
              :: later_requests) world_alice) m' ∧
        listable m'.
Proof.
  assert (Hm : holds_users world_alice (obj_fields [("alice", alice_record)])).
  { apply holds_users_doc. reflexivity. }
  assert (Hl : listable (obj_fields [("alice", alice_record)])).
  { apply listable_singleton. discriminate. }
  destruct (listing_works_after_any_requests sample_env
              ((POST_api_invite_accept, accept_request sample_token "bob" "secret1")
               :: later_requests)
              (request_with [] "" []) world_alice _ Hm Hl)
    as (m' & Hm' & Hl' & _).
  exists m'. split; [exact Hm' | exact Hl'].
Defined.

(** ** Usernames that name a member of [Object.prototype] *)

Lemma get_inherited (m : gmap string val) (u : string) :
  inherited u = true → u ≠ "__proto__" → m !! u = None → get (Obj m) u = Ret (Fun u).
Proof.
  intros Hinh Hproto Hu. unfold get.
  destruct (String.eqb_spec u "__proto__"); [contradiction|]. now rewrite Hu, Hinh.
Qed.

Lemma delete_api_users_inherited (req : Request) (w : World) (m : gmap string val) :
  holds_users w m → m !! param_username req = None →
  inherited (param_username req) = true → param_username req ≠ "__proto__" →
  users_yml_writable w = true →
  ∃ w', delete_api_users req w = (w', Ret (json 200 ok)) ∧
        users_yml w' = Doc (obj_lit [("users", Obj m)]) ∧
        invites_json w' = invites_json w.
Proof.
  intros Hm Hu Hinh Hproto Hw.
  unfold delete_api_users, try_500, bind, lift, ret.
  rewrite (loadUsers_holds _ _ Hm), (get_inherited _ _ Hinh Hproto Hu). cbn [truthy negb].
  rewrite (del_plain _ _ Hproto), (saveUsers_writable _ _ Hw).
  rewrite (delete_id _ _ Hu). cbn.
  eexists. split; [reflexivity|]. split; reflexivity.
Qed.

Lemma accept_inherited (E : Env) (req : Request) (w : World) (t u : string)
    (im inv m : gmap string val) (e : Z) :
  field (body req) "token" = Str t → field (body req) "username" = Str u →
  t ≠ "" → truthy (field (body req) "password") = true →
  holds_invites w im → t ≠ "__proto__" → im !! t = Some (Obj inv) →
  inv !! "expiresAt" = Some (Num e) → safe_integer e = true →
  clock E (clock_reads w) ≤ e →
  holds_users w m → m !! u = None → inherited u = true → u ≠ "__proto__" →
  ∃ w', post_api_invite_accept E req w = (w', Ret (json 400 (error "username exists"))) ∧
        invites_json w' = invites_json w ∧ users_yml w' = users_yml w.
Proof.
  intros Htoken Husername Ht Hpassword Hinvites Hproto Hinv Hexpires Hsafe Hfresh
    Husers Hfree Hinh Hup.
  assert (Htt : truthy (Str t) = true) by now apply nonempty_true.
  assert (Htu : truthy (Str u) = true).
  { apply nonempty_true. intros ->. discriminate Hinh. }
  assert (Hgt : js_gt (clock E (clock_reads w)) (Num e) = Ret false).
  { unfold js_gt, to_number, number. rewrite Hsafe. f_equal. apply Z.ltb_ge. exact Hfresh. }
  unfold post_api_invite_accept, try_500, bind, lift, ret, to_key, date_now.
  rewrite Htoken, Husername, Htt, Htu, Hpassword. cbn [negb orb].
  rewrite (loadInvites_holds _ _ Hinvites), (get_own _ _ _ Hproto Hinv). cbn [truthy negb].
  cbv beta iota.
  rewrite (get_field_of_record inv "expiresAt" eq_refl), Hexpires. cbn [default from_option id].
  rewrite Hgt. cbv beta iota.
  rewrite (loadUsers_holds (with_clock_reads (S (clock_reads w)) w) m Husers).
  rewrite (get_inherited _ _ Hinh Hup Hfree). cbn [truthy].
  eexists. split; [reflexivity|]. split; reflexivity.
Qed.

(** X20. A username that names a member of [Object.prototype], such as
    [toString] or [valueOf], is taken for a stored user although the
    store holds no record under it: [users[username]] finds the inherited
    member.  Creating such a user is refused with "User exists",
    accepting an invitation under it is refused with "username exists"
    and leaves the invitation in place, and deleting it is answered with
    200 while the stored users stay as they were. *)
Theorem inherited_names_look_stored (E : Env) (req : Request) (w : World)
    (m : gmap string val) (u : string) :
  holds_users w m → m !! u = None → inherited u = true → u ≠ "__proto__" →
  (field (body req) "username" = Str u →
   truthy (field (body req) "password") = true →
     post_api_users E req w = (w, Ret (json 400 (error "User exists")))) ∧
  (param_username req = u → users_yml_writable w = true →
     ∃ w', delete_api_users req w = (w', Ret (json 200 ok)) ∧
           holds_users w' m ∧ invites_json w' = invites_json w) ∧
  (∀ t im inv e,
     field (body req) "token" = Str t → field (body req) "username" = Str u →
     t ≠ "" → truthy (field (body req) "password") = true →
     holds_invites w im → t ≠ "__proto__" → im !! t = Some (Obj inv) →
     inv !! "expiresAt" = Some (Num e) → safe_integer e = true →
     clock E (clock_reads w) ≤ e →
     ∃ w', post_api_invite_accept E req w
             = (w', Ret (json 400 (error "username exists"))) ∧
           stored_invite w' t = Some (Obj inv) ∧ users_yml w' = users_yml w).
Proof.
  intros Hm Hu Hinh Hproto. split; [|split].
  - intros Hf Hp. now apply (post_api_users_inherited E req w m u).
  - intros <- Hw.
    destruct (delete_api_users_inherited req w m Hm Hu Hinh Hproto Hw)
      as (w' & Hrun & Hdoc & Hinv).
    exists w'. split; [exact Hrun|]. split; [now apply holds_users_doc | exact Hinv].
  - intros t im inv e Htok Hun Ht Hp Him Htp Hinv Hexp Hsafe Hfresh.
    destruct (accept_inherited E req w t u im inv m e Htok Hun Ht Hp Him Htp Hinv Hexp
                Hsafe Hfresh Hm Hu Hinh Hproto)
      as (w' & Hrun & Hinvs & Husers).
    exists w'. split; [exact Hrun|]. split; [|exact Husers].
    unfold stored_invite. rewrite Hinvs, Him. exact Hinv.
Qed.

Lemma inherited_names_look_stored_witness :
  ∃ w', delete_api_users (request_with [] "toString" []) world_alice
          = (w', Ret (json 200 ok)) ∧
        stored_user w' "alice" = stored_user world_alice "alice" ∧
        stored_user world_alice "toString" = None.
Proof.
  assert (Hm : holds_users world_alice (obj_fields [("alice", alice_record)])).
  { apply holds_users_doc. reflexivity. }
  destruct (proj1 (proj2 (inherited_names_look_stored sample_env
                            (request_with [] "toString" []) world_alice _ "toString"
                            Hm eq_refl eq_refl ltac:(discriminate)))
              eq_refl eq_refl)
    as (w' & Hrun & (top & Htop & Husers) & _).
  exists w'. split; [exact Hrun|]. split; [|reflexivity].
  unfold stored_user at 1. rewrite Htop, Husers. reflexivity.
Defined.

(** ** Headers the guard does not read *)

Lemma first_header_insert (req : Request) (h v : string) (names : list string) :
  ¬ In h names →
  first_header (mkRequest (<[h := v]> (headers req)) (param_username req) (body req)) names
    = first_header req names.
Proof.
  induction names as [|k names IH]; intros Hnot; [reflexivity|].
  cbn [first_header headers]. rewrite lookup_insert_ne.
  - rewrite IH; [reflexivity|]. intros Hin. apply Hnot. now right.
  - intros ->. apply Hnot. now left.
Qed.

(** X21. The guard reads the six headers of its list and no other: a
    header of any other name, [remote-user] or [cookie] for instance,
    never changes its verdict, whatever its value.  The verdict does not
    depend on the body or on the path either. *)
Theorem guard_reads_only_its_headers (req : Request) (h v : string)
    (username : string) (b : gmap string val) :
  ¬ In h candidates →
  checkAdmin (mkRequest (<[h := v]> (headers req)) username b) = checkAdmin req.
Proof.
  intros Hnot. unfold checkAdmin, getGroupsFromHeaders.
  assert (H : ∀ names,
            first_header (mkRequest (<[h := v]> (headers req)) username b) names
            = first_header (mkRequest (<[h := v]> (headers req)) (param_username req)
                              (body req)) names).
  { induction names as [|k names IH]; [reflexivity|]. cbn [first_header headers].
    now rewrite IH. }
  now rewrite H, (first_header_insert req h v candidates Hnot).
Qed.

Lemma guard_reads_only_its_headers_witness :
  checkAdmin (mkRequest (<["remote-user" := "admins"]> ∅) "" ∅) = Denied no_groups.
Proof.
  refine (eq_trans (guard_reads_only_its_headers (mkRequest ∅ "" ∅)
                      "remote-user" "admins" "" ∅ _) eq_refl).
  simpl. intros H. repeat (destruct H as [H | H]; [discriminate H|]). exact H.
Defined.

(** ** An invites file that cannot be read *)

Lemma no_invites_loaded (f : file) : no_invites f → loaded_invites f = Some ∅.
Proof. intros [-> | [-> | [-> | ->]]]; reflexivity. Qed.

Lemma accept_unknown_token_loaded (E : Env) (req : Request) (w : World)
    (t : string) (im : gmap string val) :
  loaded_invites (invites_json w) = Some im → im !! t = None → inherited t = false →
  field (body req) "token" = Str t → t ≠ "" →
  truthy (field (body req) "username") = true →
  truthy (field (body req) "password") = true →
  ∃ l, post_api_invite_accept E req w
         = (with_log l w, Ret (json 400 (error "invalid token"))).
Proof.
  intros Him Ht Hinh Htoken Hne Hu Hp.
  assert (Htt : truthy (Str t) = true) by now apply nonempty_true.
  destruct (loadInvites_loaded w im Him) as (l & Hl).
  exists l. unfold post_api_invite_accept, try_500, bind, lift, ret, to_key.
  rewrite Htoken, Htt, Hu, Hp. cbn [negb orb].
  now rewrite Hl, (get_absent _ _ Hinh Ht).
Qed.

(** X3. An invites file that is absent, unreadable, unparsable or empty
    counts as holding no invitation, and the service goes on: accepting
    answers "invalid token" for every token that names no member of
    [Object.prototype] and changes no file, and making an invitation
    answers 200 and writes an invites file that holds the new invitation
    and nothing else, so whatever the unreadable file held is replaced. *)
Theorem invites_file_is_reset (E : Env) (req : Request) (w : World) :
  no_invites (invites_json w) →
  (∀ t, field (body req) "token" = Str t → t ≠ "" → inherited t = false →
        truthy (field (body req) "username") = true →
        truthy (field (body req) "password") = true →
        ∃ l, post_api_invite_accept E req w
               = (with_log l w, Ret (json 400 (error "invalid token")))) ∧
  (∀ n, truthy (field (body req) "email") = true →
        to_number (requested_minutes (body req)) = Ret n →
        safe_integer (n * 60) = true →
        safe_integer (n * 60 * 1000) = true →
        safe_integer (clock E (S (clock_reads w)) + n * 60 * 1000) = true →
        uuid E (uuid_calls w) ≠ "__proto__" →
        invites_json_writable w = true →
        ∃ w' invitation,
          post_api_invite E req w = (w', Ret (invite_response E (uuid E (uuid_calls w)))) ∧
          invites_json w' = Doc (Obj {[ uuid E (uuid_calls w) := invitation ]}) ∧
          prop invitation "email" = Some (field (body req) "email")).
Proof.
  intros Hfile. pose proof (no_invites_loaded _ Hfile) as Hload. split.
  - intros t Htoken Hne Hinh Hu Hp.
    now apply (accept_unknown_token_loaded E req w t ∅ Hload (lookup_empty t)).
  - intros n Hemail Hmin Hs1 Hs2 Hs3 Hproto Hw.
    destruct (post_api_invite_stores E req w ∅ n Hemail Hload Hmin Hs1 Hs2 Hs3 Hproto Hw)
      as (w' & Hrun & Hinv & _).
    exists w'. eexists. split; [exact Hrun|]. split; [rewrite Hinv; reflexivity|].
    unfold invitation_record. rewrite prop_obj_lit. cbn [literal_lookup].
    rewrite (truthy_defined _ Hemail). reflexivity.
Qed.

Lemma invites_file_is_reset_witness :
  ∃ l, post_api_invite_accept sample_env (accept_request sample_token "bob" "secret1")
         (world_with Missing Malformed)
         = (with_log l (world_with Missing Malformed),
            Ret (json 400 (error "invalid token"))).
Proof.
  apply (proj1 (invites_file_is_reset sample_env
                  (accept_request sample_token "bob" "secret1")
                  (world_with Missing Malformed) (or_intror (or_intror (or_introl eq_refl))))
           sample_token); reflexivity || discriminate.
Defined.

(** ** Creating a user and deleting it again *)

Lemma post_api_users_creates_writable (E : Env) (req : Request) (w : World)
    (m : gmap string val) (u h : string) :
  field (body req) "username" = Str u → u ≠ "" →
  truthy (field (body req) "password") = true →
  holds_users w m → inherited u = false → m !! u = None →
  hash_of E (field (body req) "password") = Some h →
  users_yml_writable w = true →
  ∃ w', post_api_users E req w = (w', Ret (json 200 ok)) ∧
        users_yml w' =
          Doc (obj_lit [("users",
            Obj (<[u := new_user_record (Str u) (field (body req) "displayname")
                          (field (body req) "email") (field (body req) "groups") h]> m))]) ∧
        users_yml_writable w' = true ∧
        invites_json w' = invites_json w ∧ outbox w' = outbox w.
Proof.
  intros Hu Hne Hp Hm Hinh Hfree Hh Hw.
  assert (Htu : truthy (Str u) = true) by now apply nonempty_true.
  apply (generateHash_hash_of E _ h w) in Hh.
  unfold post_api_users, try_500, bind, lift, ret, to_key.
  rewrite Hu, Htu, Hp. cbn [negb].
  rewrite (loadUsers_holds _ _ Hm), (get_absent _ _ Hinh Hfree). cbn [truthy].
  rewrite Hh, (set_plain _ _ _ (inherited_proto _ Hinh)).
  rewrite (saveUsers_writable _ _ Hw). cbn.
  eexists. split; [reflexivity|]. repeat split. exact Hw.
Qed.

(** X2. Deleting undoes creating.  When a user is created under a free
    username (one that names no member of [Object.prototype]) and then
    deleted, both requests answer 200 and the users file holds the same
    users as before the two requests, each with the record it had; the
    invites file and the outbox are not touched.  The username is free
    again: the same creation succeeds once more. *)
Theorem create_then_delete_restores (E : Env) (creq dreq : Request) (w : World)
    (m : gmap string val) (u h : string) :
  holds_users w m →
  field (body creq) "username" = Str u → u ≠ "" →
  truthy (field (body creq) "password") = true →
  inherited u = false → m !! u = None →
  hash_of E (field (body creq) "password") = Some h →
  users_yml_writable w = true →
  param_username dreq = u →
  ∃ w1 w2 w3,
    post_api_users E creq w = (w1, Ret (json 200 ok)) ∧
    stored_user w1 u ≠ None ∧
    delete_api_users dreq w1 = (w2, Ret (json 200 ok)) ∧
    holds_users w2 m ∧
    invites_json w2 = invites_json w ∧ outbox w2 = outbox w ∧
    post_api_users E creq w2 = (w3, Ret (json 200 ok)).
Proof.
  intros Hm Hu Hne Hp Hinh Hfree Hh Hw Hd.
  destruct (post_api_users_creates_writable E creq w m u h Hu Hne Hp Hm Hinh Hfree Hh Hw)
    as (w1 & Hcreate & Hdoc1 & Hw1 & Hinv1 & Hout1).
  pose proof (holds_users_doc _ _ Hdoc1) as Hm1.
  destruct (delete_api_users_removes dreq w1 _
              (new_user_record (Str u) (field (body creq) "displayname")
                 (field (body creq) "email") (field (body creq) "groups") h) Hm1)
    as (w2 & Hdelete & Hdoc2 & Hw2 & Hinv2 & Hout2).
  { rewrite Hd. now apply inherited_proto. }
  { rewrite Hd. apply lookup_insert_eq. }
  { reflexivity. }
  { exact Hw1. }
  rewrite Hd, (delete_insert_id _ _ _ Hfree) in Hdoc2.
  pose proof (holds_users_doc _ _ Hdoc2) as Hm2.
  destruct (post_api_users_creates_writable E creq w2 m u h Hu Hne Hp Hm2 Hinh Hfree Hh)
    as (w3 & Hagain & _).
  { now rewrite Hw2, Hw1. }
  exists w1, w2, w3. split; [exact Hcreate|].
  split; [rewrite (stored_user_doc _ _ _ Hdoc1), lookup_insert_eq; discriminate|].
  split; [exact Hdelete|]. split; [exact Hm2|].
  split; [now rewrite Hinv2, Hinv1|]. split; [now rewrite Hout2, Hout1 | exact Hagain].
Qed.

Lemma create_then_delete_restores_witness :
  ∃ w1 w2,
    post_api_users sample_env (create_request "carol" "secret1") world_alice
      = (w1, Ret (json 200 ok)) ∧
    delete_api_users (request_with [] "carol" []) w1 = (w2, Ret (json 200 ok)) ∧
    stored_user w2 "carol" = None ∧
    stored_user w2 "alice" = Some alice_record.
Proof.
  assert (Hm : holds_users world_alice (obj_fields [("alice", alice_record)])).
  { apply holds_users_doc. reflexivity. }
  destruct (create_then_delete_restores sample_env (create_request "carol" "secret1")
              (request_with [] "carol" []) world_alice _ "carol"
              "$argon2id$v=19$m=65536,t=3,p=4$c2FsdA$aGFzaA"
              Hm eq_refl ltac:(discriminate) eq_refl eq_refl eq_refl eq_refl eq_refl eq_refl)
    as (w1 & w2 & _ & Hcreate & _ & Hdelete & (top & Htop & Husers) & _).
  exists w1, w2. split; [exact Hcreate|]. split; [exact Hdelete|].
  unfold stored_user. rewrite Htop, Husers. split; reflexivity.
Defined.
